(** * Redpanda operator: PVC unbinder and cluster reconciler

    A shallow embedding of two control loops of the operator:

    - package [pvcunbinder]: the controller that remediates Pods stuck in
      Pending because of node-bound local volumes ([Reconcile],
      [ShouldRemediate], [StsPVCs], [ensureRetainPolicy],
      [maybeRecyclePersistentVolume]);
    - package [redpanda]: the cluster reconciler ([Reconcile], [reconcile],
      [reconcileDefluxed], [reconcileDefluxGC], [needsDecommission],
      [checkReplicasForList]).

    The Kubernetes client is an interface in the source; here it is a type
    class over an abstract world, so that every result about the sequence of
    store operations holds for any behaviour of the store (errors, concurrent
    writers).  An in-memory store instantiates it where a claim speaks about
    the state reached. *)

From Stdlib Require Import ZArith Ascii String List Lia.
From stdpp Require Import gmap strings list fin_maps.

Local Open Scope Z_scope.

(** ** Go integers and durations *)

(** [int64] arithmetic wraps around. *)
Definition wrap64 (z : Z) : Z := (z + 2 ^ 63) `mod` 2 ^ 64 - 2 ^ 63.

(** [time.Duration] is an [int64] count of nanoseconds. *)
Definition minDuration : Z := - 2 ^ 63.
Definition maxDuration : Z := 2 ^ 63 - 1.

Definition Minute : Z := 60 * 1000000000.

(** [Time.Sub]: the difference of two instants, saturated to the range of a
    [Duration].  Instants are nanoseconds on the time line. *)
Definition Sub (t u : Z) : Z :=
  let d := t - u in
  if d <? minDuration then minDuration
  else if maxDuration <? d then maxDuration
  else d.

(** [time.Since(t)] with the clock reading [now]. *)
Definition Since (now t : Z) : Z := Sub now t.

(** ** Errors *)

#[warnings="-register-all"]
Inductive error : Type :=
| ErrNotFound
| ErrConflict
| ErrNoMatch
| ErrOther (msg : string)
| ErrJoin (errs : list error).

Inductive result (A : Type) : Type :=
| Ok (a : A)
| Err (e : error).
Arguments Ok {A} a.
Arguments Err {A} e.

Definition IsNotFound (e : error) : bool :=
  match e with ErrNotFound => true | _ => false end.

Definition IsNoMatchError (e : error) : bool :=
  match e with ErrNoMatch => true | _ => false end.

Definition is_ok {A} (r : result A) : bool :=
  match r with Ok _ => true | Err _ => false end.

(** ** A computation over a world that records what it did

    [M W E A]: from a world, a result, the next world, and the events the
    computation emitted, in order.  An error stops the computation. *)

Definition M (W E A : Type) : Type := W → result A * W * list E.

Definition Mret {W E A} (a : A) : M W E A := λ w, (Ok a, w, []).

Definition Mbind {W E A B} (m : M W E A) (k : A → M W E B) : M W E B :=
  λ w, match m w with
       | (Ok a, w1, t1) =>
           match k a w1 with (r, w2, t2) => (r, w2, t1 ++ t2) end
       | (Err e, w1, t1) => (Err e, w1, t1)
       end.

Definition Mfail {W E A} (e : error) : M W E A := λ w, (Err e, w, []).

(** Emit an event. *)
Definition Mtell {W E} (ev : E) : M W E unit := λ w, (Ok tt, w, [ev]).

(** Call the store: the call's outcome is returned to the caller as a value
    (the caller inspects the error, as Go code does) and is recorded. *)
Definition Mcall {W E A} (op : W → result A * W) (ev : result A → E)
  : M W E (result A) :=
  λ w, match op w with (r, w1) => (Ok r, w1, [ev r]) end.

(** [if err != nil { return err }]. *)
Definition Mtry {W E A} (r : result A) : M W E A :=
  match r with Ok a => Mret a | Err e => Mfail e end.

Notation "'do' x <- m ; k" := (Mbind m (λ x, k))
  (at level 10, x name, m at level 100, k at level 200,
   format "'[v' 'do'  x  <-  m ; '/' k ']'").
Notation "'do' ' pat <- m ; k" := (Mbind m (λ x, match x with pat => k end))
  (at level 10, pat pattern, m at level 100, k at level 200,
   format "'[v' 'do'  ' pat  <-  m ; '/' k ']'").

Definition run_result {W E A} (x : result A * W * list E) : result A := x.1.1.
Definition run_world {W E A} (x : result A * W * list E) : W := x.1.2.
Definition run_trace {W E A} (x : result A * W * list E) : list E := x.2.

(** Every event of every run of [m] satisfies [P]. *)
Definition emits {W E A} (P : E → Prop) (m : M W E A) : Prop :=
  ∀ w, Forall P (run_trace (m w)).

(** ** Strings as Go sees them: sequences of bytes *)

Definition bytes (s : string) : list ascii := list_ascii_of_string s.

(** [strings.HasSuffix]. *)
Definition HasSuffix (s suffix : string) : bool :=
  bool_decide (drop (length (bytes s) - length (bytes suffix))%nat (bytes s)
               = bytes suffix).

(** [slices.IndexFunc]: the first index satisfying [f], or -1. *)
Fixpoint IndexFunc {A} (f : A → bool) (l : list A) : Z :=
  match l with
  | [] => -1
  | x :: l' => if f x then 0
               else let i := IndexFunc f l' in if i =? -1 then -1 else i + 1
  end.

(** [slices.ContainsFunc]. *)
Definition ContainsFunc {A} (f : A → bool) (l : list A) : bool :=
  negb (IndexFunc f l =? -1).

(** A pointer is nil. *)
Definition isNil {A} (p : option A) : bool :=
  match p with None => true | Some _ => false end.

(** [ptr.Deref]. *)
Definition Deref {A} (p : option A) (def : A) : A :=
  match p with Some a => a | None => def end.

(** ** Regular expressions (the fragment of RE2 syntax the source uses) *)

Inductive regexp : Type :=
| Epsilon
| Lit (c : ascii)
| Range (lo hi : ascii)
| Cat (a b : regexp)
| Alt (a b : regexp)
| Star (a : regexp)
| BeginText.

(** A position in the text: whether it is the beginning of the text, and
    what remains to be read. *)
Definition pos : Type := bool * list ascii.

Definition in_range (lo hi c : ascii) : bool :=
  (nat_of_ascii lo <=? nat_of_ascii c)%nat && (nat_of_ascii c <=? nat_of_ascii hi)%nat.

(** The meaning of a regular expression: [matches r p q] when [r] matches
    the text from position [p] up to position [q]. *)
Inductive matches : regexp → pos → pos → Prop :=
| matches_eps p : matches Epsilon p p
| matches_lit c b t : matches (Lit c) (b, c :: t) (false, t)
| matches_range lo hi c b t :
    in_range lo hi c = true → matches (Range lo hi) (b, c :: t) (false, t)
| matches_cat a b p q r :
    matches a p q → matches b q r → matches (Cat a b) p r
| matches_alt_l a b p q : matches a p q → matches (Alt a b) p q
| matches_alt_r a b p q : matches b p q → matches (Alt a b) p q
| matches_star_0 a p : matches (Star a) p p
| matches_star_S a p q r :
    matches a p q → matches (Star a) q r → matches (Star a) p r
| matches_begin t : matches BeginText (true, t) (true, t).

(** The matcher: all positions at which a match of [r] from [p] can end. *)
Fixpoint star_run (f : pos → list pos) (fuel : nat) (p : pos) : list pos :=
  p :: match fuel with
       | O => []
       | S n => flat_map (λ q, if (length q.2 <? length p.2)%nat
                               then star_run f n q else [])
                         (f p)
       end.

Fixpoint run (r : regexp) (p : pos) : list pos :=
  match r with
  | Epsilon => [p]
  | Lit c =>
      match p.2 with
      | a :: t => if Ascii.eqb a c then [(false, t)] else []
      | [] => []
      end
  | Range lo hi =>
      match p.2 with
      | a :: t => if in_range lo hi a then [(false, t)] else []
      | [] => []
      end
  | Cat a b => flat_map (run b) (run a p)
  | Alt a b => run a p ++ run b p
  | Star a => star_run (run a) (length p.2) p
  | BeginText => if p.1 then [p] else []
  end.

(** An unanchored search: a match may start at any position. *)
Fixpoint search (r : regexp) (atStart : bool) (s : list ascii) : bool :=
  match run r (atStart, s) with
  | _ :: _ => true
  | [] => match s with
          | [] => false
          | _ :: t => search r false t
          end
  end.

(** [Regexp.MatchString]. *)
Definition MatchString (r : regexp) (s : string) : bool :=
  search r true (bytes s).

(** A literal string as a regular expression. *)
Fixpoint lits (w : list ascii) : regexp :=
  match w with
  | [] => Epsilon
  | c :: w' => Cat (Lit c) (lits w')
  end.

(** [strings.Contains], as a property of the text. *)
Definition containsBytes (sub msg : list ascii) : Prop :=
  ∃ pre post, msg = pre ++ sub ++ post.

(** ** Objects shared by the two packages *)

(** [client.ObjectKey] (a namespaced name). *)
Record ObjectKey : Type := mkKey { Namespace : string; Name : string }.

Global Instance ObjectKey_eq_dec : EqDecision ObjectKey.
Proof. solve_decision. Defined.

Global Instance ObjectKey_countable : Countable ObjectKey.
Proof.
  refine (inj_countable' (λ k, (Namespace k, Name k)) (λ p, mkKey p.1 p.2) _).
  by intros [].
Defined.

(** [metav1.OwnerReference]. *)
Record OwnerReference : Type := mkOwner {
  or_APIVersion : string;
  or_Kind : string;
  or_Name : string;
  or_UID : string;
  or_Controller : option bool;
}.

Global Instance OwnerReference_eq_dec : EqDecision OwnerReference.
Proof. solve_decision. Defined.

(** [metav1.Preconditions] of a delete. *)
Record Preconditions : Type := mkPre {
  pre_UID : string;
  pre_ResourceVersion : nat;
}.

(** * Package pvcunbinder *)

Module pvcunbinder.

Local Open Scope string_scope.

(** [schedulingFailureRE]:
    [(^0/[1-9]\d* nodes are available)|(volume node affinity)]. *)
Definition schedulingFailureRE : regexp :=
  Alt (Cat BeginText
        (Cat (lits (bytes "0/"))
          (Cat (Range "1" "9")
            (Cat (Star (Range "0" "9"))
                 (lits (bytes " nodes are available"))))))
      (lits (bytes "volume node affinity")).

(** The two shapes of message the expression is written for: a text that
    begins with [0/N nodes are available], [N] a decimal number without a
    leading zero, and a text that mentions [volume node affinity]. *)
Definition nodesUnavailable (msg : list ascii) : Prop :=
  ∃ d ds rest,
    msg = (bytes "0/" ++ d :: ds ++ bytes " nodes are available" ++ rest)%list
    ∧ in_range "1" "9" d = true
    ∧ Forall (λ c, in_range "0" "9" c = true) ds.

Definition mentionsAffinity (msg : list ascii) : Prop :=
  containsBytes (bytes "volume node affinity") msg.

(** *** Objects *)

Record PodCondition : Type := mkCond {
  cond_Type : string;
  cond_Status : string;
  cond_Reason : string;
  cond_Message : string;
  cond_LastTransitionTime : Z;
}.

Record Volume : Type := mkVolume {
  vol_Name : string;
  (** [.PersistentVolumeClaim], and its [.ClaimName] when it is not nil *)
  vol_PersistentVolumeClaim : option string;
}.

Record Pod : Type := mkPod {
  pod_Name : string;
  pod_Namespace : string;
  pod_UID : string;
  pod_ResourceVersion : nat;
  pod_Labels : gmap string string;
  pod_OwnerReferences : list OwnerReference;
  pod_Volumes : list Volume;
  pod_Phase : string;
  pod_Conditions : list PodCondition;
}.

Record PersistentVolumeClaim : Type := mkPVC {
  pvc_Name : string;
  pvc_Namespace : string;
  pvc_UID : string;
  pvc_ResourceVersion : nat;
  pvc_VolumeName : string;
}.

Record PersistentVolume : Type := mkPV {
  pv_Name : string;
  pv_ResourceVersion : nat;
  pv_ReclaimPolicy : string;
  pv_ClaimRef : option ObjectKey;
  (** [.Spec.NodeAffinity], [.Spec.HostPath], [.Spec.Local]: pointers, of
      which the code only asks whether they are nil *)
  pv_NodeAffinity : option string;
  pv_HostPath : option string;
  pv_Local : option string;
}.

Global Instance PodCondition_eq_dec : EqDecision PodCondition.
Proof. solve_decision. Defined.
Global Instance Volume_eq_dec : EqDecision Volume.
Proof. solve_decision. Defined.
Global Instance Pod_eq_dec : EqDecision Pod.
Proof. solve_decision. Defined.
Global Instance PersistentVolumeClaim_eq_dec : EqDecision PersistentVolumeClaim.
Proof. solve_decision. Defined.
Global Instance PersistentVolume_eq_dec : EqDecision PersistentVolume.
Proof. solve_decision. Defined.

Definition PodScheduled : string := "PodScheduled".
Definition ConditionFalse : string := "False".
Definition PodPending : string := "Pending".
Definition PersistentVolumeReclaimRetain : string := "Retain".

Definition pod_key (pod : Pod) : ObjectKey := mkKey (pod_Namespace pod) (pod_Name pod).
Definition pvc_key (pvc : PersistentVolumeClaim) : ObjectKey :=
  mkKey (pvc_Namespace pvc) (pvc_Name pvc).

(** [ctrl.Result]. *)
Record Result : Type := mkResult { Requeue : bool; RequeueAfter : Z }.

Definition emptyResult : Result := mkResult false 0.

(** [Controller] (its [Client] is the type class below).  [Selector] and
    [Filter] may be nil. *)
Record Controller : Type := mkController {
  Timeout : Z;
  Selector : option (gmap string string → bool);
  Filter : option (Pod → result bool);
  AllowRebinding : bool;
}.

(** *** Eligibility *)

Definition pvcUnbinderPredicate (pod : Pod) : bool :=
  let stsManaged :=
    ContainsFunc (λ ref, String.eqb (or_APIVersion ref) "apps/v1"
                         && String.eqb (or_Kind ref) "StatefulSet"
                         && Deref (or_Controller ref) false)
                 (pod_OwnerReferences pod) in
  let isPending := String.eqb (pod_Phase pod) PodPending in
  stsManaged && isPending.

Definition isUnschedulable (cond : PodCondition) : bool :=
  String.eqb (cond_Type cond) PodScheduled
  && String.eqb (cond_Status cond) ConditionFalse
  && String.eqb (cond_Reason cond) "Unschedulable".

Definition ShouldRemediate (r : Controller) (now : Z) (pod : Pod) : bool * Z :=
  if match Selector r with
     | Some sel => negb (sel (pod_Labels pod))
     | None => false
     end
  then (false, 0)
  else
    match match Filter r with
          | Some filter => filter pod
          | None => Ok true
          end with
    | Err _ => (false, 0)
    | Ok false => (false, 0)
    | Ok true =>
        let idx := IndexFunc isUnschedulable (pod_Conditions pod) in
        if (idx =? -1)%Z || negb (pvcUnbinderPredicate pod) then (false, 0)
        else
          match pod_Conditions pod !! Z.to_nat idx with
          | None => (false, 0)
          | Some cond =>
              if negb (MatchString schedulingFailureRE (cond_Message cond))
              then (false, 0)
              else
                let delta :=
                  wrap64 (Timeout r - Since now (cond_LastTransitionTime cond)) in
                if (0 <? delta)%Z then (true, delta) else (true, 0)
          end
    end.

(** [StsPVCs]: the keys of the claims of the Pod whose name ends with the
    Pod's name. *)
Fixpoint StsPVCs_from (pod : Pod) (vols : list Volume) : list ObjectKey :=
  match vols with
  | [] => []
  | vol :: rest =>
      match vol_PersistentVolumeClaim vol with
      | None => StsPVCs_from pod rest
      | Some claimName =>
          if negb (HasSuffix claimName (pod_Name pod)) then StsPVCs_from pod rest
          else mkKey (pod_Namespace pod) claimName :: StsPVCs_from pod rest
      end
  end.

Definition StsPVCs (pod : Pod) : list ObjectKey :=
  StsPVCs_from pod (pod_Volumes pod).

(** *** The store, as the controller uses it *)

(** What a patch of a Volume carries: the resource version to match when the
    patch holds an optimistic lock, and the fields that differ from the copy
    the patch was computed from. *)
Record PVPatch : Type := mkPatch {
  patch_ResourceVersion : option nat;
  patch_ReclaimPolicy : option string;
  patch_ClearClaimRef : bool;
}.

(** [client.Client], restricted to the calls of this controller.  A write
    that succeeds on a Volume answers with the Volume as stored. *)
Class Client (W : Type) : Type := {
  GetPod : ObjectKey → W → result Pod * W;
  GetPVC : ObjectKey → W → result PersistentVolumeClaim * W;
  ListPV : W → result (list PersistentVolume) * W;
  PatchPV : PersistentVolume → PVPatch → W → result PersistentVolume * W;
  DeletePVC : PersistentVolumeClaim → Preconditions → W → result unit * W;
  DeletePod : Pod → Preconditions → W → result unit * W;
  (** a Get answers with the object of the name it was asked for *)
  GetPVC_key : ∀ key w pvc w',
    GetPVC key w = (Ok pvc, w') →
    mkKey (pvc_Namespace pvc) (pvc_Name pvc) = key;
}.

(** Go ranges over a map in an unspecified order: any enumeration of the
    entries. *)
Class MapOrder : Type := {
  mapRange : gmap ObjectKey (option PersistentVolumeClaim) →
             list (ObjectKey * option PersistentVolumeClaim);
  mapRange_perm : ∀ m, mapRange m ≡ₚ map_to_list m;
}.

(** What a pass does, in order: the calls to the store with their outcome,
    and the observation that a Volume already has the Retain policy (for
    which [ensureRetainPolicy] makes no call). *)
Inductive Event : Type :=
| EvGetPod (key : ObjectKey) (r : result Pod)
| EvGetPVC (key : ObjectKey) (r : result PersistentVolumeClaim)
| EvListPV (r : result (list PersistentVolume))
| EvRetainObserved (pv : PersistentVolume)
| EvPatchPV (pv : PersistentVolume) (patch : PVPatch) (r : result PersistentVolume)
| EvDeletePVC (pvc : PersistentVolumeClaim) (pre : Preconditions) (r : result unit)
| EvDeletePod (pod : Pod) (pre : Preconditions) (r : result unit).

Definition set_ReclaimPolicy (p : string) (pv : PersistentVolume) : PersistentVolume :=
  mkPV (pv_Name pv) (pv_ResourceVersion pv) p (pv_ClaimRef pv)
       (pv_NodeAffinity pv) (pv_HostPath pv) (pv_Local pv).

Definition set_ClaimRef (c : option ObjectKey) (pv : PersistentVolume) : PersistentVolume :=
  mkPV (pv_Name pv) (pv_ResourceVersion pv) (pv_ReclaimPolicy pv) c
       (pv_NodeAffinity pv) (pv_HostPath pv) (pv_Local pv).

Section controller.
Context {W : Type} {client : Client W} {order : MapOrder}.

Local Abbreviation Act := (M W Event).

(** [for _, x := range l { if err := f(x); err != nil { return err } }],
    [f] updating [x] in place. *)
Fixpoint forEach {A} (f : A → Act A) (l : list A) : Act (list A) :=
  match l with
  | [] => Mret []
  | x :: rest =>
      do y <- f x;
      do ys <- forEach f rest;
      Mret (y :: ys)
  end.

Definition ensureRetainPolicy (pv : PersistentVolume) : Act PersistentVolume :=
  if String.eqb (pv_ReclaimPolicy pv) PersistentVolumeReclaimRetain then
    do _ <- Mtell (EvRetainObserved pv);
    Mret pv
  else
    let patch := mkPatch (Some (pv_ResourceVersion pv))
                         (Some PersistentVolumeReclaimRetain) false in
    let pv' := set_ReclaimPolicy PersistentVolumeReclaimRetain pv in
    do r <- Mcall (PatchPV pv' patch) (EvPatchPV pv' patch);
    Mtry r.

Definition maybeRecyclePersistentVolume (r : Controller) (pv : PersistentVolume)
  : Act PersistentVolume :=
  if isNil (pv_HostPath pv) && isNil (pv_Local pv) then
    Mfail (ErrOther "must specify .Spec.HostPath or .Spec.Local for recycling")
  else if negb (AllowRebinding r) then Mret pv
  else if isNil (pv_ClaimRef pv) then Mret pv
  else
    let patch := mkPatch None None true in
    let pv' := set_ClaimRef None pv in
    do r <- Mcall (PatchPV pv' patch) (EvPatchPV pv' patch);
    Mtry r.

(** The first loop of [Reconcile]: fetch every candidate claim; a claim
    that is not found is recorded as nil. *)
Fixpoint fetchPVCs (keys : list ObjectKey)
    (pvcByKey : gmap ObjectKey (option PersistentVolumeClaim))
  : Act (gmap ObjectKey (option PersistentVolumeClaim)) :=
  match keys with
  | [] => Mret pvcByKey
  | pvcKey :: rest =>
      do got <- Mcall (GetPVC pvcKey) (EvGetPVC pvcKey);
      match got with
      | Err e =>
          if negb (IsNotFound e) then Mfail e
          else fetchPVCs rest (<[pvcKey := None]> pvcByKey)
      | Ok pvc => fetchPVCs rest (<[pvcKey := Some pvc]> pvcByKey)
      end
  end.

(** Step 1: keep the Volumes bound to a candidate claim that have a node
    affinity and are HostPath or Local; a candidate claim bound to another
    kind of Volume is removed from the map. *)
Fixpoint filterPVs (items : list PersistentVolume)
    (pvcByKey : gmap ObjectKey (option PersistentVolumeClaim))
  : list PersistentVolume * gmap ObjectKey (option PersistentVolumeClaim) :=
  match items with
  | [] => ([], pvcByKey)
  | pv :: rest =>
      match pv_ClaimRef pv with
      | None => filterPVs rest pvcByKey
      | Some key =>
          match pvcByKey !! key with
          | None => filterPVs rest pvcByKey
          | Some _ =>
              if isNil (pv_NodeAffinity pv)
                 || (isNil (pv_HostPath pv) && isNil (pv_Local pv))
              then filterPVs rest (delete key pvcByKey)
              else
                let '(pvs, m) := filterPVs rest pvcByKey in
                (pv :: pvs, m)
          end
      end
  end.

(** Step 3: delete every bound claim, and record it as nil. *)
Fixpoint deleteBoundPVCs
    (entries : list (ObjectKey * option PersistentVolumeClaim))
    (pvcByKey : gmap ObjectKey (option PersistentVolumeClaim))
  : Act (gmap ObjectKey (option PersistentVolumeClaim)) :=
  match entries with
  | [] => Mret pvcByKey
  | (key, None) :: rest => deleteBoundPVCs rest pvcByKey
  | (key, Some pvc) :: rest =>
      if String.eqb (pvc_VolumeName pvc) "" then deleteBoundPVCs rest pvcByKey
      else
        let pre := mkPre (pvc_UID pvc) (pvc_ResourceVersion pvc) in
        do d <- Mcall (DeletePVC pvc pre) (EvDeletePVC pvc pre);
        do _ <- Mtry d;
        deleteBoundPVCs rest (<[key := None]> pvcByKey)
  end.

Definition missingPVCs
    (pvcByKey : gmap ObjectKey (option PersistentVolumeClaim)) : bool :=
  existsb (λ kv, isNil kv.2) (mapRange pvcByKey).

(** The mutation sequence of [Reconcile], from the Pod it fetched. *)
Definition remediate (r : Controller) (pod : Pod) : Act Result :=
  do pvcByKey <- fetchPVCs (StsPVCs pod) ∅;
  if (size pvcByKey =? 0)%nat then Mret emptyResult
  else
    do listed <- Mcall ListPV EvListPV;
    do pvList <- Mtry listed;
    let '(pvs, pvcByKey) := filterPVs pvList pvcByKey in
    do pvs <- forEach ensureRetainPolicy pvs;
    do pvcByKey <- deleteBoundPVCs (mapRange pvcByKey) pvcByKey;
    do pvs <- forEach (maybeRecyclePersistentVolume r) pvs;
    if negb (missingPVCs pvcByKey) then Mret emptyResult
    else
      let pre := mkPre (pod_UID pod) (pod_ResourceVersion pod) in
      do d <- Mcall (DeletePod pod pre) (EvDeletePod pod pre);
      do _ <- Mtry d;
      Mret emptyResult.

Definition Reconcile (r : Controller) (now : Z) (req : ObjectKey) : Act Result :=
  do got <- Mcall (GetPod req) (EvGetPod req);
  match got with
  | Err e => if IsNotFound e then Mret emptyResult else Mfail e
  | Ok pod =>
      let '(ok, requeueAfter) := ShouldRemediate r now pod in
      if negb ok || (0 <? requeueAfter)%Z
      then Mret (mkResult ok requeueAfter)
      else remediate r pod
  end.

End controller.

(** *** An in-memory store

    Objects are kept under their key; the name an object carries when it is
    read is that key.  A write with a resource version or a precondition
    that does not match what is stored is refused; a write that goes through
    gives the Volume a new resource version. *)

Record Store : Type := mkStore {
  pods : gmap ObjectKey Pod;
  pvcs : gmap ObjectKey PersistentVolumeClaim;
  pvs : gmap string PersistentVolume;
}.

Definition pod_at (k : ObjectKey) (p : Pod) : Pod :=
  mkPod (Name k) (Namespace k) (pod_UID p) (pod_ResourceVersion p) (pod_Labels p)
        (pod_OwnerReferences p) (pod_Volumes p) (pod_Phase p) (pod_Conditions p).

Definition pvc_at (k : ObjectKey) (c : PersistentVolumeClaim) : PersistentVolumeClaim :=
  mkPVC (Name k) (Namespace k) (pvc_UID c) (pvc_ResourceVersion c) (pvc_VolumeName c).

Definition pv_at (n : string) (pv : PersistentVolume) : PersistentVolume :=
  mkPV n (pv_ResourceVersion pv) (pv_ReclaimPolicy pv) (pv_ClaimRef pv)
       (pv_NodeAffinity pv) (pv_HostPath pv) (pv_Local pv).

Definition storeGetPod (k : ObjectKey) (s : Store) : result Pod * Store :=
  match pods s !! k with
  | Some p => (Ok (pod_at k p), s)
  | None => (Err ErrNotFound, s)
  end.

Definition storeGetPVC (k : ObjectKey) (s : Store)
  : result PersistentVolumeClaim * Store :=
  match pvcs s !! k with
  | Some c => (Ok (pvc_at k c), s)
  | None => (Err ErrNotFound, s)
  end.

Definition storeListPV (s : Store) : result (list PersistentVolume) * Store :=
  (Ok ((λ kv, pv_at kv.1 kv.2) <$> map_to_list (pvs s)), s).

Definition apply_patch (patch : PVPatch) (cur : PersistentVolume) : PersistentVolume :=
  mkPV (pv_Name cur) (S (pv_ResourceVersion cur))
       (match patch_ReclaimPolicy patch with
        | Some p => p
        | None => pv_ReclaimPolicy cur
        end)
       (if patch_ClearClaimRef patch then None else pv_ClaimRef cur)
       (pv_NodeAffinity cur) (pv_HostPath cur) (pv_Local cur).

Definition storePatchPV (pv : PersistentVolume) (patch : PVPatch) (s : Store)
  : result PersistentVolume * Store :=
  match pvs s !! pv_Name pv with
  | None => (Err ErrNotFound, s)
  | Some cur =>
      if match patch_ResourceVersion patch with
         | Some rv => negb (rv =? pv_ResourceVersion cur)%nat
         | None => false
         end
      then (Err ErrConflict, s)
      else
        let new := apply_patch patch cur in
        (Ok (pv_at (pv_Name pv) new),
         mkStore (pods s) (pvcs s) (<[pv_Name pv := new]> (pvs s)))
  end.

Definition storeDeletePVC (pvc : PersistentVolumeClaim) (pre : Preconditions)
    (s : Store) : result unit * Store :=
  match pvcs s !! pvc_key pvc with
  | None => (Err ErrNotFound, s)
  | Some cur =>
      if String.eqb (pre_UID pre) (pvc_UID cur)
         && (pre_ResourceVersion pre =? pvc_ResourceVersion cur)%nat
      then (Ok tt, mkStore (pods s) (delete (pvc_key pvc) (pvcs s)) (pvs s))
      else (Err ErrConflict, s)
  end.

Definition storeDeletePod (pod : Pod) (pre : Preconditions) (s : Store)
  : result unit * Store :=
  match pods s !! pod_key pod with
  | None => (Err ErrNotFound, s)
  | Some cur =>
      if String.eqb (pre_UID pre) (pod_UID cur)
         && (pre_ResourceVersion pre =? pod_ResourceVersion cur)%nat
      then (Ok tt, mkStore (delete (pod_key pod) (pods s)) (pvcs s) (pvs s))
      else (Err ErrConflict, s)
  end.

Global Instance storeClient : Client Store.
Proof.
  refine {| GetPod := storeGetPod;
            GetPVC := storeGetPVC;
            ListPV := storeListPV;
            PatchPV := storePatchPV;
            DeletePVC := storeDeletePVC;
            DeletePod := storeDeletePod;
            GetPVC_key := _ |}.
  intros key w pvc w'. unfold storeGetPVC.
  destruct (pvcs w !! key); intros [= <- _]; by destruct key.
Defined.

(** What [ensureRetainPolicy] and [maybeRecyclePersistentVolume] do to a
    Volume of this store. *)
Definition retained (pv : PersistentVolume) : PersistentVolume :=
  if String.eqb (pv_ReclaimPolicy pv) PersistentVolumeReclaimRetain then pv
  else apply_patch (mkPatch (Some (pv_ResourceVersion pv))
                            (Some PersistentVolumeReclaimRetain) false) pv.

Definition recycled (r : Controller) (pv : PersistentVolume) : PersistentVolume :=
  if negb (AllowRebinding r) then pv
  else if isNil (pv_ClaimRef pv) then pv
  else apply_patch (mkPatch None None true) pv.

Definition set_pvs (m : gmap string PersistentVolume) (s : Store) : Store :=
  mkStore (pods s) (pvcs s) m.

(** A Volume held by the controller is the one the store holds. *)
Definition inSync (s : Store) (pv : PersistentVolume) : Prop :=
  ∃ cur, pvs s !! pv_Name pv = Some cur ∧ pv = pv_at (pv_Name pv) cur.

(** A Volume on which neither [ensureRetainPolicy] nor
    [maybeRecyclePersistentVolume] has anything left to do. *)
Definition settled (r : Controller) (pv : PersistentVolume) : Prop :=
  pv_ReclaimPolicy pv = PersistentVolumeReclaimRetain
  ∧ AllowRebinding r = false
  ∧ isNil (pv_HostPath pv) && isNil (pv_Local pv) = false.

(** The enumeration of a map that the library computes is one possible order
    of a Go range. *)
Definition listOrder : MapOrder := {|
  mapRange := map_to_list;
  mapRange_perm := λ m, reflexivity (map_to_list m);
|}.

(** *** The scenario of the specification

    Pod [db-2] of StatefulSet [db], Pending, unschedulable since instant
    [since]; claim [data-db-2] bound to Volume [pv-x] (HostPath, node
    affinity, reclaim policy Delete); Timeout of 15 minutes. *)

Definition ex_owner : OwnerReference :=
  mkOwner "apps/v1" "StatefulSet" "db" "uid-db" (Some true).

Definition ex_message : string :=
  "0/3 nodes are available: 3 node(s) had volume node affinity conflict".

Definition ex_cond (since : Z) : PodCondition :=
  mkCond PodScheduled ConditionFalse "Unschedulable" ex_message since.

Definition ex_pod (since : Z) : Pod :=
  mkPod "db-2" "default" "uid-pod" 7 ∅ [ex_owner]
        [mkVolume "data" (Some "data-db-2")] PodPending [ex_cond since].

Definition ex_key : ObjectKey := mkKey "default" "db-2".
Definition ex_pvc_key : ObjectKey := mkKey "default" "data-db-2".

Definition ex_pvc : PersistentVolumeClaim :=
  mkPVC "data-db-2" "default" "uid-pvc" 3 "pv-x".

Definition ex_pv : PersistentVolume :=
  mkPV "pv-x" 5 "Delete" (Some ex_pvc_key) (Some "node-1") (Some "/data") None.

Definition ex_controller : Controller := mkController (15 * Minute) None None false.

Definition ex_store : Store :=
  mkStore {[ ex_key := ex_pod 0 ]} {[ ex_pvc_key := ex_pvc ]} {[ "pv-x" := ex_pv ]}.


(** The same Pod, when its claim is already gone. *)
Definition ex_store_no_pvc : Store :=
  mkStore {[ ex_key := ex_pod 0 ]} ∅ ∅.

(** A Pod whose scheduling failure is about something else. *)
Definition ex_pod_quota : Pod :=
  mkPod "db-2" "default" "uid-pod" 7 ∅ [ex_owner]
        [mkVolume "data" (Some "data-db-2")] PodPending
        [mkCond PodScheduled ConditionFalse "Unschedulable"
                "pod exceeds the quota of the namespace" 0].

(** *** Properties of the record of a pass *)

(** The Pod's Unschedulable condition: the first one that the code finds. *)
Definition unschedulableCondition (pod : Pod) : option PodCondition :=
  find isUnschedulable (pod_Conditions pod).

(** The event by which [ensureRetainPolicy] leaves [pv] with the Retain
    policy: it saw the policy, or its patch went through. *)
Definition ensuredRetain (pv : PersistentVolume) (ev : Event) : Prop :=
  ev = EvRetainObserved pv
  ∨ ∃ stored,
      ev = EvPatchPV (set_ReclaimPolicy PersistentVolumeReclaimRetain pv)
                     (mkPatch (Some (pv_ResourceVersion pv))
                              (Some PersistentVolumeReclaimRetain) false)
                     (Ok stored).



Definition isGetPVC (ev : Event) : Prop :=
  match ev with EvGetPVC _ _ => True | _ => False end.

Definition isRetainStep (ev : Event) : Prop :=
  match ev with EvRetainObserved _ | EvPatchPV _ _ _ => True | _ => False end.

Definition isPatch (ev : Event) : Prop :=
  match ev with EvPatchPV _ _ _ => True | _ => False end.


(** What the fetch loop leaves in the map: what was there, or what a Get
    answered for that key. *)
Definition fetched (tr : list Event) (key : ObjectKey)
    (v : option PersistentVolumeClaim) : Prop :=
  match v with
  | None => EvGetPVC key (Err ErrNotFound) ∈ tr
  | Some pvc => pvc_key pvc = key
  end.

Definition podDeleteIssued (tr : list Event) : Prop :=
  ∃ pod pre res, EvDeletePod pod pre res ∈ tr.

Definition pvcDeleted (tr : list Event) : Prop :=
  ∃ pvc pre, EvDeletePVC pvc pre (Ok tt) ∈ tr.

Definition pvcFoundMissing (tr : list Event) : Prop :=
  ∃ key, EvGetPVC key (Err ErrNotFound) ∈ tr.

(** *** The owner filter *)

Definition k8sInstanceLabelKey : string := "app.kubernetes.io/instance".

(** [filterOwner], on the namespace and the labels of the object.  A nil map
    of labels is [None]; a key that a map does not hold reads as the empty
    string. *)
Definition filterOwner (ownerNamespace ownerName : string)
    (namespace : string) (labels : option (gmap string string)) : bool :=
  if String.eqb namespace ownerNamespace
     && negb (isNil labels)
     && String.eqb (default "" (labels ≫= (λ m, m !! k8sInstanceLabelKey)))
                   ownerName
  then true
  else false.

(** *** More properties of a Pod and of the record of a pass *)

(** The Pod has a controller reference to a StatefulSet. *)
Definition stsManaged (pod : Pod) : Prop :=
  ∃ ref, ref ∈ pod_OwnerReferences pod
         ∧ or_APIVersion ref = "apps/v1"
         ∧ or_Kind ref = "StatefulSet"
         ∧ or_Controller ref = Some true.

(** The selector and the filter of the controller, where set, accept the
    Pod. *)
Definition passesFilters (r : Controller) (pod : Pod) : Prop :=
  match Selector r with
  | Some sel => sel (pod_Labels pod) = true
  | None => True
  end
  ∧ match Filter r with
    | Some filter => filter pod = Ok true
    | None => True
    end.

(** The error with which a call to the store failed.  A Get that found
    nothing is no failure. *)
Definition failure (ev : Event) : option error :=
  match ev with
  | EvGetPod _ (Err e) | EvGetPVC _ (Err e) =>
      if IsNotFound e then None else Some e
  | EvListPV (Err e) | EvPatchPV _ _ (Err e)
  | EvDeletePVC _ _ (Err e) | EvDeletePod _ _ (Err e) => Some e
  | _ => None
  end.

(** The error of [maybeRecyclePersistentVolume] on a Volume that is neither
    HostPath nor Local. *)
Definition errRecycle : error :=
  ErrOther "must specify .Spec.HostPath or .Spec.Local for recycling".

(** A Volume that the filter of step 1 keeps, when it is bound to a
    candidate. *)
Definition nodeBound (pv : PersistentVolume) : Prop :=
  pv_NodeAffinity pv ≠ None ∧ (pv_HostPath pv ≠ None ∨ pv_Local pv ≠ None).

(** The patch of [ensureRetainPolicy] on [pv]. *)
Definition retainPatch (pv : PersistentVolume) : PVPatch :=
  mkPatch (Some (pv_ResourceVersion pv)) (Some PersistentVolumeReclaimRetain) false.

(** The patch of [maybeRecyclePersistentVolume]. *)
Definition unbindPatch : PVPatch := mkPatch None None true.

(** A pass ends at the first call that fails: a record without a failure,
    or one whose last event is the failure that the pass returns.  The one
    error that comes from no call is that of
    [maybeRecyclePersistentVolume]. *)
Definition endsAtFailure {A} (res : result A) (tr : list Event) : Prop :=
  match res with
  | Ok _ => Forall (λ ev, failure ev = None) tr
  | Err e =>
      (Forall (λ ev, failure ev = None) tr ∧ e = errRecycle)
      ∨ ∃ t ev, tr = (t ++ [ev])%list
                ∧ Forall (λ ev, failure ev = None) t
                ∧ failure ev = Some e
  end.

(** What a pass may patch: the reclaim policy, to Retain, under the resource
    version of the Volume, for a node-bound Volume that is bound to a claim;
    or, when rebinding is allowed, the claim reference of a HostPath or
    Local Volume, which it clears without a lock. *)
Definition patchAllowed (r : Controller) (ev : Event) : Prop :=
  match ev with
  | EvPatchPV pv patch _ =>
      (patch = retainPatch pv
       ∧ pv_ReclaimPolicy pv = PersistentVolumeReclaimRetain
       ∧ nodeBound pv
       ∧ pv_ClaimRef pv ≠ None)
      ∨ (AllowRebinding r = true
         ∧ patch = unbindPatch
         ∧ pv_ClaimRef pv = None
         ∧ (pv_HostPath pv ≠ None ∨ pv_Local pv ≠ None))
  | _ => True
  end.

(** A store that holds the Pod and the claim of the scenario and cannot
    list Volumes. *)
Definition blindClient : Client unit.
Proof.
  refine {| GetPod key w := (Ok (pod_at key (ex_pod 0)), w);
            GetPVC key w := (Ok (pvc_at key ex_pvc), w);
            ListPV w := (Err (ErrOther "the server is unavailable"), w);
            PatchPV pv patch w := (Err ErrNotFound, w);
            DeletePVC pvc pre w := (Err ErrNotFound, w);
            DeletePod pod pre w := (Err ErrNotFound, w);
            GetPVC_key := _ |}.
  intros key w pvc w' [= <- _]. by destruct key.
Defined.

End pvcunbinder.

(** * Package redpanda *)

Module redpanda.

Local Open Scope string_scope.

Definition FinalizerKey : string := "operator.redpanda.com/finalizer".
Definition NotManaged : string := "false".
Definition resourceTypeHelmRepository : string := "HelmRepository".
Definition resourceTypeHelmRelease : string := "HelmRelease".
Definition managedPath : string := "/managed".

(** [meta.ReadyCondition] and [helmv2beta2.RemediatedCondition]. *)
Definition ReadyCondition : string := "Ready".
Definition RemediatedCondition : string := "Remediated".
Definition ConditionTrue : string := "True".
Definition ConditionFalse : string := "False".

(** *** Objects *)

Record GroupVersionKind : Type := mkGVK {
  Group : string;
  Version : string;
  Kind : string;
}.

Global Instance GroupVersionKind_eq_dec : EqDecision GroupVersionKind.
Proof. solve_decision. Defined.

Global Instance GroupVersionKind_countable : Countable GroupVersionKind.
Proof.
  refine (inj_countable' (λ g, (Group g, Version g, Kind g))
                         (λ t, mkGVK t.1.1 t.1.2 t.2) _).
  by intros [].
Defined.

Record gvkKey : Type := mkGvkKey {
  GVK : GroupVersionKind;
  Key : ObjectKey;
}.

Global Instance gvkKey_eq_dec : EqDecision gvkKey.
Proof. solve_decision. Defined.

Global Instance gvkKey_countable : Countable gvkKey.
Proof.
  refine (inj_countable' (λ k, (GVK k, Key k)) (λ p, mkGvkKey p.1 p.2) _).
  by intros [].
Defined.

(** [metav1.Condition]. *)
Record Condition : Type := mkCondition {
  c_Type : string;
  c_Status : string;
  c_Reason : string;
  c_Message : string;
}.

(** [v1alpha2.RedpandaStatus]. *)
Record RedpandaStatus : Type := mkStatus {
  st_ObservedGeneration : Z;
  st_HelmRelease : string;
  st_HelmReleaseReady : option bool;
  st_HelmRepository : string;
  st_HelmRepositoryReady : option bool;
  st_Conditions : list Condition;
}.

(** [v1alpha2.Redpanda]; of its spec, the chart reference and the values. *)
Record Redpanda : Type := mkRedpanda {
  rp_Name : string;
  rp_Namespace : string;
  rp_UID : string;
  rp_Generation : Z;
  rp_DeletionTimestamp : option Z;
  rp_Annotations : gmap string string;
  rp_Finalizers : list string;
  rp_UseFlux : option bool;
  rp_ChartVersion : string;
  rp_ClusterSpec : string;
  rp_Status : RedpandaStatus;
}.

(** [kube.Object]: an object rendered by the chart, or a live one.
    [obj_GoType] is its Go type, [obj_GVK] what its TypeMeta says. *)
Record Object : Type := mkObject {
  obj_GoType : string;
  obj_GVK : GroupVersionKind;
  obj_Namespace : string;
  obj_Name : string;
  obj_Labels : gmap string string;
  obj_Annotations : gmap string string;
  obj_OwnerReferences : list OwnerReference;
  obj_ManagedFields : list string;
}.

(** [appsv1.StatefulSet] and [appsv1.Deployment]: replica counts are int32,
    [.Spec.Replicas] is a pointer. *)
Record Workload : Type := mkWorkload {
  wl_Namespace : string;
  wl_Name : string;
  wl_Replicas : option Z;
  wl_UpdatedReplicas : Z;
  wl_AvailableReplicas : Z;
  wl_ReadyReplicas : Z;
}.

(** [HelmRepository] and [HelmRelease] of flux, as far as the code reads
    them. *)
Record HelmObject : Type := mkHelm {
  helm_Name : string;
  helm_Namespace : string;
  helm_OwnerReferences : list OwnerReference;
  helm_Suspend : bool;
  helm_ChartVersion : string;
  helm_Values : string;
  helm_Generation : Z;
  helm_ObservedGeneration : Z;
  helm_Conditions : list Condition;
}.

(** The answer of the admin API to a health query. *)
Record ClusterHealthOverview : Type := mkHealth {
  AllNodes : list Z;
}.

Record Result : Type := mkResult { Requeue : bool; RequeueAfter : Z }.
Definition emptyResult : Result := mkResult false 0.

Definition ObjectKeyFromObject (obj : Object) : ObjectKey :=
  mkKey (obj_Namespace obj) (obj_Name obj).

(** *** What the reconciler is given

    The chart, the scheme of the client and the methods of the API types are
    not part of the sources at hand; they are taken as given. *)
Class Env : Type := {
  (** [resources.ManagedDecommissionAnnotation] *)
  ManagedDecommissionAnnotation : string;
  (** [v1alpha2.GroupVersion.Group] *)
  GroupVersion_Group : string;
  (** [redpanda.Chart.Metadata().Version], the pinned chart version *)
  pinnedChartVersion : string;
  (** [redpanda.Chart.Render]: namespace, release name, values *)
  Render : string → string → string → result (list Object);
  (** [redpanda.Types()], by Go type *)
  Types : list string;
  (** [Client.GroupVersionKindFor], by Go type *)
  GroupVersionKindFor : string → result GroupVersionKind;
  (** [Client.Scheme().New]: whether the scheme knows the kind *)
  SchemeNew : GroupVersionKind → result GroupVersionKind;
  (** methods of [v1alpha2.Redpanda] *)
  GetHelmReleaseName : Redpanda → string;
  GetHelmRepositoryName : Redpanda → string;
  OwnerShipRefObj : Redpanda → OwnerReference;
  ValuesJSON : Redpanda → result string;
  (** [fmt]'s verbs %q and %d, and [sort.StringSlice.Sort] *)
  quote : string → string;
  itoa : Z → string;
  sortStrings : list string → list string;
}.

(** [client.Client] and the admin client factory, restricted to the calls
    of this reconciler.  A write on the cluster, on a flux object or on a
    rendered object answers with the object as the server returned it:
    [Client.Update] and [Client.Patch] write it into the object they were
    given, and the code reads that object afterwards.  Of the answer to the
    apply of a rendered object it reads the name, the namespace and the
    kind, under which it records the object as expected. *)
Class Client (W : Type) : Type := {
  GetRedpanda : ObjectKey → W → result Redpanda * W;
  UpdateRedpanda : Redpanda → W → result Redpanda * W;
  PatchRedpanda : Redpanda → W → result Redpanda * W;
  PatchStatus : Redpanda → Redpanda → W → result Redpanda * W;
  ApplyObject : Object → W → result Object * W;
  ApplyHelm : string → HelmObject → W → result HelmObject * W;
  GetHelmRelease : ObjectKey → W → result HelmObject * W;
  DeleteHelmRelease : HelmObject → W → result unit * W;
  ListObjects : GroupVersionKind → string → gmap string string → W →
                result (list Object) * W;
  DeleteObject : Object → W → result unit * W;
  redpandaStatefulSetsForCluster : Redpanda → W → result (list Workload) * W;
  consoleDeploymentsForCluster : Redpanda → W → result (list Workload) * W;
  RedpandaAdminClient : Redpanda → W → result unit * W;
  GetHealthOverview : W → result ClusterHealthOverview * W;
}.

(** What a pass does, in order. *)
Inductive Event : Type :=
| EvGet (key : ObjectKey) (r : result Redpanda)
| EvUpdate (rp : Redpanda) (r : result Redpanda)
| EvPatch (rp : Redpanda) (r : result Redpanda)
| EvStatusPatch (rp latest : Redpanda) (r : result Redpanda)
| EvApply (obj : Object) (r : result Object)
| EvApplyHelm (kind : string) (h : HelmObject) (r : result HelmObject)
| EvGetHelmRelease (key : ObjectKey) (r : result HelmObject)
| EvDeleteHelmRelease (h : HelmObject) (r : result unit)
| EvList (typ : GroupVersionKind) (ns : string) (labels : gmap string string)
         (r : result (list Object))
| EvDelete (obj : Object) (r : result unit)
| EvStatefulSets (r : result (list Workload))
| EvDeployments (r : result (list Workload))
| EvAdminClient (r : result unit)
| EvHealth (r : result ClusterHealthOverview)
| EvWarning (rp : Redpanda) (msg : string).

(** *** Setters *)

Definition set_Status (st : RedpandaStatus) (rp : Redpanda) : Redpanda :=
  mkRedpanda (rp_Name rp) (rp_Namespace rp) (rp_UID rp) (rp_Generation rp)
             (rp_DeletionTimestamp rp) (rp_Annotations rp) (rp_Finalizers rp)
             (rp_UseFlux rp) (rp_ChartVersion rp) (rp_ClusterSpec rp) st.

Definition set_Finalizers (fs : list string) (rp : Redpanda) : Redpanda :=
  mkRedpanda (rp_Name rp) (rp_Namespace rp) (rp_UID rp) (rp_Generation rp)
             (rp_DeletionTimestamp rp) (rp_Annotations rp) fs
             (rp_UseFlux rp) (rp_ChartVersion rp) (rp_ClusterSpec rp)
             (rp_Status rp).

Definition set_ObservedGeneration (g : Z) (rp : Redpanda) : Redpanda :=
  let st := rp_Status rp in
  set_Status (mkStatus g (st_HelmRelease st) (st_HelmReleaseReady st)
                       (st_HelmRepository st) (st_HelmRepositoryReady st)
                       (st_Conditions st)) rp.

Definition set_Conditions (cs : list Condition) (rp : Redpanda) : Redpanda :=
  let st := rp_Status rp in
  set_Status (mkStatus (st_ObservedGeneration st) (st_HelmRelease st)
                       (st_HelmReleaseReady st) (st_HelmRepository st)
                       (st_HelmRepositoryReady st) cs) rp.

Definition set_HelmRepository (name : string) (ready : option bool)
    (rp : Redpanda) : Redpanda :=
  let st := rp_Status rp in
  set_Status (mkStatus (st_ObservedGeneration st) (st_HelmRelease st)
                       (st_HelmReleaseReady st) name ready
                       (st_Conditions st)) rp.

Definition set_HelmRelease (name : string) (ready : option bool)
    (rp : Redpanda) : Redpanda :=
  let st := rp_Status rp in
  set_Status (mkStatus (st_ObservedGeneration st) name ready
                       (st_HelmRepository st) (st_HelmRepositoryReady st)
                       (st_Conditions st)) rp.

Definition clear_HelmNames (rp : Redpanda) : Redpanda :=
  let st := rp_Status rp in
  set_Status (mkStatus (st_ObservedGeneration st) "" (st_HelmReleaseReady st)
                       "" (st_HelmRepositoryReady st) (st_Conditions st)) rp.

(** *** Conditions *)

(** [apimeta.FindStatusCondition], [IsStatusConditionTrue] and
    [SetStatusCondition] (without the transition time). *)
Definition FindStatusCondition (cs : list Condition) (t : string) : option Condition :=
  find (λ c, String.eqb (c_Type c) t) cs.

Definition IsStatusConditionTrue (cs : list Condition) (t : string) : bool :=
  match FindStatusCondition cs t with
  | Some c => String.eqb (c_Status c) ConditionTrue
  | None => false
  end.

Fixpoint SetStatusCondition (cs : list Condition) (new : Condition) : list Condition :=
  match cs with
  | [] => [new]
  | c :: rest =>
      if String.eqb (c_Type c) (c_Type new) then new :: rest
      else c :: SetStatusCondition rest new
  end.

(** Modelled from the spec: [v1alpha2.RedpandaReady] and
    [v1alpha2.RedpandaNotReady] are not part of the sources at hand.  The
    cluster reports its readiness through a status condition with a
    machine-readable reason and a message: Ready is true, or false with the
    reason and message given. *)
Definition RedpandaReady (rp : Redpanda) : Redpanda :=
  set_Conditions
    (SetStatusCondition (st_Conditions (rp_Status rp))
       (mkCondition ReadyCondition ConditionTrue "RedpandaClusterDeployed"
                    "Redpanda reconciliation succeeded")) rp.

Definition RedpandaNotReady (rp : Redpanda) (reason message : string) : Redpanda :=
  set_Conditions
    (SetStatusCondition (st_Conditions (rp_Status rp))
       (mkCondition ReadyCondition ConditionFalse reason message)) rp.

(** The cluster reports ready. *)
Definition reportsReady (rp : Redpanda) : bool :=
  IsStatusConditionTrue (st_Conditions (rp_Status rp)) ReadyCondition.

(** *** Finalizers *)

Definition ContainsFinalizer (rp : Redpanda) (f : string) : bool :=
  existsb (String.eqb f) (rp_Finalizers rp).

Definition AddFinalizer (rp : Redpanda) (f : string) : Redpanda :=
  if ContainsFinalizer rp f then rp
  else set_Finalizers (rp_Finalizers rp ++ [f]) rp.

Definition RemoveFinalizer (rp : Redpanda) (f : string) : Redpanda :=
  set_Finalizers (List.filter (λ x, negb (String.eqb x f)) (rp_Finalizers rp)) rp.

(** *** The reconciler *)

Definition errWaitForReleaseDeletion : error :=
  ErrOther "wait for helm release deletion".

Definition helmRepositoryType : string := "*sourcev1.HelmRepository".
Definition helmReleaseType : string := "*helmv2beta2.HelmRelease".

Definition set_GVK (gvk : GroupVersionKind) (obj : Object) : Object :=
  mkObject (obj_GoType obj) gvk (obj_Namespace obj) (obj_Name obj)
           (obj_Labels obj) (obj_Annotations obj) (obj_OwnerReferences obj)
           (obj_ManagedFields obj).

Definition set_ManagedFields (mf : list string) (obj : Object) : Object :=
  mkObject (obj_GoType obj) (obj_GVK obj) (obj_Namespace obj) (obj_Name obj)
           (obj_Labels obj) (obj_Annotations obj) (obj_OwnerReferences obj) mf.

(** What the apply loop of [reconcileDefluxed] sets on a rendered object. *)
Definition stamp (namespace releaseName : string) (owner : OwnerReference)
    (obj : Object) : Object :=
  mkObject (obj_GoType obj) (obj_GVK obj) namespace (obj_Name obj)
           (<["helm.toolkit.fluxcd.io/namespace" := namespace]>
              (<["helm.toolkit.fluxcd.io/name" := releaseName]> (obj_Labels obj)))
           (<["meta.helm.sh/release-namespace" := namespace]>
              (<["meta.helm.sh/release-name" := releaseName]> (obj_Annotations obj)))
           [owner] (obj_ManagedFields obj).

(** [desiredReplicas += int(ptr.Deref(sts.Spec.Replicas, 0))], in 64-bit
    [int]. *)
Definition desiredReplicas (stses : list Workload) : Z :=
  foldl (λ acc sts, wrap64 (acc + Deref (wl_Replicas sts) 0)) 0 stses.

Section reconciler.
Context {env : Env} {W : Type} {client : Client W}.

Local Abbreviation Act := (M W Event).

Definition isRedpandaManaged (redpandaCluster : Redpanda) : bool :=
  let managedAnnotationKey := GroupVersion_Group ++ managedPath in
  match rp_Annotations redpandaCluster !! managedAnnotationKey with
  | Some managed => negb (String.eqb managed NotManaged)
  | None => true
  end.

(** [apply], on a rendered object: the object is then the one the store
    answered with.  Wrapping an error keeps its cause. *)
Definition apply (obj : Object) : Act Object :=
  do gvk <- Mtry (GroupVersionKindFor (obj_GoType obj));
  let obj := set_GVK gvk (set_ManagedFields [] obj) in
  do r <- Mcall (ApplyObject obj) (EvApply obj);
  Mtry r.

(** [apply], on a flux object: the object is then the one the store
    answered with. *)
Definition applyHelm (goType : string) (h : HelmObject) : Act HelmObject :=
  do _ <- Mtry (GroupVersionKindFor goType);
  do r <- Mcall (ApplyHelm goType h) (EvApplyHelm goType h);
  Mtry r.

Definition helmRepositoryFromTemplate (rp : Redpanda) : HelmObject :=
  mkHelm (GetHelmRepositoryName rp) (rp_Namespace rp) [OwnerShipRefObj rp]
         (negb (Deref (rp_UseFlux rp) true)) "" "" 0 0 [].

Definition createHelmReleaseFromTemplate (rp : Redpanda) : result HelmObject :=
  match ValuesJSON rp with
  | Err e => Err e
  | Ok values =>
      let chartVersion :=
        if String.eqb (rp_ChartVersion rp) "" then pinnedChartVersion
        else rp_ChartVersion rp in
      Ok (mkHelm (GetHelmReleaseName rp) (rp_Namespace rp) [OwnerShipRefObj rp]
                 (negb (Deref (rp_UseFlux rp) true)) chartVersion values 0 0 [])
  end.

Definition reconcileHelmRelease (rp : Redpanda) : Act Redpanda :=
  do hr <- Mtry (createHelmReleaseFromTemplate rp);
  do hr <- applyHelm helmReleaseType hr;
  let isGenerationCurrent := (helm_Generation hr =? helm_ObservedGeneration hr)%Z in
  let isStatusConditionReady :=
    IsStatusConditionTrue (helm_Conditions hr) ReadyCondition
    || IsStatusConditionTrue (helm_Conditions hr) RemediatedCondition in
  let isGenerationCurrent := if helm_Suspend hr then true else isGenerationCurrent in
  let isStatusConditionReady := if helm_Suspend hr then true else isStatusConditionReady in
  Mret (set_HelmRelease (helm_Name hr)
          (Some (isGenerationCurrent && isStatusConditionReady)) rp).

Definition reconcileHelmRepository (rp : Redpanda) : Act Redpanda :=
  let repo := helmRepositoryFromTemplate rp in
  do repo <- applyHelm helmRepositoryType repo;
  let isGenerationCurrent := (helm_Generation repo =? helm_ObservedGeneration repo)%Z in
  let isStatusConditionReady :=
    IsStatusConditionTrue (helm_Conditions repo) ReadyCondition in
  let isGenerationCurrent := if helm_Suspend repo then true else isGenerationCurrent in
  let isStatusConditionReady := if helm_Suspend repo then true else isStatusConditionReady in
  Mret (set_HelmRepository (helm_Name repo)
          (Some (isStatusConditionReady && isGenerationCurrent)) rp).

Definition deleteHelmRelease (rp : Redpanda) : Act Redpanda :=
  if String.eqb (st_HelmRelease (rp_Status rp)) "" then Mret rp
  else
    let key := mkKey (rp_Namespace rp) (st_HelmRelease (rp_Status rp)) in
    do got <- Mcall (GetHelmRelease key) (EvGetHelmRelease key);
    match got with
    | Err e => if IsNotFound e then Mret (clear_HelmNames rp) else Mfail e
    | Ok hr =>
        do d <- Mcall (DeleteHelmRelease hr) (EvDeleteHelmRelease hr);
        do _ <- Mtry d;
        Mfail errWaitForReleaseDeletion
    end.

Definition reconcileDelete (rp : Redpanda) : Act Result :=
  do rp <- deleteHelmRelease rp;
  if ContainsFinalizer rp FinalizerKey then
    let rp := RemoveFinalizer rp FinalizerKey in
    do u <- Mcall (UpdateRedpanda rp) (EvUpdate rp);
    do _ <- Mtry u;
    Mret emptyResult
  else Mret emptyResult.

(** [checkReplicasForList], with the extractor of both its uses:
    updated, available, ready and [ptr.Deref(o.Spec.Replicas, 0)]. *)
Definition notConverged (item : Workload) : bool :=
  let total := Deref (wl_Replicas item) 0 in
  negb (wl_UpdatedReplicas item =? total)%Z
  || negb (wl_AvailableReplicas item =? total)%Z
  || negb (wl_ReadyReplicas item =? total)%Z.

Definition describe (item : Workload) : string :=
  quote (wl_Namespace item ++ "/" ++ wl_Name item)
  ++ " (updated/available/ready/total: "
  ++ itoa (wl_UpdatedReplicas item) ++ "/" ++ itoa (wl_AvailableReplicas item)
  ++ "/" ++ itoa (wl_ReadyReplicas item) ++ "/"
  ++ itoa (Deref (wl_Replicas item) 0) ++ ")".

Definition checkReplicasForList (list : list Workload) (resource : string)
  : string * bool :=
  let notReady := describe <$> List.filter notConverged list in
  if (0 <? length notReady)%nat then
    ("Not all " ++ resource ++ " replicas updated, available, and ready for ["
     ++ String.concat "; " (sortStrings notReady) ++ "]", false)
  else ("", true).

Definition checkStatefulSetStatus (ss : list Workload) : string * bool :=
  checkReplicasForList ss "StatefulSet".

Definition checkDeploymentsStatus (deployments : list Workload) : string * bool :=
  checkReplicasForList deployments "Deployment".

Definition needsDecommission (rp : Redpanda) (stses : list Workload) : Act bool :=
  do c <- Mcall (RedpandaAdminClient rp) EvAdminClient;
  do _ <- Mtry c;
  do h <- Mcall GetHealthOverview EvHealth;
  do health <- Mtry h;
  let desired := desiredReplicas stses in
  if (length (AllNodes health) =? 0)%nat || (desired =? 0)%Z then Mret false
  else Mret (desired <? Z.of_nat (length (AllNodes health)))%Z.

Definition notReadyMessage (kind : string) (rp : Redpanda) : string :=
  kind ++ " '" ++ rp_Namespace rp ++ "/" ++ GetHelmReleaseName rp
  ++ "' is not ready".

Definition reconcile (rp : Redpanda) : Act Redpanda :=
  do s <- Mcall (redpandaStatefulSetsForCluster rp) EvStatefulSets;
  do redpandaStatefulSets <- Mtry s;
  do d <- Mcall (consoleDeploymentsForCluster rp) EvDeployments;
  do consoleDeployments <- Mtry d;
  do rp <- reconcileHelmRepository rp;
  if negb (Deref (st_HelmRepositoryReady (rp_Status rp)) false) then
    Mret (RedpandaNotReady rp "ArtifactFailed"
            (notReadyMessage resourceTypeHelmRepository rp))
  else
    do rp <- reconcileHelmRelease rp;
    if negb (Deref (st_HelmReleaseReady (rp_Status rp)) false) then
      Mret (RedpandaNotReady rp "ArtifactFailed"
              (notReadyMessage resourceTypeHelmRelease rp))
    else if (length redpandaStatefulSets =? 0)%nat then
      Mret (RedpandaNotReady rp "RedpandaPodsNotReady"
              "Redpanda StatefulSet not yet created")
    else if negb (checkStatefulSetStatus redpandaStatefulSets).2 then
      Mret (RedpandaNotReady rp "RedpandaPodsNotReady"
              (checkStatefulSetStatus redpandaStatefulSets).1)
    else if negb (checkDeploymentsStatus consoleDeployments).2 then
      Mret (RedpandaNotReady rp "ConsolePodsNotReady"
              (checkDeploymentsStatus consoleDeployments).1)
    else
      do decommission <- needsDecommission rp redpandaStatefulSets;
      if decommission then
        Mret (RedpandaNotReady rp "RedpandaPodsNotReady"
                "Cluster currently decommissioning dead nodes")
      else Mret (RedpandaReady rp).

(** The labels by which flux, and the garbage collection, find the objects
    of a release. *)
Definition releaseLabels (rp : Redpanda) : gmap string string :=
  <["helm.toolkit.fluxcd.io/namespace" := rp_Namespace rp]>
    (<["helm.toolkit.fluxcd.io/name" := GetHelmReleaseName rp]> ∅).

Fixpoint allListTypes_from (types : list string)
  : result (list GroupVersionKind) :=
  match types with
  | [] => Ok []
  | t :: rest =>
      match GroupVersionKindFor t with
      | Err e => Err e
      | Ok gvk =>
          let gvk := mkGVK (Group gvk) (Version gvk) (Kind gvk ++ "List") in
          match SchemeNew gvk with
          | Err e => Err e
          | Ok list =>
              match allListTypes_from rest with
              | Err e => Err e
              | Ok lists => Ok (list :: lists)
              end
          end
      end
  end.

Definition allListTypes : result (list GroupVersionKind) :=
  allListTypes_from Types.

Definition isOwnedBy (rp : Redpanda) (obj : Object) : bool :=
  negb (IndexFunc (λ owner, String.eqb (or_UID owner) (rp_UID rp))
                  (obj_OwnerReferences obj) =? -1)%Z.

(** The callback of [EachListItem], over the items of one list. *)
Fixpoint eachListItem (rp : Redpanda) (created : gset gvkKey)
    (items : list Object) (toDelete : list Object) : result (list Object) :=
  match items with
  | [] => Ok toDelete
  | obj :: rest =>
      match GroupVersionKindFor (obj_GoType obj) with
      | Err e => Err e
      | Ok gvk =>
          let key := mkGvkKey gvk (ObjectKeyFromObject obj) in
          let isOwned := isOwnedBy rp obj in
          if bool_decide (key ∈ created) then eachListItem rp created rest toDelete
          else if negb isOwned then eachListItem rp created rest toDelete
          else eachListItem rp created rest (toDelete ++ [obj])
      end
  end.

Fixpoint collectGarbage (rp : Redpanda) (created : gset gvkKey)
    (types : list GroupVersionKind) (toDelete : list Object)
  : Act (list Object) :=
  match types with
  | [] => Mret toDelete
  | typ :: rest =>
      do l <- Mcall (ListObjects typ (rp_Namespace rp) (releaseLabels rp))
                    (EvList typ (rp_Namespace rp) (releaseLabels rp));
      match l with
      | Err e =>
          if IsNoMatchError e then collectGarbage rp created rest toDelete
          else Mfail e
      | Ok items =>
          do toDelete <- Mtry (eachListItem rp created items toDelete);
          collectGarbage rp created rest toDelete
      end
  end.

Fixpoint deleteAll (toDelete : list Object) (errs : list error)
  : Act (list error) :=
  match toDelete with
  | [] => Mret errs
  | obj :: rest =>
      do d <- Mcall (DeleteObject obj) (EvDelete obj);
      match d with
      | Err e => deleteAll rest (errs ++ [e])
      | Ok _ => deleteAll rest errs
      end
  end.

Definition reconcileDefluxGC (rp : Redpanda) (created : gset gvkKey) : Act unit :=
  do types <- Mtry allListTypes;
  do toDelete <- collectGarbage rp created types [];
  do errs <- deleteAll toDelete [];
  match errs with
  | [] => Mret tt
  | _ :: _ => Mfail (ErrJoin errs)
  end.

(** The apply loop of [reconcileDefluxed]. *)
Fixpoint applyAll (rp : Redpanda) (objs : list Object) (created : gset gvkKey)
  : Act (gset gvkKey) :=
  match objs with
  | [] => Mret created
  | obj :: rest =>
      let obj := stamp (rp_Namespace rp) (GetHelmReleaseName rp)
                       (OwnerShipRefObj rp) obj in
      match obj_Annotations obj !! "helm.sh/hook" with
      | Some _ => applyAll rp rest created
      | None =>
          do obj <- apply obj;
          applyAll rp rest
            ({[ mkGvkKey (obj_GVK obj) (ObjectKeyFromObject obj) ]} ∪ created)
      end
  end.

Definition chartVersionMessage (rp : Redpanda) : string :=
  ".spec.chartRef.chartVersion needs to be " ++ quote pinnedChartVersion
  ++ " or " ++ quote "" ++ ". got " ++ quote (rp_ChartVersion rp).

Definition reconcileDefluxed (rp : Redpanda) : Act Redpanda :=
  if Deref (rp_UseFlux rp) true then Mret rp
  else
    let chartVersion := rp_ChartVersion rp in
    let desiredChartVersion := pinnedChartVersion in
    if negb (String.eqb chartVersion ""
             || String.eqb chartVersion desiredChartVersion) then
      let msg := chartVersionMessage rp in
      do _ <- Mtell (EvWarning rp msg);
      Mret (RedpandaNotReady rp "ChartRefUnsupported" msg)
    else
      do objs <- Mtry (Render (rp_Namespace rp) (GetHelmReleaseName rp)
                              (rp_ClusterSpec rp));
      do created <- applyAll rp objs ∅;
      if (rp_Generation rp =? st_ObservedGeneration (rp_Status rp))%Z
         && negb (rp_Generation rp =? 0)%Z
      then Mret rp
      else
        do _ <- reconcileDefluxGC rp created;
        Mret rp.

Definition patchRedpandaStatus (rp : Redpanda) : Act unit :=
  let key := mkKey (rp_Namespace rp) (rp_Name rp) in
  do got <- Mcall (GetRedpanda key) (EvGet key);
  do latest <- Mtry got;
  do p <- Mcall (PatchStatus rp latest) (EvStatusPatch rp latest);
  do _ <- Mtry p;
  Mret tt.

(** The end of [Reconcile], for a managed cluster that has its finalizer:
    both phases, then the observed generation and the status patch. *)
Definition reconcileManaged (rp : Redpanda) : Act Result :=
  do rp <- reconcile rp;
  do rp <- reconcileDefluxed rp;
  let rp := set_ObservedGeneration (rp_Generation rp) rp in
  do _ <- patchRedpandaStatus rp;
  Mret emptyResult.

Definition Reconcile (req : ObjectKey) : Act Result :=
  do got <- Mcall (GetRedpanda req) (EvGet req);
  match got with
  | Err e => if IsNotFound e then Mret emptyResult else Mfail e
  | Ok rp =>
      if negb (isNil (rp_DeletionTimestamp rp)) then reconcileDelete rp
      else if negb (isRedpandaManaged rp) then
        if ContainsFinalizer rp FinalizerKey then
          let rp := RemoveFinalizer rp FinalizerKey in
          do u <- Mcall (UpdateRedpanda rp) (EvUpdate rp);
          do _ <- Mtry u;
          Mret emptyResult
        else Mret emptyResult
      else
        match rp_Annotations rp !! ManagedDecommissionAnnotation with
        | Some _ => Mret emptyResult
        | None =>
            do rp <-
              (if negb (ContainsFinalizer rp FinalizerKey) then
                 let rp := AddFinalizer rp FinalizerKey in
                 do p <- Mcall (PatchRedpanda rp) (EvPatch rp);
                 Mtry p
               else Mret rp);
            reconcileManaged rp
        end
  end.

End reconciler.

(** *** An in-memory world

    The clusters by key, the live child objects, the StatefulSets and
    Deployments of the cluster, and the members that the admin API reports.
    The cluster has a status subresource: a write of the cluster keeps the
    stored status, a status patch replaces it.  An apply of a rendered
    object stores it as sent, and answers with the object as stored.
    Nothing in this world reconciles flux objects: an apply of one answers
    with the object sent. *)

Record World : Type := mkWorld {
  w_clusters : gmap ObjectKey Redpanda;
  w_objects : list Object;
  w_statefulsets : list Workload;
  w_deployments : list Workload;
  w_nodes : list Z;
}.

Definition rp_key (rp : Redpanda) : ObjectKey := mkKey (rp_Namespace rp) (rp_Name rp).

Definition sameObject (a b : Object) : bool :=
  String.eqb (obj_GoType a) (obj_GoType b)
  && String.eqb (obj_Namespace a) (obj_Namespace b)
  && String.eqb (obj_Name a) (obj_Name b).

Definition set_clusters (m : gmap ObjectKey Redpanda) (w : World) : World :=
  mkWorld m (w_objects w) (w_statefulsets w) (w_deployments w) (w_nodes w).

Definition set_objects (l : list Object) (w : World) : World :=
  mkWorld (w_clusters w) l (w_statefulsets w) (w_deployments w) (w_nodes w).

Section world.
Context {env : Env}.

Definition worldGet (key : ObjectKey) (w : World) : result Redpanda * World :=
  match w_clusters w !! key with
  | Some rp => (Ok rp, w)
  | None => (Err ErrNotFound, w)
  end.

Definition worldWrite (change : Redpanda → Redpanda) (rp : Redpanda) (w : World)
  : result Redpanda * World :=
  match w_clusters w !! rp_key rp with
  | Some cur =>
      (Ok (change cur), set_clusters (<[rp_key rp := change cur]> (w_clusters w)) w)
  | None => (Err ErrNotFound, w)
  end.

Definition listTypeOf (obj : Object) : option GroupVersionKind :=
  match GroupVersionKindFor (obj_GoType obj) with
  | Ok g => Some (mkGVK (Group g) (Version g) (Kind g ++ "List"))
  | Err _ => None
  end.

Definition selectedBy (typ : GroupVersionKind) (ns : string)
    (labels : gmap string string) (obj : Object) : bool :=
  bool_decide (listTypeOf obj = Some typ)
  && String.eqb (obj_Namespace obj) ns
  && bool_decide (map_Forall (λ k v, obj_Labels obj !! k = Some v) labels).

Definition worldClient : Client World := {|
  GetRedpanda := worldGet;
  UpdateRedpanda rp := worldWrite (λ cur, set_Status (rp_Status cur) rp) rp;
  PatchRedpanda rp := worldWrite (set_Finalizers (rp_Finalizers rp)) rp;
  PatchStatus rp latest := worldWrite (set_Status (rp_Status rp)) rp;
  ApplyObject obj w :=
    (Ok obj, set_objects (obj :: List.filter (λ o, negb (sameObject o obj))
                                            (w_objects w)) w);
  ApplyHelm goType h w := (Ok h, w);
  GetHelmRelease key w := (Err ErrNotFound, w);
  DeleteHelmRelease h w := (Ok tt, w);
  ListObjects typ ns labels w :=
    (Ok (List.filter (selectedBy typ ns labels) (w_objects w)), w);
  DeleteObject obj w :=
    (Ok tt, set_objects (List.filter (λ o, negb (sameObject o obj))
                                     (w_objects w)) w);
  redpandaStatefulSetsForCluster rp w := (Ok (w_statefulsets w), w);
  consoleDeploymentsForCluster rp w := (Ok (w_deployments w), w);
  RedpandaAdminClient rp w := (Ok tt, w);
  GetHealthOverview w := (Ok (mkHealth (w_nodes w)), w);
|}.

End world.

(** *** A cluster for the examples

    Cluster [rp] in namespace [default], not using flux, with the chart
    version left empty; the chart renders one ConfigMap. *)

Definition configMapType : string := "*corev1.ConfigMap".
Definition configMapGVK : GroupVersionKind := mkGVK "" "v1" "ConfigMap".

Definition ex_rendered : Object :=
  mkObject configMapType (mkGVK "" "" "") "" "rp-config" ∅ ∅ [] [].

Definition ex_env : Env := {|
  ManagedDecommissionAnnotation := "operator.redpanda.com/managed-decommission";
  GroupVersion_Group := "cluster.redpanda.com";
  pinnedChartVersion := "5.9.20";
  Render ns name values := Ok [ex_rendered];
  Types := [configMapType];
  GroupVersionKindFor t :=
    if String.eqb t configMapType then Ok configMapGVK
    else if String.eqb t helmRepositoryType
    then Ok (mkGVK "source.toolkit.fluxcd.io" "v1beta2" "HelmRepository")
    else if String.eqb t helmReleaseType
    then Ok (mkGVK "helm.toolkit.fluxcd.io" "v2beta2" "HelmRelease")
    else Err ErrNoMatch;
  SchemeNew gvk := Ok gvk;
  GetHelmReleaseName := rp_Name;
  GetHelmRepositoryName rp := "redpanda-repository";
  OwnerShipRefObj rp :=
    mkOwner "cluster.redpanda.com/v1alpha2" "Redpanda" (rp_Name rp) (rp_UID rp)
            (Some true);
  ValuesJSON rp := Ok (rp_ClusterSpec rp);
  quote s := s;
  itoa z := "?";
  sortStrings l := l;
|}.

Definition ex_rp (generation observed : Z) (chartVersion : string) : Redpanda :=
  mkRedpanda "rp" "default" "uid-rp" generation None ∅ [FinalizerKey]
             (Some false) chartVersion "values"
             (mkStatus observed "" None "" None []).

Definition ex_req : ObjectKey := mkKey "default" "rp".

(** A ConfigMap of an earlier rendering, owned by the cluster. *)
Definition ex_orphan : Object :=
  mkObject configMapType configMapGVK "default" "old-config"
           (<["helm.toolkit.fluxcd.io/namespace" := "default"]>
              (<["helm.toolkit.fluxcd.io/name" := "rp"]> ∅))
           ∅ [mkOwner "cluster.redpanda.com/v1alpha2" "Redpanda" "rp" "uid-rp"
                      (Some true)] [].

Definition ex_sts (replicas : Z) : Workload :=
  mkWorkload "default" "rp" (Some replicas) replicas replicas replicas.

Definition ex_world (rp : Redpanda) (replicas : Z) (nodes : list Z) : World :=
  mkWorld {[ ex_req := rp ]} [ex_orphan] [ex_sts replicas] [] nodes.

(** *** Properties of the record of a pass *)

Definition deletes (tr : list Event) (obj : Object) : Prop :=
  ∃ r, EvDelete obj r ∈ tr.

(** The pass applied [sent], and the store answered with [answer]. *)
Definition applied (tr : list Event) (sent answer : Object) : Prop :=
  EvApply sent (Ok answer) ∈ tr.

(** The object was listed under the release-identity labels, in the
    namespace of the cluster. *)
Definition listed {env : Env} (rp : Redpanda) (tr : list Event) (obj : Object) : Prop :=
  ∃ typ l, EvList typ (rp_Namespace rp) (releaseLabels rp) (Ok l) ∈ tr ∧ obj ∈ l.

Definition isListEvent (ev : Event) : Prop :=
  match ev with EvList _ _ _ _ => True | _ => False end.

Definition isApplyEvent (ev : Event) : Prop :=
  match ev with EvApply _ _ => True | _ => False end.

Definition isDeleteEvent (ev : Event) : Prop :=
  match ev with EvDelete _ _ => True | _ => False end.

(** C8 as stated: with the observed generation equal to the generation, the
    pass deletes nothing. *)
Definition skipsCollection (rp : Redpanda) (tr : list Event) : Prop :=
  rp_Generation rp = st_ObservedGeneration (rp_Status rp) →
  ∀ obj, ¬ deletes tr obj.

Definition ownedBy (rp : Redpanda) (obj : Object) : Prop :=
  ∃ owner, owner ∈ obj_OwnerReferences obj ∧ or_UID owner = rp_UID rp.

(** The key of a live object, by its kind and namespaced name. *)
Definition hasKey {env : Env} (obj : Object) (key : gvkKey) : Prop :=
  GroupVersionKindFor (obj_GoType obj) = Ok (GVK key)
  ∧ ObjectKeyFromObject obj = Key key.

(** The key under which the apply loop records an object it applied: the
    kind and the namespaced name that the object has after the apply, which
    are those of the answer of the store. *)
Definition recordedKey (obj : Object) : gvkKey :=
  mkGvkKey (obj_GVK obj) (ObjectKeyFromObject obj).

(** A Scaling Group or console Deployment whose updated, available and
    ready counts each equal the desired count. *)
Definition converged (item : Workload) : Prop :=
  let total := Deref (wl_Replicas item) 0 in
  wl_UpdatedReplicas item = total
  ∧ wl_AvailableReplicas item = total
  ∧ wl_ReadyReplicas item = total.

(** Readiness of a companion object, as the store answered. *)
Definition repositoryReady (repo : HelmObject) : Prop :=
  helm_Suspend repo = true
  ∨ (helm_Generation repo = helm_ObservedGeneration repo
     ∧ IsStatusConditionTrue (helm_Conditions repo) ReadyCondition = true).

Definition releaseReady (hr : HelmObject) : Prop :=
  helm_Suspend hr = true
  ∨ (helm_Generation hr = helm_ObservedGeneration hr
     ∧ (IsStatusConditionTrue (helm_Conditions hr) ReadyCondition = true
        ∨ IsStatusConditionTrue (helm_Conditions hr) RemediatedCondition = true)).

(** The decommission gate is clear. *)
Definition gateClear (stses : list Workload) (health : ClusterHealthOverview) : Prop :=
  length (AllNodes health) = 0%nat
  ∨ desiredReplicas stses = 0
  ∨ (Z.of_nat (length (AllNodes health)) ≤ desiredReplicas stses)%Z.

(** C4 as stated, for the gate: whenever the live members outnumber the
    desired replicas, the cluster does not report ready. *)
Definition gateWithholds (rp' : Redpanda) (tr : list Event) : Prop :=
  ∀ stses health,
    EvStatefulSets (Ok stses) ∈ tr →
    EvHealth (Ok health) ∈ tr →
    (desiredReplicas stses < Z.of_nat (length (AllNodes health)))%Z →
    reportsReady rp' = false.

(** What readiness requires. *)
Definition readinessHolds (tr : list Event) : Prop :=
  ∃ repoSent repo hrSent hr stses deps health,
    tr = [EvStatefulSets (Ok stses); EvDeployments (Ok deps);
          EvApplyHelm helmRepositoryType repoSent (Ok repo);
          EvApplyHelm helmReleaseType hrSent (Ok hr);
          EvAdminClient (Ok tt); EvHealth (Ok health)]
    ∧ repositoryReady repo
    ∧ releaseReady hr
    ∧ stses ≠ []
    ∧ Forall converged stses
    ∧ Forall converged deps
    ∧ gateClear stses health.

(** Two clusters that differ in their status only. *)
Definition sameSpec (a b : Redpanda) : Prop := set_Status (rp_Status a) b = a.

(** An event that writes the cluster itself, and the cluster it carries. *)
Definition clusterWrite (ev : Event) : option Redpanda :=
  match ev with
  | EvUpdate rp _ | EvPatch rp _ => Some rp
  | _ => None
  end.

Definition isStatusPatch (ev : Event) : Prop :=
  match ev with EvStatusPatch _ _ _ => True | _ => False end.

(** An event that writes neither the cluster nor its status. *)
Definition leavesCluster (ev : Event) : Prop :=
  clusterWrite ev = None ∧ ¬ isStatusPatch ev.

(** An event that leaves the observed generation as [rp0] has it: it is no
    status patch, and if it writes the cluster, it writes it with the
    observed generation of [rp0]. *)
Definition keepsObserved (rp0 : Redpanda) (ev : Event) : Prop :=
  ¬ isStatusPatch ev
  ∧ ∀ rp', clusterWrite ev = Some rp' →
      st_ObservedGeneration (rp_Status rp')
      = st_ObservedGeneration (rp_Status rp0).

(** The status patch at the end of a pass over [rp]. *)
Definition statusPatchOf (rp : Redpanda) (latest : Redpanda)
    (r : result Redpanda) : list Event :=
  [EvGet (rp_key rp) (Ok latest); EvStatusPatch rp latest r].

(** The chart version of the cluster is neither empty nor the pinned one,
    and the cluster does not use flux. *)
Definition chartRefUnsupported {env : Env} (rp : Redpanda) : Prop :=
  rp_UseFlux rp = Some false
  ∧ rp_ChartVersion rp ≠ ""
  ∧ rp_ChartVersion rp ≠ pinnedChartVersion.

(** *** More properties of the record of a pass *)

(** What the apply loop sets on every object before it applies it, and what
    [apply] clears. *)
Definition stamped {env : Env} (rp : Redpanda) (obj : Object) : Prop :=
  obj_Namespace obj = rp_Namespace rp
  ∧ obj_OwnerReferences obj = [OwnerShipRefObj rp]
  ∧ obj_Labels obj !! "helm.toolkit.fluxcd.io/name" = Some (GetHelmReleaseName rp)
  ∧ obj_Labels obj !! "helm.toolkit.fluxcd.io/namespace" = Some (rp_Namespace rp)
  ∧ obj_Annotations obj !! "meta.helm.sh/release-name"
    = Some (GetHelmReleaseName rp)
  ∧ obj_Annotations obj !! "meta.helm.sh/release-namespace"
    = Some (rp_Namespace rp)
  ∧ obj_Annotations obj !! "helm.sh/hook" = None
  ∧ obj_ManagedFields obj = [].

(** The object is [rendered], of the chart, as [apply] sends it. *)
Definition renderedAs {env : Env} (rendered obj : Object) : Prop :=
  obj_Name obj = obj_Name rendered
  ∧ obj_GoType obj = obj_GoType rendered
  ∧ GroupVersionKindFor (obj_GoType rendered) = Ok (obj_GVK obj).

(** The error with which an apply or a list of the sync failed.  A list of
    a kind that the cluster does not know is no failure, and neither is a
    delete, which the garbage collection only collects. *)
Definition syncFailure (ev : Event) : option error :=
  match ev with
  | EvApply _ (Err e) => Some e
  | EvList _ _ _ (Err e) => if IsNoMatchError e then None else Some e
  | _ => None
  end.

Definition endsAtSyncFailure {A} (res : result A) (tr : list Event) : Prop :=
  match res with
  | Ok _ => Forall (λ ev, syncFailure ev = None) tr
  | Err e =>
      Forall (λ ev, syncFailure ev = None) tr
      ∨ ∃ t ev, tr = (t ++ [ev])%list
                ∧ Forall (λ ev, syncFailure ev = None) t
                ∧ syncFailure ev = Some e
  end.

Definition isWarning (ev : Event) : Prop :=
  match ev with EvWarning _ _ => True | _ => False end.

(** The errors of the deletes of a record, in order. *)
Definition deleteFailures (tr : list Event) : list error :=
  omap (λ ev, match ev with EvDelete _ (Err e) => Some e | _ => None end) tr.

(** The list type that [allListTypes] makes for a type of the chart. *)
Definition listTypeFor {env : Env} (t : string) (list : GroupVersionKind) : Prop :=
  ∃ gvk, GroupVersionKindFor t = Ok gvk
         ∧ SchemeNew (mkGVK (Group gvk) (Version gvk) (Kind gvk ++ "List"))
           = Ok list.

(** The type cannot be listed: the client does not know its kind, or the
    scheme does not know the kind of its list. *)
Definition unlistable {env : Env} (t : string) (e : error) : Prop :=
  GroupVersionKindFor t = Err e
  ∨ ∃ gvk, GroupVersionKindFor t = Ok gvk
           ∧ SchemeNew (mkGVK (Group gvk) (Version gvk) (Kind gvk ++ "List"))
             = Err e.

(** The cluster of the examples, under deletion, with a status that names
    its release; and the same cluster, marked as not managed. *)
Definition ex_rp_deleting : Redpanda :=
  mkRedpanda "rp" "default" "uid-rp" 2 (Some 1%Z) ∅ [FinalizerKey]
             (Some false) "" "values"
             (mkStatus 2 "rp" (Some true) "redpanda-repository" (Some true) []).

Definition ex_rp_unmanaged : Redpanda :=
  mkRedpanda "rp" "default" "uid-rp" 2 None
             {[ "cluster.redpanda.com/managed" := "false" ]} [FinalizerKey]
             (Some false) "" "values"
             (mkStatus 2 "" None "" None []).

(** The world of the examples, behind a store that holds the release of
    every cluster. *)
Definition releaseClient {env : Env} : Client World := {|
  GetRedpanda := GetRedpanda (Client := worldClient);
  UpdateRedpanda := UpdateRedpanda (Client := worldClient);
  PatchRedpanda := PatchRedpanda (Client := worldClient);
  PatchStatus := PatchStatus (Client := worldClient);
  ApplyObject := ApplyObject (Client := worldClient);
  ApplyHelm := ApplyHelm (Client := worldClient);
  GetHelmRelease key w :=
    (Ok (mkHelm (Name key) (Namespace key) [] false "" "" 1 1 []), w);
  DeleteHelmRelease := DeleteHelmRelease (Client := worldClient);
  ListObjects := ListObjects (Client := worldClient);
  DeleteObject := DeleteObject (Client := worldClient);
  redpandaStatefulSetsForCluster :=
    redpandaStatefulSetsForCluster (Client := worldClient);
  consoleDeploymentsForCluster :=
    consoleDeploymentsForCluster (Client := worldClient);
  RedpandaAdminClient := RedpandaAdminClient (Client := worldClient);
  GetHealthOverview := GetHealthOverview (Client := worldClient);
|}.

(** The world of the examples, behind a store that applies nothing. *)
Definition readOnlyClient {env : Env} : Client World := {|
  GetRedpanda := GetRedpanda (Client := worldClient);
  UpdateRedpanda := UpdateRedpanda (Client := worldClient);
  PatchRedpanda := PatchRedpanda (Client := worldClient);
  PatchStatus := PatchStatus (Client := worldClient);
  ApplyObject obj w := (Err ErrConflict, w);
  ApplyHelm := ApplyHelm (Client := worldClient);
  GetHelmRelease := GetHelmRelease (Client := worldClient);
  DeleteHelmRelease := DeleteHelmRelease (Client := worldClient);
  ListObjects := ListObjects (Client := worldClient);
  DeleteObject obj w := (Err ErrConflict, w);
  redpandaStatefulSetsForCluster :=
    redpandaStatefulSetsForCluster (Client := worldClient);
  consoleDeploymentsForCluster :=
    consoleDeploymentsForCluster (Client := worldClient);
  RedpandaAdminClient := RedpandaAdminClient (Client := worldClient);
  GetHealthOverview := GetHealthOverview (Client := worldClient);
|}.

End redpanda.

(** * Results *)

(** ** The matcher and the meaning of regular expressions *)

Section regexp_facts.

Implicit Types (r a b : regexp) (p q : pos).

Lemma star_run_sound a f :
  (∀ p q, q ∈ f p → matches a p q) →
  ∀ n p q, q ∈ star_run f n p → matches (Star a) p q.
Proof.
  intros Hf n. induction n as [|n IH]; intros p q; simpl.
  - rewrite list_elem_of_singleton. intros ->. constructor.
  - rewrite elem_of_cons. intros [->|Hin]; [constructor|].
    apply list_elem_of_In, in_flat_map in Hin as (p' & Hp' & Hq).
    apply list_elem_of_In in Hp'.
    destruct (_ <? _)%nat; [|by apply list_elem_of_In, elem_of_nil in Hq].
    apply list_elem_of_In in Hq.
    eapply matches_star_S; eauto.
Qed.

Lemma run_sound r : ∀ p q, q ∈ run r p → matches r p q.
Proof.
  induction r as [|c|lo hi|a IHa b IHb|a IHa b IHb|a IHa|]; intros [f s] q; simpl.
  - rewrite list_elem_of_singleton. intros ->. constructor.
  - destruct s as [|x s]; [by rewrite elem_of_nil|].
    destruct (Ascii.eqb_spec x c) as [->|]; [|by rewrite elem_of_nil].
    rewrite list_elem_of_singleton. intros ->. constructor.
  - destruct s as [|x s]; [by rewrite elem_of_nil|].
    destruct (in_range lo hi x) eqn:Hx; [|by rewrite elem_of_nil].
    rewrite list_elem_of_singleton. intros ->. by constructor.
  - intros Hin. apply list_elem_of_In, in_flat_map in Hin as (p' & Hp' & Hq).
    apply list_elem_of_In in Hp', Hq. econstructor; eauto.
  - rewrite elem_of_app. intros [?|?]; [apply matches_alt_l|apply matches_alt_r]; auto.
  - apply star_run_sound. auto.
  - destruct f; [|by rewrite elem_of_nil].
    rewrite list_elem_of_singleton. intros ->. constructor.
Qed.

(** A match either reads nothing and ends where it began, or ends strictly
    further in the text, away from its beginning. *)
Lemma matches_progress r p q :
  matches r p q → q = p ∨ (q.1 = false ∧ (length q.2 < length p.2)%nat).
Proof.
  induction 1; simpl; auto; try (right; simpl; split; [done|lia]).
  - destruct IHmatches1 as [->|[? ?]]; [done|].
    destruct IHmatches2 as [->|[? ?]]; right; [done|]. split; [done|lia].
  - destruct IHmatches1 as [->|[? ?]]; [done|].
    destruct IHmatches2 as [->|[? ?]]; right; [done|]. split; [done|lia].
Qed.

Lemma star_run_complete a f :
  (∀ p q, matches a p q → q ∈ f p) →
  ∀ p q, matches (Star a) p q →
  ∀ n, (length p.2 ≤ n)%nat → q ∈ star_run f n p.
Proof.
  intros Hf p q Hm. remember (Star a) as r eqn:Hr.
  induction Hm as [| | | | | |a' p|a' p q1 q Hstep _ Hrest IH|]; try discriminate.
  - intros n _. destruct n; simpl; apply list_elem_of_here.
  - injection Hr as ->. intros n Hn.
    destruct (matches_progress _ _ _ Hstep) as [->|[_ Hlt]]; [by apply IH|].
    destruct n as [|n]; [lia|]. simpl. apply list_elem_of_further.
    apply list_elem_of_In, in_flat_map. exists q1. split.
    + apply list_elem_of_In. auto.
    + apply Nat.ltb_lt in Hlt as Hlt'. rewrite Hlt'.
      apply list_elem_of_In, IH; [done|lia].
Qed.

Lemma run_complete r : ∀ p q, matches r p q → q ∈ run r p.
Proof.
  induction r as [|c|lo hi|a IHa b IHb|a IHa b IHb|a IHa|]; intros p q Hm.
  - inversion Hm; subst. simpl. apply list_elem_of_here.
  - inversion Hm; subst. simpl. rewrite Ascii.eqb_refl. apply list_elem_of_here.
  - inversion Hm as [| |? ? ? ? ? Hr| | | | | |]; subst. simpl. rewrite Hr.
    apply list_elem_of_here.
  - inversion Hm; subst. simpl. apply list_elem_of_In, in_flat_map.
    eexists. split; apply list_elem_of_In; eauto.
  - inversion Hm; subst; simpl; apply elem_of_app; auto.
  - simpl. eapply star_run_complete; eauto.
  - inversion Hm; subst. simpl. apply list_elem_of_here.
Qed.

(** The search succeeds exactly when the expression matches from some
    position of the text; only the first position is its beginning. *)
Lemma search_spec r s : ∀ atStart,
  search r atStart s = true ↔
  ∃ pre suf q, s = pre ++ suf
               ∧ matches r (atStart && bool_decide (pre = []), suf) q.
Proof.
  induction s as [|c s IH]; intros atStart; simpl.
  - destruct (run r (atStart, [])) as [|q l] eqn:Hrun.
    + split; [done|]. intros (pre & suf & q & Heq & Hm).
      symmetry in Heq. apply app_eq_nil in Heq as [-> ->].
      rewrite andb_true_r in Hm. apply run_complete in Hm.
      rewrite Hrun in Hm. by apply elem_of_nil in Hm.
    + split; [|done]. intros _. exists [], [], q. split; [done|].
      rewrite andb_true_r. apply run_sound. rewrite Hrun. apply list_elem_of_here.
  - destruct (run r (atStart, c :: s)) as [|q l] eqn:Hrun.
    + rewrite IH. split.
      * intros (pre & suf & q & -> & Hm). exists (c :: pre), suf, q.
        split; [done|]. by rewrite andb_false_r.
      * intros (pre & suf & q & Heq & Hm). destruct pre as [|c' pre].
        { simpl in Heq. subst suf. rewrite andb_true_r in Hm.
          apply run_complete in Hm. rewrite Hrun in Hm.
          by apply elem_of_nil in Hm. }
        injection Heq as -> ->. exists pre, suf, q. split; [done|].
        rewrite andb_false_r in Hm. by destruct (bool_decide (pre = [])).
    + split; [|done]. intros _. exists [], (c :: s), q. split; [done|].
      rewrite andb_true_r. apply run_sound. rewrite Hrun. apply list_elem_of_here.
Qed.

Lemma matches_lits_inv w p q : matches (lits w) p q → p.2 = w ++ q.2.
Proof.
  revert p q. induction w as [|c w IH]; intros p q Hm; simpl in *.
  - by inversion Hm; subst.
  - inversion Hm as [| | |? ? ? p1 ? Hc Hw| | | | |]; subst.
    inversion Hc; subst. simpl. f_equal. by apply IH in Hw.
Qed.

Lemma matches_lits_intro w t (atStart : bool) :
  matches (lits w) (atStart, w ++ t) ((atStart && bool_decide (w = []))%bool, t).
Proof.
  revert atStart. induction w as [|c w IH]; intros atStart; simpl.
  - rewrite andb_true_r. constructor.
  - rewrite andb_false_r. econstructor; [constructor|].
    specialize (IH false). by simpl in IH.
Qed.

Lemma matches_star_range_inv lo hi p q :
  matches (Star (Range lo hi)) p q →
  ∃ ds, p.2 = ds ++ q.2 ∧ Forall (λ c, in_range lo hi c = true) ds.
Proof.
  intros Hm. remember (Star (Range lo hi)) as r eqn:Hr.
  induction Hm as [| | | | | |a' p|a' p q1 q Hstep _ Hrest IH|]; try discriminate.
  - by exists [].
  - injection Hr as ->. destruct (IH eq_refl) as (ds & Hds & Hall).
    inversion Hstep; subst. simpl in *. exists (c :: ds). split.
    + by rewrite Hds.
    + by constructor.
Qed.

Lemma matches_star_range_intro lo hi ds t :
  Forall (λ c, in_range lo hi c = true) ds →
  matches (Star (Range lo hi)) (false, ds ++ t) (false, t).
Proof.
  induction 1 as [|c ds Hc _ IH]; simpl; [constructor|].
  eapply matches_star_S; [by constructor|done].
Qed.

End regexp_facts.

Ltac inv_matches :=
  repeat match goal with
         | H : matches (Cat _ _) _ _ |- _ => inversion H; clear H; subst
         | H : matches (Alt _ _) _ _ |- _ => inversion H; clear H; subst
         | H : matches BeginText _ _ |- _ => inversion H; clear H; subst
         | H : matches (Range _ _) _ _ |- _ => inversion H; clear H; subst
         | H : matches (Lit _) _ _ |- _ => inversion H; clear H; subst
         | H : matches Epsilon _ _ |- _ => inversion H; clear H; subst
         end.

Section eligibility.

Import pvcunbinder.
Local Open Scope string_scope.

(** What [schedulingFailureRE] accepts: exactly the two shapes of message. *)
Lemma schedulingFailureRE_spec (msg : string) :
  MatchString schedulingFailureRE msg = true ↔
  nodesUnavailable (bytes msg) ∨ mentionsAffinity (bytes msg).
Proof.
  unfold MatchString. rewrite search_spec. split.
  - intros (pre & suf & q & Heq & Hm). unfold schedulingFailureRE in Hm.
    inv_matches.
    + left.
      match goal with H : true = bool_decide (pre = []) |- _ =>
        symmetry in H; apply bool_decide_eq_true in H as -> end.
      match goal with H : matches (Star (Range _ _)) _ _ |- _ =>
        apply matches_star_range_inv in H as (ds & Hds & Hall) end.
      simpl in *. eexists _, ds, _. split; [|done].
      rewrite Heq, Hds. reflexivity.
    + right. eexists pre, _. rewrite Heq. reflexivity.
  - intros [(d & ds & rest & Heq & Hd & Hds)|(pre & post & Heq)].
    + exists [], (bytes msg), (false, rest). split; [done|].
      rewrite Heq. apply matches_alt_l.
      econstructor; [apply matches_begin|].
      econstructor; [apply (matches_lits_intro (bytes "0/"))|].
      econstructor; [by apply matches_range|].
      econstructor; [by apply matches_star_range_intro|].
      apply (matches_lits_intro (bytes " nodes are available") rest false).
    + exists pre, (bytes "volume node affinity" ++ post)%list, (false, post).
      split; [done|]. apply matches_alt_r.
      pose proof (matches_lits_intro (bytes "volume node affinity") post
                    (true && bool_decide (pre = []))) as Hm.
      by rewrite andb_false_r in Hm.
Qed.

End eligibility.

Section eligibility_gate.

Import pvcunbinder.
Local Open Scope string_scope.

Lemma no_match_neither (msg : string) :
  MatchString schedulingFailureRE msg = false →
  ¬ nodesUnavailable (bytes msg) ∧ ¬ mentionsAffinity (bytes msg).
Proof.
  intros Hno. split; intros H;
    (assert (MatchString schedulingFailureRE msg = true) as Hyes
       by (apply schedulingFailureRE_spec; auto));
    congruence.
Qed.

Lemma IndexFunc_find {A} (f : A → bool) (l : list A) :
  (IndexFunc f l = -1 ∧ find f l = None)
  ∨ (0 ≤ IndexFunc f l ∧ l !! Z.to_nat (IndexFunc f l) = find f l
     ∧ is_Some (find f l))%Z.
Proof.
  induction l as [|x l IH]; simpl; [by left|].
  destruct (f x); [right; by eauto|].
  destruct IH as [[-> ->]|(Hge & Hlook & Hsome)]; [by left|right].
  destruct (Z.eqb_spec (IndexFunc f l) (-1)); [lia|].
  split; [lia|]. split; [|done].
  replace (Z.to_nat (IndexFunc f l + 1)) with (S (Z.to_nat (IndexFunc f l))) by lia.
  done.
Qed.

(** When the gate is closed, [Reconcile] reads the Pod and does nothing
    else. *)
Lemma Reconcile_gate_closed `{!Client W} `{!MapOrder}
    (r : Controller) (now : Z) (req : ObjectKey) (pod : Pod) (w w1 : W) :
  GetPod req w = (Ok pod, w1) →
  ShouldRemediate r now pod = (false, 0%Z) →
  Reconcile r now req w = (Ok (mkResult false 0), w1, [EvGetPod req (Ok pod)]).
Proof.
  intros Hget Hgate. unfold Reconcile, Mbind, Mcall. rewrite Hget, Hgate. done.
Qed.

(** C7: a Pod whose Unschedulable condition has a message that neither
    begins with [0/N nodes are available] nor mentions [volume node
    affinity] is not eligible, whatever its other fields, the controller and
    the clock; and a pass for it only reads the Pod. *)
Theorem unrelated_message_never_remediates
    (r : Controller) (now : Z) (pod : Pod) :
  (∀ cond, unschedulableCondition pod = Some cond →
           ¬ nodesUnavailable (bytes (cond_Message cond))
           ∧ ¬ mentionsAffinity (bytes (cond_Message cond))) →
  ShouldRemediate r now pod = (false, 0%Z)
  ∧ ∀ W (C : Client W) (O : MapOrder) (req : ObjectKey) (w w1 : W),
      GetPod req w = (Ok pod, w1) →
      Reconcile r now req w
      = (Ok (mkResult false 0), w1, [EvGetPod req (Ok pod)]).
Proof.
  intros Hmsg.
  assert (ShouldRemediate r now pod = (false, 0%Z)) as Hgate.
  { unfold ShouldRemediate.
    destruct (match Selector r with Some sel => _ | None => _ end); [done|].
    destruct (match Filter r with Some filter => _ | None => _ end) as [[|]|]; try done.
    unfold unschedulableCondition in Hmsg.
    destruct (IndexFunc_find isUnschedulable (pod_Conditions pod))
      as [[-> _]|(Hge & Hlook & [cond Hcond])]; [done|].
    destruct (IndexFunc isUnschedulable (pod_Conditions pod) =? -1)%Z; [done|].
    simpl. destruct (negb (pvcUnbinderPredicate pod)); [done|].
    rewrite Hlook, Hcond.
    destruct (MatchString schedulingFailureRE (cond_Message cond)) eqn:Hre; [|done].
    apply schedulingFailureRE_spec in Hre. destruct (Hmsg cond Hcond). tauto. }
  split; [done|]. intros. by apply Reconcile_gate_closed.
Qed.

Lemma unrelated_message_witness :
  ShouldRemediate ex_controller (20 * Minute) ex_pod_quota = (false, 0%Z).
Proof.
  refine (proj1 (unrelated_message_never_remediates
                   ex_controller (20 * Minute) ex_pod_quota _)).
  intros cond [= <-]. apply no_match_neither. vm_compute. reflexivity.
Defined.

(** In the range where durations do not overflow, the delay is what is left
    of the Timeout. *)
Lemma ShouldRemediate_delay (r : Controller) (now : Z) (pod : Pod)
    (cond : PodCondition) :
  match Selector r with Some sel => sel (pod_Labels pod) = true | None => True end →
  match Filter r with Some filter => filter pod = Ok true | None => True end →
  pvcUnbinderPredicate pod = true →
  unschedulableCondition pod = Some cond →
  MatchString schedulingFailureRE (cond_Message cond) = true →
  let elapsed := (now - cond_LastTransitionTime cond)%Z in
  (minDuration ≤ elapsed ≤ maxDuration)%Z →
  (minDuration ≤ Timeout r - elapsed ≤ maxDuration)%Z →
  ShouldRemediate r now pod
  = if (elapsed <? Timeout r)%Z then (true, (Timeout r - elapsed)%Z)
    else (true, 0%Z).
Proof.
  intros Hsel Hfil Hpred Hcond Hre elapsed He Hd. unfold ShouldRemediate.
  destruct (Selector r); [rewrite Hsel|]; simpl.
  all: destruct (Filter r); [rewrite Hfil|]; simpl.
  all: unfold unschedulableCondition in Hcond.
  all: destruct (IndexFunc_find isUnschedulable (pod_Conditions pod))
         as [[_ Hnone]|(Hge & Hlook & _)]; [congruence|].
  all: destruct (Z.eqb_spec (IndexFunc isUnschedulable (pod_Conditions pod)) (-1));
         [lia|].
  all: rewrite Hpred, Hlook, Hcond, Hre; simpl.
  all: unfold Since, Sub; fold elapsed.
  all: unfold minDuration, maxDuration in *.
  all: destruct (Z.ltb_spec elapsed (- 2 ^ 63)); [lia|].
  all: destruct (Z.ltb_spec (2 ^ 63 - 1) elapsed); [lia|].
  all: unfold wrap64; rewrite Z.mod_small by lia.
  all: replace (Timeout r - elapsed + 2 ^ 63 - 2 ^ 63)%Z
         with (Timeout r - elapsed)%Z by lia.
  all: destruct (Z.ltb_spec 0 (Timeout r - elapsed)),
         (Z.ltb_spec elapsed (Timeout r)); (done || lia).
Qed.

(** C6, at a condition whose last transition lies 2^63 nanoseconds after the
    clock reading: the elapsed time is below the Timeout, and yet the check
    answers (true, 0), and the pass deletes the claim and the Pod. *)
Theorem future_transition_is_due_at_once :
  let now := 0%Z in
  let pod := ex_pod (2 ^ 63) in
  let store := mkStore {[ ex_key := pod ]} {[ ex_pvc_key := ex_pvc ]}
                       {[ "pv-x" := ex_pv ]} in
  unschedulableCondition pod = Some (ex_cond (2 ^ 63))
  ∧ (now - cond_LastTransitionTime (ex_cond (2 ^ 63)) < Timeout ex_controller)%Z
  ∧ ShouldRemediate ex_controller now pod = (true, 0%Z)
  ∧ run_world (Reconcile (order := listOrder) ex_controller now ex_key store)
    = mkStore ∅ ∅ {[ "pv-x" := apply_patch
                        (mkPatch (Some 5%nat) (Some "Retain") false) ex_pv ]}.
Proof. vm_compute. repeat split; reflexivity. Qed.

End eligibility_gate.

(** ** Reading a run of a computation *)

Section monad_facts.

Context {W E : Type}.

Lemma Mbind_inv {A B} (m : M W E A) (k : A → M W E B) w res w' tr :
  Mbind m k w = (res, w', tr) →
  (∃ e, m w = (Err e, w', tr) ∧ res = Err e)
  ∨ (∃ a w1 t1 t2, m w = (Ok a, w1, t1) ∧ k a w1 = (res, w', t2)
                   ∧ tr = t1 ++ t2).
Proof.
  unfold Mbind. destruct (m w) as [[[a|e] w1] t1].
  - destruct (k a w1) as [[r w2] t2] eqn:Hk. intros [= <- <- <-].
    right. by exists a, w1, t1, t2.
  - intros [= <- <- <-]. left. by exists e.
Qed.

Lemma Mcall_inv {A} (op : W → result A * W) (ev : result A → E) w res w' tr :
  Mcall op ev w = (res, w', tr) →
  ∃ r, op w = (r, w') ∧ res = Ok r ∧ tr = [ev r].
Proof.
  unfold Mcall. destruct (op w) as [r w1]. intros [= <- <- <-]. by exists r.
Qed.

Lemma Mtry_inv {A} (r : result A) (w : W) res w' (tr : list E) :
  Mtry r w = (res, w', tr) → res = r ∧ w' = w ∧ tr = [].
Proof. destruct r; intros [= <- <- <-]; done. Qed.

Lemma Mret_inv {A} (a : A) (w : W) res w' (tr : list E) :
  Mret a w = (res, w', tr) → res = Ok a ∧ w' = w ∧ tr = [].
Proof. by intros [= <- <- <-]. Qed.

Lemma Mfail_inv {A} e (w : W) (res : result A) w' (tr : list E) :
  Mfail e w = (res, w', tr) → res = Err e ∧ w' = w ∧ tr = [].
Proof. by intros [= <- <- <-]. Qed.

Lemma Mtell_inv (ev : E) (w : W) res w' (tr : list E) :
  Mtell ev w = (res, w', tr) → res = Ok tt ∧ w' = w ∧ tr = [ev].
Proof. by intros [= <- <- <-]. Qed.

Lemma run_world_bind {A B} (m : M W E A) (k : A → M W E B) w a w1 t1 :
  m w = (Ok a, w1, t1) → run_world (Mbind m k w) = run_world (k a w1).
Proof.
  intros Hm. unfold Mbind. rewrite Hm. by destruct (k a w1) as [[? ?] ?].
Qed.

Lemma run_world_call {A B} (op : W → result A * W) (ev : result A → E)
    (k : result A → M W E B) w r w1 :
  op w = (r, w1) → run_world (Mbind (Mcall op ev) k w) = run_world (k r w1).
Proof. intros Hop. eapply run_world_bind. unfold Mcall. by rewrite Hop. Qed.

End monad_facts.

(** Take a run apart, one step at a time. *)
Tactic Notation "mbind" hyp(H) "as" ident(H1) ident(H2) :=
  apply Mbind_inv in H as [(? & H1 & ->)|(? & ? & ? & ? & H1 & H2 & ->)].

Ltac mleaf H :=
  lazymatch type of H with
  | Mcall _ _ _ = _ =>
      let r := fresh "r" in
      apply Mcall_inv in H as (r & H & ? & ?); simplify_eq
  | Mtry _ _ = _ => apply Mtry_inv in H as (? & ? & ?); simplify_eq
  | Mret _ _ = _ => apply Mret_inv in H as (? & ? & ?); simplify_eq
  | Mfail _ _ = _ => apply Mfail_inv in H as (? & ? & ?); simplify_eq
  | Mtell _ _ = _ => apply Mtell_inv in H as (? & ? & ?); simplify_eq
  end.

Ltac notkind :=
  simpl; first [ tauto | by intros [? ?] | by intros ? [? ?] | done ].

Ltac one_event := constructor; [notkind|constructor].

Ltac shape_done :=
  repeat match goal with |- _ ∧ _ => split end;
  first [ reflexivity | done | by left | by intros _ | by eauto | idtac ].

(** ** The order of operations in a pass of the PVC unbinder *)

Section pass_order.

Import pvcunbinder.
Local Open Scope string_scope.
Local Open Scope list_scope.

Context {W : Type} {client : Client W} {order : MapOrder}.

Implicit Types (m : gmap ObjectKey (option PersistentVolumeClaim))
               (tr : list Event) (w : W).

Lemma fetchPVCs_run keys : ∀ m w res w' tr,
  fetchPVCs keys m w = (res, w', tr) →
  Forall isGetPVC tr
  ∧ ∀ m', res = Ok m' →
      ∀ key v, m' !! key = Some v → m !! key = Some v ∨ fetched tr key v.
Proof.
  induction keys as [|key keys IH]; intros m w res w' tr Hrun; simpl in Hrun.
  - mleaf Hrun. split; [constructor|]. intros ? [= <-]. auto.
  - mbind Hrun as Hget Hrest; [mleaf Hget|].
    mleaf Hget. destruct r as [pvc|e].
    + apply IH in Hrest as [Hall Hmap]. split; [by constructor|].
      intros m' -> k v Hk. destruct (Hmap _ eq_refl _ _ Hk) as [Hin|Hf].
      * rewrite lookup_insert in Hin. case_decide; simplify_eq; [|by left].
        right. simpl. by eapply GetPVC_key.
      * right. destruct v; simpl in *; [done|]. by apply list_elem_of_further.
    + destruct e; simpl in Hrest;
        try (mleaf Hrest; split; [by repeat constructor|done]).
      apply IH in Hrest as [Hall Hmap]. split; [by constructor|].
      intros m' -> k v Hk. destruct (Hmap _ eq_refl _ _ Hk) as [Hin|Hf].
      * rewrite lookup_insert in Hin. case_decide; simplify_eq; [|by left].
        right. simpl. apply list_elem_of_here.
      * right. destruct v; simpl in *; [done|]. by apply list_elem_of_further.
Qed.

(** The filter only removes candidates, and it keeps every Volume bound to a
    candidate that survives. *)
Lemma filterPVs_sub items : ∀ m pvs m1,
  filterPVs items m = (pvs, m1) →
  ∀ key v, m1 !! key = Some v → m !! key = Some v.
Proof.
  induction items as [|pv items IH]; intros m pvs m1 Hf key v Hk; simpl in Hf.
  - by simplify_eq.
  - destruct (pv_ClaimRef pv) as [k|]; [|by eapply IH].
    destruct (m !! k) eqn:Hmk; [|by eapply IH].
    destruct (_ || _).
    + eapply IH in Hf; [|done]. apply lookup_delete_Some in Hf as [_ ?]. done.
    + destruct (filterPVs items m) as [pvs' m'] eqn:Hrec. simplify_eq.
      by eapply IH.
Qed.


Lemma ensureRetainPolicy_run pv w res w' tr :
  ensureRetainPolicy pv w = (res, w', tr) →
  Forall isRetainStep tr
  ∧ (is_ok res = true → ∃ ev, ev ∈ tr ∧ ensuredRetain pv ev).
Proof.
  unfold ensureRetainPolicy. destruct (String.eqb _ _); intros Hrun.
  - mbind Hrun as Htell Hret; [mleaf Htell|].
    mleaf Htell. mleaf Hret. split; [by repeat constructor|].
    intros _. eexists. split; [apply list_elem_of_here|by left].
  - mbind Hrun as Hcall Htry; [mleaf Hcall|].
    mleaf Hcall. mleaf Htry. split; [by repeat constructor|].
    destruct r as [stored|]; [|done]. intros _.
    eexists. split; [apply list_elem_of_here|]. right. by exists stored.
Qed.

Lemma forEach_ensure_run pvs : ∀ w res w' tr,
  forEach ensureRetainPolicy pvs w = (res, w', tr) →
  Forall isRetainStep tr
  ∧ (is_ok res = true → ∀ pv, pv ∈ pvs → ∃ ev, ev ∈ tr ∧ ensuredRetain pv ev).
Proof.
  induction pvs as [|pv0 pvs IH]; intros w res w' tr Hrun; simpl in Hrun.
  - mleaf Hrun. split; [constructor|]. intros _ pv Hin.
    by apply elem_of_nil in Hin.
  - mbind Hrun as Hhead Htail.
    { apply ensureRetainPolicy_run in Hhead as [Hall _]. done. }
    apply ensureRetainPolicy_run in Hhead as [Hall0 Hev0].
    mbind Htail as Hrec Hret.
    { apply IH in Hrec as [Hall _]. split; [by apply Forall_app|done]. }
    apply IH in Hrec as [Hall Hev]. mleaf Hret.
    rewrite app_nil_r. split; [by apply Forall_app|].
    intros _ pv Hin. apply elem_of_cons in Hin as [->|Hin].
    + destruct (Hev0 eq_refl) as (ev & ? & ?). exists ev.
      split; [apply elem_of_app; by left|done].
    + destruct (Hev eq_refl pv Hin) as (ev & ? & ?). exists ev.
      split; [apply elem_of_app; by right|done].
Qed.

Lemma maybeRecycle_run r pv w res w' tr :
  maybeRecyclePersistentVolume r pv w = (res, w', tr) → Forall isPatch tr.
Proof.
  unfold maybeRecyclePersistentVolume. intros Hrun.
  destruct (_ && _); [mleaf Hrun; constructor|].
  destruct (negb _); [mleaf Hrun; constructor|].
  destruct (isNil _); [mleaf Hrun; constructor|].
  mbind Hrun as Hcall Htry; [mleaf Hcall|].
  mleaf Hcall. mleaf Htry. by repeat constructor.
Qed.

Lemma forEach_recycle_run r pvs : ∀ w res w' tr,
  forEach (maybeRecyclePersistentVolume r) pvs w = (res, w', tr) →
  Forall isPatch tr.
Proof.
  induction pvs as [|pv0 pvs IH]; intros w res w' tr Hrun; simpl in Hrun.
  - mleaf Hrun. constructor.
  - mbind Hrun as Hhead Htail; [by eapply maybeRecycle_run|].
    apply maybeRecycle_run in Hhead. mbind Htail as Hrec Hret.
    { apply IH in Hrec. by apply Forall_app. }
    apply IH in Hrec. mleaf Hret. rewrite app_nil_r.
    by apply Forall_app.
Qed.

(** The deletion loop only deletes claims that are entries of the map, and
    an entry it turns to nil is a claim whose deletion went through. *)
Lemma deleteBoundPVCs_run entries : ∀ m w res w' tr,
  deleteBoundPVCs entries m w = (res, w', tr) →
  Forall (λ ev, ∃ key pvc pre r,
            ev = EvDeletePVC pvc pre r ∧ (key, Some pvc) ∈ entries) tr
  ∧ ∀ m', res = Ok m' →
      ∀ key, m' !! key = Some None →
             m !! key = Some None ∨ pvcDeleted tr.
Proof.
  induction entries as [|[key [pvc|]] entries IH]; intros m w res w' tr Hrun;
    simpl in Hrun.
  - mleaf Hrun. split; [constructor|]. intros ? [= <-]. auto.
  - destruct (String.eqb _ _).
    + apply IH in Hrun as [Hall Hmap]. split; [|done].
      eapply Forall_impl; [done|]. intros ev (k & c & pre & r & -> & Hin).
      exists k, c, pre, r. split; [done|]. by apply list_elem_of_further.
    + mbind Hrun as Hcall Hrest; [mleaf Hcall|].
      mleaf Hcall. mbind Hrest as Htry Hrec.
      { mleaf Htry. split; [|done]. repeat constructor.
        eexists key, pvc, _, _. split; [done|]. apply list_elem_of_here. }
      mleaf Htry. apply IH in Hrec as [Hall Hmap]. split.
      * constructor.
        { eexists key, pvc, _, _. split; [done|]. apply list_elem_of_here. }
        simpl. eapply Forall_impl; [done|].
        intros ev (k & c & pre & r & -> & Hin).
        exists k, c, pre, r. split; [done|]. by apply list_elem_of_further.
      * intros m' -> k Hk. right.
        match goal with u : unit |- _ => destruct u end.
        eexists pvc, _. apply list_elem_of_here.
  - apply IH in Hrun as [Hall Hmap]. split; [|done].
    eapply Forall_impl; [done|]. intros ev (k & c & pre & r & -> & Hin).
    exists k, c, pre, r. split; [done|]. by apply list_elem_of_further.
Qed.

Lemma mapRange_lookup m key v :
  (key, v) ∈ mapRange m ↔ m !! key = Some v.
Proof. rewrite (mapRange_perm m). apply elem_of_map_to_list. Qed.

Lemma missingPVCs_true m :
  missingPVCs m = true → ∃ key, m !! key = Some None.
Proof.
  unfold missingPVCs. intros H. apply existsb_exists in H as ([key [pvc|]] & Hin & Hnil);
    [done|]. exists key. apply mapRange_lookup, list_elem_of_In, Hin.
Qed.

(** The record of the mutation sequence, phase by phase. *)
Lemma remediate_shape r pod w res w' tr :
  remediate r pod w = (res, w', tr) →
  ∃ t_fetch rest,
    tr = t_fetch ++ rest ∧ Forall isGetPVC t_fetch
    ∧ (rest = []
       ∨ (∃ e, rest = [EvListPV (Err e)])
       ∨ ∃ m0 pvList pvs m1 t_ens t_del t_rec t_pod,
           rest = EvListPV (Ok pvList) :: t_ens ++ t_del ++ t_rec ++ t_pod
           ∧ (∀ key v, m0 !! key = Some v → fetched t_fetch key v)
           ∧ filterPVs pvList m0 = (pvs, m1)
           ∧ Forall isRetainStep t_ens
           ∧ (t_del ++ t_rec ++ t_pod ≠ [] →
              ∀ pv, pv ∈ pvs → ∃ ev, ev ∈ t_ens ∧ ensuredRetain pv ev)
           ∧ Forall (λ ev, ∃ key pvc pre r,
                       ev = EvDeletePVC pvc pre r
                       ∧ m1 !! key = Some (Some pvc)) t_del
           ∧ Forall isPatch t_rec
           ∧ (t_pod = []
              ∨ ∃ r, t_pod = [EvDeletePod pod
                                (mkPre (pod_UID pod) (pod_ResourceVersion pod)) r]
                     ∧ (pvcDeleted t_del ∨ ∃ key, m1 !! key = Some None))).
Proof.
  unfold remediate. intros Hrun.
  mbind Hrun as Hfetch Hrest.
  { apply fetchPVCs_run in Hfetch as [Hall _].
    exists tr, []. rewrite app_nil_r. auto. }
  apply fetchPVCs_run in Hfetch as [Hall Hmap].
  eexists _, _. split; [reflexivity|]. split; [done|].
  match goal with H : context [size ?m] |- _ => rename m into m0 end.
  match goal with H : Forall isGetPVC ?t |- _ =>
    assert (∀ key v, m0 !! key = Some v → fetched t key v) as Hfetched end.
  { intros key v Hk. destruct (Hmap _ eq_refl _ _ Hk) as [Hk'|]; [|done].
    by rewrite lookup_empty in Hk'. }
  destruct (size m0 =? 0)%nat; [mleaf Hrest; by left|].
  mbind Hrest as Hlist Hrest'; [mleaf Hlist|].
  mleaf Hlist. mbind Hrest' as Htry Hrest; [mleaf Htry; right; left; eauto|].
  mleaf Htry. right. right.
  match goal with H : ListPV _ = (Ok ?l, _) |- _ => rename l into pvList end.
  destruct (filterPVs pvList m0) as [pvs m1] eqn:Hfilter.
  exists m0, pvList, pvs, m1. simpl.
  mbind Hrest as Hens Hrest'.
  { apply forEach_ensure_run in Hens as [Hens _].
    match type of Hens with Forall _ ?te => exists te, [], [], [] end.
    rewrite !app_nil_r. shape_done. }
  apply forEach_ensure_run in Hens as [Hens Hensured].
  specialize (Hensured eq_refl).
  assert (∀ entries, Forall (λ ev, ∃ key pvc pre r,
            ev = EvDeletePVC pvc pre r ∧ (key, Some pvc) ∈ mapRange m1) entries →
          Forall (λ ev, ∃ key pvc pre r,
            ev = EvDeletePVC pvc pre r ∧ m1 !! key = Some (Some pvc)) entries)
    as Hentries.
  { intros entries Hfa. eapply Forall_impl; [exact Hfa|].
    intros ev (k & c & pre & r0 & -> & Hin).
    exists k, c, pre, r0. split; [done|]. by apply mapRange_lookup. }
  mbind Hrest' as Hdel Hrest.
  { apply deleteBoundPVCs_run in Hdel as [Hdel _]. apply Hentries in Hdel.
    match type of Hens with Forall _ ?te =>
      match type of Hdel with Forall _ ?td => exists te, td, [], [] end end.
    rewrite !app_nil_r. shape_done. }
  apply deleteBoundPVCs_run in Hdel as [Hdel Hnil]. apply Hentries in Hdel.
  mbind Hrest as Hrec Hrest'.
  { apply forEach_recycle_run in Hrec.
    match type of Hens with Forall _ ?te =>
      match type of Hdel with Forall _ ?td =>
        match type of Hrec with Forall _ ?tr => exists te, td, tr, [] end end end.
    rewrite !app_nil_r. shape_done. }
  apply forEach_recycle_run in Hrec.
  match goal with H : context [missingPVCs ?m] |- _ => rename m into m2 end.
  destruct (missingPVCs m2) eqn:Hmiss; simpl in Hrest'.
  - apply missingPVCs_true in Hmiss as [key Hkey].
    match type of Hdel with Forall _ ?td =>
      assert (pvcDeleted td ∨ ∃ key, m1 !! key = Some None) as Hwhy end.
    { destruct (Hnil _ eq_refl _ Hkey); eauto. }
    mbind Hrest' as Hcall Hend; [mleaf Hcall|].
    mleaf Hcall. mbind Hend as Htry Hret.
    + mleaf Htry.
      match type of Hens with Forall _ ?te =>
        match type of Hdel with Forall _ ?td =>
          match type of Hrec with Forall _ ?tr =>
            eexists te, td, tr, [_] end end end.
      rewrite ?app_nil_r. shape_done.
    + mleaf Htry. mleaf Hret.
      match type of Hens with Forall _ ?te =>
        match type of Hdel with Forall _ ?td =>
          match type of Hrec with Forall _ ?tr =>
            eexists te, td, tr, [_] end end end.
      rewrite ?app_nil_r. shape_done.
  - mleaf Hrest'.
    match type of Hens with Forall _ ?te =>
      match type of Hdel with Forall _ ?td =>
        match type of Hrec with Forall _ ?tr => exists te, td, tr, [] end end end.
    rewrite ?app_nil_r. shape_done.
Qed.

Lemma Reconcile_shape r now req w res w' tr :
  Reconcile r now req w = (res, w', tr) →
  ∃ got rest,
    tr = EvGetPod req got :: rest
    ∧ (rest = []
       ∨ ∃ pod w1 res1 w2, got = Ok pod ∧ remediate r pod w1 = (res1, w2, rest)).
Proof.
  unfold Reconcile. intros Hrun. mbind Hrun as Hget Hrest; [mleaf Hget|].
  mleaf Hget. eexists _, _. split; [reflexivity|].
  destruct r0 as [pod|e].
  - destruct (ShouldRemediate r now pod) as [ok after].
    destruct (_ || _); [mleaf Hrest; by left|].
    right. eauto 10.
  - left. destruct (IsNotFound e); by mleaf Hrest.
Qed.



End pass_order.

Section data_safety.

Import pvcunbinder.
Local Open Scope string_scope.
Local Open Scope list_scope.




(** C2, as the code has it: in every pass, whatever the store answers, a
    deletion of the Pod carries the UID and resource version of the Pod as
    preconditions, and is issued only if a candidate claim was deleted
    earlier in the pass or was not found when the pass fetched it. *)
Theorem pod_delete_needs_missing_claim
    (W : Type) (client : Client W) (order : MapOrder)
    (r : Controller) (now : Z) (req : ObjectKey) (w : W) :
  ∀ pod pre res,
    EvDeletePod pod pre res ∈ run_trace (Reconcile r now req w) →
    pre = mkPre (pod_UID pod) (pod_ResourceVersion pod)
    ∧ (pvcDeleted (run_trace (Reconcile r now req w))
       ∨ pvcFoundMissing (run_trace (Reconcile r now req w))).
Proof.
  destruct (Reconcile r now req w) as [[res0 w'] tr] eqn:Hrun.
  unfold run_trace. simpl.
  apply Reconcile_shape in Hrun as (got & rest & -> & Hrest).
  intros pod pre res Hin.
  apply elem_of_cons in Hin as [?|Hin]; [done|].
  destruct Hrest as [->|(pod0 & w1 & res1 & w2 & -> & Hrem)];
    [by apply elem_of_nil in Hin|].
  apply remediate_shape in Hrem as (t_fetch & rest' & -> & Hfetch & Hcases).
  apply elem_of_app in Hin as [Hin|Hin].
  { eapply Forall_forall in Hfetch; [|done]. done. }
  destruct Hcases as [->|[[e ->]|Hfull]].
  { by apply elem_of_nil in Hin. }
  { by apply list_elem_of_singleton in Hin. }
  destruct Hfull as (m0 & pvList0 & pvs & m1 & t_ens & t_del & t_rec & t_pod
                     & -> & Hfetched & Hfilter & Hens & _ & Hdel & Hrec & Hpod).
  apply elem_of_cons in Hin as [?|Hin]; [done|].
  rewrite !elem_of_app in Hin. destruct Hin as [Hin|[Hin|[Hin|Hin]]].
  { eapply Forall_forall in Hens; [|done]. done. }
  { eapply Forall_forall in Hdel; [|done]. by destruct Hdel as (?&?&?&?&?&?). }
  { eapply Forall_forall in Hrec; [|done]. done. }
  destruct Hpod as [->|(r0 & -> & Hwhy)]; [by apply elem_of_nil in Hin|].
  apply list_elem_of_singleton in Hin as [= <- <- <-]. split; [done|].
  destruct Hwhy as [(pvc & pre' & Hd)|[key Hkey]].
  - left. exists pvc, pre'. apply list_elem_of_further, elem_of_app. right.
    apply list_elem_of_further. rewrite !elem_of_app. auto.
  - right. exists key. eapply filterPVs_sub in Hkey; [|done].
    apply Hfetched in Hkey. apply list_elem_of_further, elem_of_app. by left.
Qed.

Lemma pod_delete_witness :
  let tr := run_trace (Reconcile (order := listOrder) ex_controller
                                 (20 * Minute) ex_key ex_store) in
  mkPre "uid-pod" 7 = mkPre (pod_UID (ex_pod 0)) (pod_ResourceVersion (ex_pod 0))
  ∧ (pvcDeleted tr ∨ pvcFoundMissing tr).
Proof.
  intros tr.
  apply (pod_delete_needs_missing_claim Store storeClient listOrder
           ex_controller (20 * Minute) ex_key ex_store
           (ex_pod 0) (mkPre "uid-pod" 7) (Ok tt)).
  apply (list_elem_of_lookup_2 _ 5%nat). vm_compute. reflexivity.
Defined.

(** C2, as stated, fails when the claim of the Pod is already gone: the pass
    deletes no claim and deletes the Pod. *)
Lemma pod_delete_without_claim_delete_counterexample :
  let tr := run_trace (Reconcile (order := listOrder) ex_controller
                                 (20 * Minute) ex_key ex_store_no_pvc) in
  ¬ (podDeleteIssued tr → pvcDeleted tr).
Proof.
  intros tr Hclaim.
  assert (tr = [EvGetPod ex_key (Ok (ex_pod 0));
                EvGetPVC ex_pvc_key (Err ErrNotFound);
                EvListPV (Ok []);
                EvDeletePod (ex_pod 0) (mkPre "uid-pod" 7) (Ok tt)]) as Htr
    by (vm_compute; reflexivity).
  destruct Hclaim as (pvc & pre & Hin).
  - exists (ex_pod 0), (mkPre "uid-pod" 7), (Ok tt). rewrite Htr.
    do 3 apply list_elem_of_further. apply list_elem_of_here.
  - rewrite Htr in Hin. repeat (apply elem_of_cons in Hin as [?|Hin]; [done|]).
    by apply elem_of_nil in Hin.
Qed.

End data_safety.

(** ** A pass over the in-memory store *)

Section store_run.

Import pvcunbinder.
Local Open Scope string_scope.
Local Open Scope list_scope.

Implicit Types (s : Store) (pv cur : PersistentVolume)
               (m : gmap ObjectKey (option PersistentVolumeClaim)).

(** Reading the claims does not change the store, never fails, and depends
    on the claims of the store only. *)
Lemma store_fetchPVCs keys : ∀ m s s',
  pvcs s = pvcs s' →
  ∃ m' tr tr',
    fetchPVCs keys m s = (Ok m', s, tr)
    ∧ fetchPVCs keys m s' = (Ok m', s', tr')
    ∧ ∀ key v, m' !! key = Some v →
               m !! key = Some v ∨ v = pvc_at key <$> pvcs s !! key.
Proof.
  induction keys as [|key keys IH]; intros m s s' Heq; simpl.
  - exists m, [], []. repeat split. auto.
  - unfold Mbind, Mcall. simpl. unfold storeGetPVC. rewrite <- Heq.
    destruct (pvcs s !! key) as [c|] eqn:Hc; simpl.
    + destruct (IH (<[key:=Some (pvc_at key c)]> m) s s' Heq)
        as (m' & tr & tr' & -> & -> & Hchar).
      eexists m', _, _. repeat split. intros k v Hk.
      destruct (Hchar k v Hk) as [Hin|?]; [|by right].
      rewrite lookup_insert in Hin. case_decide; simplify_eq; [|by left].
      right. by rewrite Hc.
    + destruct (IH (<[key:=None]> m) s s' Heq)
        as (m' & tr & tr' & -> & -> & Hchar).
      eexists m', _, _. repeat split. intros k v Hk.
      destruct (Hchar k v Hk) as [Hin|?]; [|by right].
      rewrite lookup_insert in Hin. case_decide; simplify_eq; [|by left].
      right. by rewrite Hc.
Qed.

Lemma pv_at_name n pv : pv_Name (pv_at n pv) = n.
Proof. done. Qed.

Lemma pv_at_retained n cur : retained (pv_at n cur) = pv_at n (retained cur).
Proof. unfold retained. simpl. by destruct (String.eqb _ _). Qed.

Lemma pv_at_recycled r n cur : recycled r (pv_at n cur) = pv_at n (recycled r cur).
Proof.
  unfold recycled. simpl. destruct (negb _); [done|].
  by destruct (isNil (pv_ClaimRef cur)).
Qed.

(** One step on a Volume in sync with the store. *)
Lemma store_ensureRetainPolicy s pv cur :
  pvs s !! pv_Name pv = Some cur →
  pv = pv_at (pv_Name pv) cur →
  ∃ tr, ensureRetainPolicy pv s
        = (Ok (retained pv), set_pvs (<[pv_Name pv := retained cur]> (pvs s)) s, tr).
Proof.
  intros Hcur Hpv. unfold ensureRetainPolicy, retained.
  assert (pv_ReclaimPolicy pv = pv_ReclaimPolicy cur) as Hpol by (by rewrite Hpv).
  assert (pv_ResourceVersion pv = pv_ResourceVersion cur) as Hrv by (by rewrite Hpv).
  rewrite <- Hpol. destruct (String.eqb _ _) eqn:Hret.
  - eexists. unfold Mbind, Mtell, Mret. simpl. repeat f_equal.
    unfold set_pvs. rewrite insert_id by done. by destruct s.
  - eexists. unfold Mbind, Mcall, Mtry. simpl. unfold storePatchPV. simpl.
    rewrite Hcur. simpl. rewrite Hrv, Nat.eqb_refl. simpl.
    repeat f_equal. rewrite Hpv at 2. unfold apply_patch. simpl. done.
Qed.

Lemma store_maybeRecycle r s pv cur :
  isNil (pv_HostPath pv) && isNil (pv_Local pv) = false →
  pvs s !! pv_Name pv = Some cur →
  pv = pv_at (pv_Name pv) cur →
  ∃ tr, maybeRecyclePersistentVolume r pv s
        = (Ok (recycled r pv),
           set_pvs (<[pv_Name pv := recycled r cur]> (pvs s)) s, tr).
Proof.
  intros Hgood Hcur Hpv. unfold maybeRecyclePersistentVolume, recycled.
  rewrite Hgood.
  assert (pv_ClaimRef pv = pv_ClaimRef cur) as Href by (by rewrite Hpv).
  rewrite <- Href.
  assert (set_pvs (<[pv_Name pv:=cur]> (pvs s)) s = s) as Hid.
  { unfold set_pvs. rewrite insert_id by done. by destruct s. }
  destruct (negb _); [eexists; unfold Mret; by rewrite Hid|].
  destruct (isNil (pv_ClaimRef pv)); [eexists; unfold Mret; by rewrite Hid|].
  eexists. unfold Mbind, Mcall, Mtry. simpl. unfold storePatchPV. simpl.
  rewrite Hcur. simpl. repeat f_equal. rewrite Hpv at 2. done.
Qed.

Lemma inSync_pvs s s' pv : pvs s = pvs s' → inSync s pv → inSync s' pv.
Proof. unfold inSync. by intros ->. Qed.

(** A loop of steps, each on one Volume in sync with the store, the Volumes
    having distinct names. *)
Section each_volume.

Variable f : PersistentVolume → M Store Event PersistentVolume.
Variable g : PersistentVolume → PersistentVolume.
Variable Q : PersistentVolume → Prop.

Hypothesis g_at : ∀ n cur, g (pv_at n cur) = pv_at n (g cur).
Hypothesis f_step : ∀ s pv cur,
  Q pv → pvs s !! pv_Name pv = Some cur → pv = pv_at (pv_Name pv) cur →
  ∃ tr, f pv s = (Ok (g pv), set_pvs (<[pv_Name pv := g cur]> (pvs s)) s, tr).

Lemma store_forEach sel : ∀ s,
  NoDup (pv_Name <$> sel) → Forall Q sel → Forall (inSync s) sel →
  ∃ s' tr,
    forEach f sel s = (Ok (g <$> sel), s', tr)
    ∧ pods s' = pods s ∧ pvcs s' = pvcs s
    ∧ (∀ n, pvs s' !! n
            = if bool_decide (n ∈ pv_Name <$> sel) then g <$> pvs s !! n
              else pvs s !! n)
    ∧ Forall (inSync s') (g <$> sel).
Proof.
  induction sel as [|pv sel IH]; intros s Hnd HQ Hsync.
  - exists s, []. simpl. repeat split; constructor.
  - apply NoDup_cons in Hnd as [Hnotin Hnd].
    apply Forall_cons in HQ as [HQ0 HQ].
    apply Forall_cons in Hsync as [(cur & Hcur & Hpv) Hsync].
    destruct (f_step s pv cur HQ0 Hcur Hpv) as [t0 Hstep].
    set (s1 := set_pvs (<[pv_Name pv:=g cur]> (pvs s)) s) in *.
    assert (Forall (inSync s1) sel) as Hsync1.
    { apply Forall_forall. intros pv' Hin.
      eapply Forall_forall in Hsync as (cur' & Hcur' & Hpv'); [|done].
      exists cur'. split; [|done]. simpl. rewrite lookup_insert_ne; [done|].
      intros Heq. apply Hnotin. rewrite Heq. apply list_elem_of_fmap. eauto. }
    destruct (IH s1 Hnd HQ Hsync1) as (s' & tr & Hrun & Hpods & Hpvcs & Hpvs & Hs').
    exists s', (t0 ++ tr ++ []). simpl. unfold Mbind at 1. rewrite Hstep.
    unfold Mbind at 1. rewrite Hrun. unfold Mret.
    assert (pv_Name (g pv) = pv_Name pv) as Hname.
    { rewrite Hpv at 1. by rewrite g_at. }
    split; [done|]. split; [done|]. split; [done|]. split.
    + intros n. rewrite Hpvs. simpl.
      destruct (decide (n = pv_Name pv)) as [->|Hne].
      * rewrite bool_decide_eq_false_2 by done.
        rewrite bool_decide_eq_true_2 by apply list_elem_of_here.
        by rewrite lookup_insert_eq, Hcur.
      * rewrite lookup_insert_ne by done.
        destruct (bool_decide (n ∈ pv_Name <$> sel)) eqn:Hn.
        { apply bool_decide_eq_true in Hn. rewrite bool_decide_eq_true_2; [done|].
          by apply list_elem_of_further. }
        apply bool_decide_eq_false in Hn. rewrite bool_decide_eq_false_2; [done|].
        intros [?|?]%elem_of_cons; done.
    + constructor; [|done]. exists (g cur). rewrite Hname. split.
      * rewrite Hpvs. rewrite bool_decide_eq_false_2 by done. simpl.
        by rewrite lookup_insert_eq.
      * rewrite Hpv at 1. by rewrite g_at.
Qed.

End each_volume.

(** What the filter selects: Volumes of the list, HostPath or Local, with a
    claim reference. *)
Lemma filterPVs_selected items : ∀ m sel m1,
  filterPVs items m = (sel, m1) →
  sublist sel items
  ∧ Forall (λ pv, isNil (pv_HostPath pv) && isNil (pv_Local pv) = false
                  ∧ isNil (pv_NodeAffinity pv) = false
                  ∧ isNil (pv_ClaimRef pv) = false) sel.
Proof.
  induction items as [|pv items IH]; intros m sel m1 Hf; simpl in Hf.
  - simplify_eq. split; constructor.
  - destruct (pv_ClaimRef pv) as [k|] eqn:Href.
    2:{ apply IH in Hf as [? ?]. split; [by apply sublist_cons|done]. }
    destruct (m !! k).
    2:{ apply IH in Hf as [? ?]. split; [by apply sublist_cons|done]. }
    destruct (isNil (pv_NodeAffinity pv)) eqn:Hna; simpl in Hf.
    { apply IH in Hf as [? ?]. split; [by apply sublist_cons|done]. }
    destruct (isNil (pv_HostPath pv) && isNil (pv_Local pv)) eqn:Hhl.
    { apply IH in Hf as [? ?]. split; [by apply sublist_cons|done]. }
    destruct (filterPVs items m) as [sel' m'] eqn:Hrec. simplify_eq.
    apply IH in Hrec as [? ?]. split; [by apply sublist_skip|].
    constructor; [|done]. by rewrite Href.
Qed.

Lemma pvc_at_key key c : pvc_key (pvc_at key c) = key.
Proof. by destruct key. Qed.

(** The deletion loop over claims in sync with the store goes through. *)
Lemma store_deleteBoundPVCs entries : ∀ m s,
  NoDup entries.*1 →
  (∀ key pvc, (key, Some pvc) ∈ entries →
              ∃ held, pvcs s !! key = Some held ∧ pvc = pvc_at key held) →
  ∃ m2 s2 tr,
    deleteBoundPVCs entries m s = (Ok m2, s2, tr)
    ∧ pods s2 = pods s ∧ pvs s2 = pvs s
    ∧ (∀ key, m !! key = Some None → m2 !! key = Some None)
    ∧ (∀ key pvc, (key, Some pvc) ∈ entries → pvc_VolumeName pvc ≠ "" →
                  m2 !! key = Some None)
    ∧ ((∀ key pvc, (key, Some pvc) ∈ entries → pvc_VolumeName pvc = "") →
       m2 = m ∧ s2 = s).
Proof.
  induction entries as [|[key [pvc|]] entries IH]; intros m s Hnd Hsync; simpl.
  - exists m, s, []. repeat split; auto.
    intros ? ? Hin. by apply elem_of_nil in Hin.
  - apply NoDup_cons in Hnd as [Hnotin Hnd].
    assert (∀ s', (∀ k, k ≠ key → pvcs s' !! k = pvcs s !! k) →
            ∀ k c, (k, Some c) ∈ entries →
                   ∃ held, pvcs s' !! k = Some held ∧ c = pvc_at k held) as Hrest.
    { intros s' Hs' k c Hin. rewrite Hs'.
      - apply Hsync. by apply list_elem_of_further.
      - intros ->. apply Hnotin. apply list_elem_of_fmap. by exists (key, Some c). }
    destruct (String.eqb_spec (pvc_VolumeName pvc) "") as [Hunbound|Hbound].
    + destruct (IH m s Hnd (Hrest s (λ _ _, eq_refl)))
        as (m2 & s2 & tr & -> & Hpods & Hpvs & Hnone & Hdel & Hsame).
      exists m2, s2, tr. repeat split; auto.
      * intros k c [[= -> ->]|Hin]%elem_of_cons Hb; [done|]. eauto.
      * apply Hsame. intros k c Hin. eapply H. by apply list_elem_of_further.
      * apply Hsame. intros k c Hin. eapply H. by apply list_elem_of_further.
    + destruct (Hsync key pvc (list_elem_of_here _ _)) as (held & Hcur & Hpvc).
      set (s1 := mkStore (pods s) (delete key (pvcs s)) (pvs s)).
      destruct (IH (<[key:=None]> m) s1 Hnd) as
        (m2 & s2 & tr & Hrun & Hpods & Hpvs & Hnone & Hdel & _).
      { apply Hrest. intros k Hk. simpl. by rewrite lookup_delete_ne. }
      exists m2, s2. eexists.
      unfold Mbind at 1. unfold Mcall. simpl. unfold storeDeletePVC.
      rewrite Hpvc, pvc_at_key, Hcur. simpl.
      rewrite String.eqb_refl, Nat.eqb_refl. simpl.
      unfold Mbind at 1. simpl. fold s1. rewrite Hrun.
      repeat split; auto.
      * intros k Hk. apply Hnone. rewrite lookup_insert. by case_decide.
      * intros k c [[= -> ->]|Hin]%elem_of_cons Hb; [|by eauto].
        apply Hnone. by rewrite lookup_insert_eq.
      * exfalso. apply Hbound. rewrite Hpvc. eapply (H key). apply list_elem_of_here.
      * exfalso. apply Hbound. rewrite Hpvc. eapply (H key). apply list_elem_of_here.
  - apply NoDup_cons in Hnd as [Hnotin Hnd].
    destruct (IH m s Hnd) as (m2 & s2 & tr & -> & Hpods & Hpvs & Hnone & Hdel & Hsame).
    { intros k c Hin. apply Hsync. by apply list_elem_of_further. }
    exists m2, s2, tr. repeat split; auto.
    * intros k c [[=]|Hin]%elem_of_cons Hb. eauto.
    * apply Hsame. intros k c Hin. eapply H. by apply list_elem_of_further.
    * apply Hsame. intros k c Hin. eapply H. by apply list_elem_of_further.
Qed.

(** Changing the values of a map, each according to its key, does not change
    the order in which the map is enumerated. *)
Lemma map_to_list_imap_values {A} (g : string → A → A) (m : gmap string A) :
  map_to_list (map_imap (λ k v, Some (g k v)) m)
  = (λ kv, (kv.1, g kv.1 kv.2)) <$> map_to_list m.
Proof.
  set (mk := map_imap (λ k v, Some (k, v)) m).
  assert (m = snd <$> mk) as Hm.
  { apply map_eq. intros k. unfold mk. rewrite lookup_fmap, map_lookup_imap.
    by destruct (m !! k). }
  assert (map_imap (λ k v, Some (g k v)) m = (λ p, g p.1 p.2) <$> mk) as Hg.
  { apply map_eq. intros k. unfold mk. rewrite lookup_fmap, !map_lookup_imap.
    by destruct (m !! k). }
  rewrite Hg. rewrite Hm at 1. rewrite !map_to_list_fmap.
  rewrite <- list_fmap_compose. apply list_fmap_ext.
  intros i [k p] Hi. apply list_elem_of_lookup_2, elem_of_map_to_list in Hi.
  unfold mk in Hi. rewrite map_lookup_imap in Hi.
  destruct (m !! k); simpl in Hi; simplify_eq. done.
Qed.

Lemma retained_spec pv :
  pv_ReclaimPolicy (retained pv) = PersistentVolumeReclaimRetain
  ∧ pv_Name (retained pv) = pv_Name pv
  ∧ pv_ClaimRef (retained pv) = pv_ClaimRef pv
  ∧ pv_NodeAffinity (retained pv) = pv_NodeAffinity pv
  ∧ pv_HostPath (retained pv) = pv_HostPath pv
  ∧ pv_Local (retained pv) = pv_Local pv.
Proof.
  unfold retained. by destruct (String.eqb_spec (pv_ReclaimPolicy pv)
                                  PersistentVolumeReclaimRetain).
Qed.

Lemma recycled_off r pv : AllowRebinding r = false → recycled r pv = pv.
Proof. unfold recycled. by intros ->. Qed.

Lemma recycled_on r pv :
  AllowRebinding r = true → pv_ClaimRef (recycled r pv) = None.
Proof.
  unfold recycled. intros ->. simpl.
  by destruct (pv_ClaimRef pv) eqn:Href; simpl; [|rewrite Href].
Qed.

Lemma recycled_name r pv : pv_Name (recycled r pv) = pv_Name pv.
Proof.
  unfold recycled. destruct (negb _); [done|].
  by destruct (isNil (pv_ClaimRef pv)).
Qed.

(** The filter of a later pass, over the Volumes as an earlier pass left
    them ([N] tells which names the earlier pass had selected): it removes
    the same candidates, and selects only settled Volumes. *)
Lemma filterPVs_again r (N : string → bool) items : ∀ m sel m1,
  NoDup (pv_Name <$> items) →
  filterPVs items m = (sel, m1) →
  (∀ pv, pv ∈ items → (N (pv_Name pv) = true ↔ pv ∈ sel)) →
  ∃ sel',
    filterPVs ((λ pv, if N (pv_Name pv) then recycled r (retained pv) else pv)
                 <$> items) m = (sel', m1)
    ∧ Forall (settled r) sel'.
Proof.
  induction items as [|pv items IH]; intros m sel m1 Hnd Hf HN.
  - simpl in *. simplify_eq. exists []. split; [done|constructor].
  - rewrite fmap_cons in Hnd. apply NoDup_cons in Hnd as [Hnotin Hnd].
    rewrite fmap_cons. cbn [filterPVs] in *.
    assert (∀ m', filterPVs items m' = (sel, m1) →
              N (pv_Name pv) = false
              ∧ ∀ pv', pv' ∈ items → (N (pv_Name pv') = true ↔ pv' ∈ sel))
      as Hskip.
    { intros m' Hf'. split.
      - destruct (N (pv_Name pv)) eqn:HNp; [|done]. exfalso. apply Hnotin.
        apply HN in HNp; [|apply list_elem_of_here].
        apply filterPVs_selected in Hf' as [Hsub _].
        apply list_elem_of_fmap. exists pv. split; [done|].
        by eapply elem_of_sublist.
      - intros pv' Hin. apply HN. by apply list_elem_of_further. }
    destruct (pv_ClaimRef pv) as [k|] eqn:Href.
    2:{ destruct (Hskip _ Hf) as [HNp HN']. rewrite HNp, Href. by apply (IH _ sel). }
    destruct (m !! k) eqn:Hmk.
    2:{ destruct (Hskip _ Hf) as [HNp HN']. rewrite HNp, Href, Hmk. by apply (IH _ sel). }
    destruct (isNil (pv_NodeAffinity pv)
              || isNil (pv_HostPath pv) && isNil (pv_Local pv)) eqn:Hbad.
    { destruct (Hskip _ Hf) as [HNp HN']. rewrite HNp, Href, Hmk, Hbad.
      by apply (IH _ sel). }
    destruct (filterPVs items m) as [sel_t m'] eqn:Hrec. simplify_eq.
    assert (N (pv_Name pv) = true) as HNp by (apply HN; apply list_elem_of_here).
    rewrite HNp.
    assert (∀ pv', pv' ∈ items → (N (pv_Name pv') = true ↔ pv' ∈ sel_t)) as HN'.
    { intros pv' Hin. rewrite HN by (by apply list_elem_of_further).
      rewrite elem_of_cons. split; [intros [->|?]; [|done]|auto].
      exfalso. apply Hnotin. apply list_elem_of_fmap. eauto. }
    destruct (IH m sel_t m1 Hnd Hrec HN') as (sel' & Hf' & Hset).
    destruct (retained_spec pv) as (Hpol & _ & Hcr & Hna & Hhp & Hlo).
    destruct (AllowRebinding r) eqn:Hallow.
    + rewrite recycled_on by done. eauto.
    + rewrite recycled_off by done. rewrite Hcr, Href, Hmk, Hna, Hhp, Hlo, Hbad.
      rewrite Hf'. eexists. split; [done|]. constructor; [|done].
      apply orb_false_iff in Hbad as [_ Hhl]. unfold settled.
      by rewrite Hhp, Hlo.
Qed.

(** On settled Volumes the two loops over Volumes do nothing. *)
Lemma store_settled_step r pv s :
  settled r pv →
  ensureRetainPolicy pv s = (Ok pv, s, [EvRetainObserved pv])
  ∧ maybeRecyclePersistentVolume r pv s = (Ok pv, s, []).
Proof.
  intros (Hpol & Hallow & Hgood). split.
  - unfold ensureRetainPolicy. by rewrite Hpol.
  - unfold maybeRecyclePersistentVolume. by rewrite Hgood, Hallow.
Qed.

Lemma store_forEach_settled r sel s :
  Forall (settled r) sel →
  (∃ tr, forEach ensureRetainPolicy sel s = (Ok sel, s, tr))
  ∧ (∃ tr, forEach (maybeRecyclePersistentVolume r) sel s = (Ok sel, s, tr)).
Proof.
  induction 1 as [|pv sel Hpv _ [[t1 IH1] [t2 IH2]]].
  - split; by eexists.
  - destruct (store_settled_step r pv s Hpv) as [He Hr].
    split; eexists; cbn [forEach]; unfold Mbind.
    + rewrite He, IH1. reflexivity.
    + rewrite Hr, IH2. reflexivity.
Qed.

Lemma NoDup_fmap_inj {A B} (f : A → B) (l : list A) x y :
  NoDup (f <$> l) → x ∈ l → y ∈ l → f x = f y → x = y.
Proof.
  induction l as [|z l IH]; simpl; intros Hnd Hx Hy Hf.
  - by apply elem_of_nil in Hx.
  - apply NoDup_cons in Hnd as [Hz Hnd].
    apply elem_of_cons in Hx as [->|Hx]; apply elem_of_cons in Hy as [->|Hy];
      [done| | |by apply IH].
    + exfalso. apply Hz. rewrite Hf. by apply list_elem_of_fmap_2.
    + exfalso. apply Hz. rewrite <- Hf. by apply list_elem_of_fmap_2.
Qed.

(** The Volumes as the store lists them: distinct names, each in sync. *)
Lemma storeListPV_spec s :
  ∃ L, storeListPV s = (Ok L, s)
       ∧ L = (λ kv, pv_at kv.1 kv.2) <$> map_to_list (pvs s)
       ∧ NoDup (pv_Name <$> L)
       ∧ Forall (inSync s) L.
Proof.
  eexists. split; [reflexivity|]. split; [reflexivity|]. split.
  - rewrite <- list_fmap_compose.
    replace (pv_Name ∘ (λ kv, pv_at kv.1 kv.2)) with (@fst string PersistentVolume)
      by done.
    apply NoDup_fst_map_to_list.
  - apply Forall_forall. intros pv Hin.
    apply list_elem_of_fmap in Hin as ([n cur] & -> & Hin).
    apply elem_of_map_to_list in Hin. by exists cur.
Qed.

Lemma deleteBoundPVCs_unbound entries m s :
  Forall (λ kv, ∃ pvc, kv.2 = Some pvc ∧ pvc_VolumeName pvc = "") entries →
  deleteBoundPVCs entries m s = (Ok m, s, []).
Proof.
  induction 1 as [|[key v] entries (pvc & Hv & Hunbound) _ IH]; [done|].
  simpl in Hv. subst v. simpl. by rewrite Hunbound.
Qed.

Lemma missingPVCs_false (o : MapOrder) m :
  (∀ key v, m !! key = Some v → ∃ pvc, v = Some pvc ∧ pvc_VolumeName pvc = "") →
  missingPVCs (order := o) m = false.
Proof.
  intros Hall. destruct (missingPVCs m) eqn:Hmiss; [|done].
  apply missingPVCs_true in Hmiss as [key Hkey].
  by destruct (Hall _ _ Hkey) as (? & ? & _).
Qed.

(** A pass that finds every candidate claim present and unbound, and every
    selected Volume settled, leaves the store as it is. *)
Lemma store_remediate_quiet (o : MapOrder) r pod s m0 tr0 sel m1 :
  fetchPVCs (StsPVCs pod) ∅ s = (Ok m0, s, tr0) →
  filterPVs ((λ kv, pv_at kv.1 kv.2) <$> map_to_list (pvs s)) m0 = (sel, m1) →
  Forall (settled r) sel →
  (∀ key v, m1 !! key = Some v → ∃ pvc, v = Some pvc ∧ pvc_VolumeName pvc = "") →
  run_world (remediate (order := o) r pod s) = s.
Proof.
  intros Hfetch Hfilter Hset Hall. unfold remediate.
  erewrite run_world_bind by exact Hfetch.
  destruct (size m0 =? 0)%nat; [done|].
  erewrite run_world_call by reflexivity.
  erewrite run_world_bind by reflexivity.
  rewrite Hfilter.
  destruct (store_forEach_settled r sel s Hset) as [[t1 He] [t2 Hr]].
  erewrite run_world_bind by exact He.
  erewrite run_world_bind.
  2:{ apply deleteBoundPVCs_unbound. apply Forall_forall. intros [key v] Hin.
      apply mapRange_lookup in Hin. by apply (Hall key). }
  erewrite run_world_bind by exact Hr.
  by rewrite missingPVCs_false.
Qed.

Lemma missingPVCs_nil (o : MapOrder) m key :
  m !! key = Some None → missingPVCs (order := o) m = true.
Proof.
  intros Hkey. unfold missingPVCs. apply existsb_exists. exists (key, None).
  split; [|done]. by apply list_elem_of_In, mapRange_lookup.
Qed.

Lemma pod_at_key req p : pod_key (pod_at req p) = req.
Proof. by destruct req. Qed.

(** One pass over the store, from a Pod that the store holds: either the
    pass deletes the Pod, or it leaves a store on which a further pass
    changes nothing. *)
Lemma store_remediate (o1 : MapOrder) r req p s :
  pods s !! req = Some p →
  let s1 := run_world (remediate (order := o1) r (pod_at req p) s) in
  pods s1 !! req = None
  ∨ (pods s1 = pods s
     ∧ ∀ o2 : MapOrder,
         run_world (remediate (order := o2) r (pod_at req p) s1) = s1).
Proof.
  intros Hp s1. set (pod := pod_at req p) in *.
  assert (s1 = run_world (remediate (order := o1) r pod s)) as Hs1 by done.
  clearbody s1. unfold remediate in Hs1.
  destruct (store_fetchPVCs (StsPVCs pod) ∅ s s eq_refl)
    as (m0 & tr0 & _ & Hfetch & _ & Hchar).
  erewrite run_world_bind in Hs1 by exact Hfetch.
  destruct (size m0 =? 0)%nat eqn:Hsize.
  { subst s1. right. split; [done|]. intros o2. unfold remediate.
    erewrite run_world_bind by exact Hfetch. by rewrite Hsize. }
  destruct (storeListPV_spec s) as (L & HL & HLeq & HLnd & HLsync).
  erewrite run_world_call in Hs1 by exact HL.
  erewrite run_world_bind in Hs1 by reflexivity.
  destruct (filterPVs L m0) as [sel m1] eqn:Hfilter.
  destruct (filterPVs_selected _ _ _ _ Hfilter) as [Hsub Hgood].
  assert (NoDup (pv_Name <$> sel)) as Hnd.
  { eapply sublist_NoDup; [exact HLnd|]. by apply fmap_sublist. }
  assert (Forall (inSync s) sel) as Hsync.
  { apply Forall_forall. intros pv Hin. eapply Forall_forall in HLsync; [done|].
    by eapply elem_of_sublist. }
  (* step 2 *)
  destruct (store_forEach ensureRetainPolicy retained (λ _, True) pv_at_retained
              (λ s pv cur _, store_ensureRetainPolicy s pv cur) sel s Hnd)
    as (s_e & t_e & He & Hpods_e & Hpvcs_e & Hpvs_e & Hsync_e);
    [by apply Forall_true|done|].
  erewrite run_world_bind in Hs1 by exact He.
  (* step 3 *)
  destruct (store_deleteBoundPVCs (mapRange m1) m1 s_e)
    as (m2 & s_d & t_d & Hd & Hpods_d & Hpvs_d & Hnone & Hdel & Hsame).
  { rewrite (mapRange_perm m1). apply NoDup_fst_map_to_list. }
  { intros key pvc Hin. apply mapRange_lookup in Hin.
    eapply filterPVs_sub in Hin; [|done].
    destruct (Hchar _ _ Hin) as [Hemp|Hv]; [by rewrite lookup_empty in Hemp|].
    rewrite Hpvcs_e. destruct (pvcs s !! key) as [held|]; simpl in Hv; simplify_eq.
    by exists held. }
  erewrite run_world_bind in Hs1 by exact Hd.
  (* step 4 *)
  assert (pv_Name <$> (retained <$> sel) = pv_Name <$> sel) as Hnames.
  { rewrite <- list_fmap_compose. apply list_fmap_ext. intros i pv _. simpl.
    apply retained_spec. }
  destruct (store_forEach (maybeRecyclePersistentVolume r) (recycled r)
              (λ pv, isNil (pv_HostPath pv) && isNil (pv_Local pv) = false)
              (pv_at_recycled r) (store_maybeRecycle r) (retained <$> sel) s_d)
    as (s_r & t_r & Hr & Hpods_r & Hpvcs_r & Hpvs_r & _).
  { by rewrite Hnames. }
  { apply Forall_fmap. eapply Forall_impl; [exact Hgood|].
    intros pv (Hg & _). simpl.
    destruct (retained_spec pv) as (_ & _ & _ & _ & -> & ->). done. }
  { eapply Forall_impl; [exact Hsync_e|]. intros pv. by apply inSync_pvs. }
  erewrite run_world_bind in Hs1 by exact Hr.
  destruct (missingPVCs m2) eqn:Hmiss; cbn [negb] in Hs1.
  - (* step 5: the Pod is deleted *)
    left. erewrite run_world_call in Hs1.
    2:{ simpl. unfold storeDeletePod. simpl. unfold pod. rewrite pod_at_key.
        rewrite Hpods_r, Hpods_d, Hpods_e, Hp. simpl.
        rewrite String.eqb_refl, Nat.eqb_refl. reflexivity. }
    subst s1. simpl. destruct req. apply lookup_delete_eq.
  - (* nothing was missing: no claim was deleted *)
    assert (∀ key v, m1 !! key = Some v →
                     ∃ pvc, v = Some pvc ∧ pvc_VolumeName pvc = "") as Hall.
    { intros key [pvc|] Hk.
      - destruct (String.eqb_spec (pvc_VolumeName pvc) "") as [|Hne]; [by eauto|].
        exfalso. apply mapRange_lookup in Hk.
        specialize (Hdel key pvc Hk Hne).
        apply (missingPVCs_nil o1) in Hdel. congruence.
      - exfalso. apply Hnone in Hk. apply (missingPVCs_nil o1) in Hk. congruence. }
    destruct Hsame as [-> ->].
    { intros key pvc Hin. apply mapRange_lookup in Hin.
      destruct (Hall _ _ Hin) as (? & [= <-] & ?). done. }
    change (run_world (Mret emptyResult s_r)) with s_r in Hs1. subst s1.
    right. split; [by rewrite Hpods_r, Hpods_e|]. intros o2.
    (* the claims are as before *)
    destruct (store_fetchPVCs (StsPVCs pod) ∅ s s_r) as (m0' & ? & tr0' & Hf1 & Hf2 & _).
    { by rewrite Hpvcs_r, Hpvcs_e. }
    rewrite Hfetch in Hf1. injection Hf1 as <- _.
    (* the Volumes are the ones listed before, as this pass left them *)
    set (N := λ n : string, bool_decide (n ∈ pv_Name <$> sel)).
    assert (pvs s_r = map_imap (λ n cur, Some (if N n then recycled r (retained cur)
                                               else cur)) (pvs s)) as Hpvs.
    { apply map_eq. intros n. rewrite map_lookup_imap, Hpvs_r, Hnames.
      rewrite Hpvs_e. unfold N. destruct (bool_decide _); by destruct (pvs s !! n). }
    assert ((λ kv, pv_at kv.1 kv.2) <$> map_to_list (pvs s_r)
            = (λ pv, if N (pv_Name pv) then recycled r (retained pv) else pv) <$> L)
      as HL2.
    { rewrite Hpvs, map_to_list_imap_values, HLeq, <- !list_fmap_compose.
      apply list_fmap_ext. intros i [n cur] _. simpl.
      destruct (N n); [|done]. by rewrite pv_at_retained, pv_at_recycled. }
    destruct (filterPVs_again r N L m0 sel m1 HLnd Hfilter) as (sel' & Hf' & Hset).
    { intros pv Hin. unfold N. rewrite bool_decide_eq_true. split.
      - intros (pv' & Hn & Hin')%list_elem_of_fmap.
        assert (pv' = pv) as <-; [|done].
        eapply (NoDup_fmap_inj pv_Name L); [done| |done..].
        by eapply elem_of_sublist.
      - apply list_elem_of_fmap_2. }
    eapply store_remediate_quiet; [exact Hf2| |exact Hset|exact Hall].
    by rewrite HL2.
Qed.

Lemma store_Reconcile (o : MapOrder) r now req s :
  run_world (Reconcile (order := o) r now req s)
  = match pods s !! req with
    | None => s
    | Some p =>
        if negb (ShouldRemediate r now (pod_at req p)).1
           || (0 <? (ShouldRemediate r now (pod_at req p)).2)%Z
        then s
        else run_world (remediate (order := o) r (pod_at req p) s)
    end.
Proof.
  unfold Reconcile. destruct (pods s !! req) as [p|] eqn:Hp.
  - erewrite run_world_call by (simpl; unfold storeGetPod; by rewrite Hp).
    cbv beta. simpl.
    destruct (ShouldRemediate r now (pod_at req p)) as [ok after]. simpl.
    by destruct (negb ok || (0 <? after)%Z).
  - by erewrite run_world_call by (simpl; unfold storeGetPod; by rewrite Hp).
Qed.

(** C5: over the in-memory store, a second pass for the same Pod leaves the
    store as the first pass left it, whatever the order in which either pass
    ranges over its map: with the same clock reading, and, when the first
    pass ran the mutation sequence, with any clock reading. *)
Theorem Reconcile_twice_is_once
    (o1 o2 : MapOrder) (r : Controller) (now : Z) (req : ObjectKey) (s : Store) :
  let once := run_world (Reconcile (order := o1) r now req s) in
  run_world (Reconcile (order := o2) r now req once) = once
  ∧ ∀ p now',
      pods s !! req = Some p →
      ShouldRemediate r now (pod_at req p) = (true, 0%Z) →
      run_world (Reconcile (order := o2) r now' req once) = once.
Proof.
  intros once. unfold once. rewrite (store_Reconcile o1). split.
  - destruct (pods s !! req) as [p|] eqn:Hp.
    + destruct (negb _ || _) eqn:Hgate.
      * rewrite store_Reconcile, Hp, Hgate. done.
      * destruct (store_remediate o1 r req p s Hp) as [Hgone|[Hpods Hquiet]].
        { rewrite store_Reconcile, Hgone. done. }
        rewrite store_Reconcile, Hpods, Hp, Hgate. apply Hquiet.
    + rewrite store_Reconcile, Hp. done.
  - intros p now' Hp Hgate. rewrite Hp, Hgate. simpl.
    destruct (store_remediate o1 r req p s Hp) as [Hgone|[Hpods Hquiet]].
    { rewrite store_Reconcile, Hgone. done. }
    rewrite store_Reconcile, Hpods, Hp.
    destruct (negb _ || _); [done|]. apply Hquiet.
Qed.

Lemma Reconcile_twice_witness :
  run_world (Reconcile (order := listOrder) ex_controller (40 * Minute) ex_key
               (run_world (Reconcile (order := listOrder) ex_controller
                             (20 * Minute) ex_key ex_store)))
  = run_world (Reconcile (order := listOrder) ex_controller (20 * Minute)
                 ex_key ex_store).
Proof.
  refine (proj2 (Reconcile_twice_is_once listOrder listOrder ex_controller
                   (20 * Minute) ex_key ex_store) (ex_pod 0) (40 * Minute) _ _).
  - vm_compute. reflexivity.
  - vm_compute. reflexivity.
Defined.

End store_run.

Ltac kinds := intros []; simpl; tauto.

(** Take apart a run that is known to have succeeded. *)
Tactic Notation "mbindok" hyp(H) "as" ident(H1) ident(H2) :=
  apply Mbind_inv in H as [(? & _ & [=])|(? & ? & ? & ? & H1 & H2 & ->)].

(** Take apart a run that is known to have failed. *)
Tactic Notation "mbinderr" hyp(H) "as" ident(H1) ident(H2) :=
  apply Mbind_inv in H as [(? & H1 & [= <-])|(? & ? & ? & ? & H1 & H2 & ->)].

(** ** The cluster reconciler: garbage collection *)

Section garbage_collection.

Import redpanda.
Local Open Scope string_scope.
Local Open Scope list_scope.

Context {env : Env} {W : Type} {client : Client W}.

Implicit Types (rp : Redpanda) (obj : Object) (created : gset gvkKey)
               (tr : list Event) (w : W).

Lemma isOwnedBy_ownedBy rp obj : isOwnedBy rp obj = true → ownedBy rp obj.
Proof.
  unfold isOwnedBy, ownedBy. intros Hidx.
  destruct (IndexFunc_find (λ owner, String.eqb (or_UID owner) (rp_UID rp))
              (obj_OwnerReferences obj)) as [[Hneg _]|(_ & _ & [owner Hfind])].
  - rewrite Hneg in Hidx. done.
  - apply find_some in Hfind as [Hin Heq]. exists owner.
    split; [by apply list_elem_of_In|]. by apply String.eqb_eq.
Qed.

(** What the callback adds to the objects to delete. *)
Lemma eachListItem_adds rp created items : ∀ toDelete result,
  eachListItem rp created items toDelete = Ok result →
  ∀ obj, obj ∈ result →
    obj ∈ toDelete
    ∨ (obj ∈ items ∧ ownedBy rp obj
       ∧ ∃ key, hasKey obj key ∧ key ∉ created).
Proof.
  induction items as [|item items IH]; intros toDelete result Hrun obj Hin;
    simpl in Hrun.
  - simplify_eq. by left.
  - destruct (GroupVersionKindFor (obj_GoType item)) as [gvk|] eqn:Hgvk; [|done].
    destruct (bool_decide _) eqn:Hcreated.
    { destruct (IH _ _ Hrun obj Hin) as [?|(? & ?)]; [by left|right].
      split; [by apply list_elem_of_further|done]. }
    destruct (isOwnedBy rp item) eqn:Howned; simpl in Hrun.
    2:{ destruct (IH _ _ Hrun obj Hin) as [?|(? & ?)]; [by left|right].
        split; [by apply list_elem_of_further|done]. }
    destruct (IH _ _ Hrun obj Hin) as [Hold|(? & ?)].
    + apply elem_of_app in Hold as [?|Hnew]; [by left|right].
      apply list_elem_of_singleton in Hnew as ->.
      split; [apply list_elem_of_here|]. split; [by apply isOwnedBy_ownedBy|].
      exists (mkGvkKey gvk (ObjectKeyFromObject item)). split; [by split|].
      by apply bool_decide_eq_false in Hcreated.
    + right. split; [by apply list_elem_of_further|done].
Qed.

Lemma collectGarbage_run rp created types : ∀ toDelete w res w' tr,
  collectGarbage rp created types toDelete w = (res, w', tr) →
  Forall isListEvent tr
  ∧ ∀ result, res = Ok result →
      ∀ obj, obj ∈ result →
        obj ∈ toDelete
        ∨ (listed rp tr obj ∧ ownedBy rp obj
           ∧ ∃ key, hasKey obj key ∧ key ∉ created).
Proof.
  induction types as [|typ types IH]; intros toDelete w res w' tr Hrun;
    simpl in Hrun.
  - mleaf Hrun. split; [constructor|]. intros ? [= <-]. auto.
  - mbind Hrun as Hlist Hrest; [mleaf Hlist|].
    mleaf Hlist. destruct r as [items|e].
    + mbind Hrest as Htry Hrec.
      { mleaf Htry. split; [by repeat constructor|done]. }
      mleaf Htry. apply IH in Hrec as [Hall Hres]. split; [by constructor|].
      intros result -> obj Hin.
      destruct (Hres _ eq_refl obj Hin) as [Hold|(Hl & ?)].
      * match goal with H : Ok _ = eachListItem _ _ _ _ |- _ =>
          symmetry in H;
          destruct (eachListItem_adds _ _ _ _ _ H obj Hold) as [?|(Hitem & ?)] end;
          [by left|right].
        split; [|done]. exists typ, items. split; [apply list_elem_of_here|done].
      * right. split; [|done]. destruct Hl as (typ' & l & ? & ?).
        exists typ', l. split; [by apply list_elem_of_further|done].
    + destruct (IsNoMatchError e).
      * apply IH in Hrest as [Hall Hres]. split; [by constructor|].
        intros result -> obj Hin.
        destruct (Hres _ eq_refl obj Hin) as [?|(Hl & ?)]; [by left|right].
        split; [|done]. destruct Hl as (typ' & l & ? & ?).
        exists typ', l. split; [by apply list_elem_of_further|done].
      * mleaf Hrest. split; [by repeat constructor|done].
Qed.

Lemma deleteAll_run toDelete : ∀ errs w res w' tr,
  deleteAll toDelete errs w = (res, w', tr) →
  Forall (λ ev, ∃ obj r, ev = EvDelete obj r ∧ obj ∈ toDelete) tr.
Proof.
  induction toDelete as [|obj toDelete IH]; intros errs w res w' tr Hrun;
    simpl in Hrun.
  - mleaf Hrun. constructor.
  - mbind Hrun as Hcall Hrest; [mleaf Hcall|].
    mleaf Hcall.
    match type of Hrest with _ = (_, _, ?t) => rename t into t_rest end.
    assert (Forall (λ ev, ∃ obj0 r0, ev = EvDelete obj0 r0 ∧ obj0 ∈ toDelete)
                   t_rest)
      as Hall by (destruct r; by eapply IH).
    constructor.
    + eexists obj, _. split; [done|apply list_elem_of_here].
    + eapply Forall_impl; [exact Hall|]. intros ev (o & r0 & -> & ?).
      exists o, r0. split; [done|by apply list_elem_of_further].
Qed.

(** The garbage collection deletes only objects it has listed under the
    labels of the release, that are owned by the cluster and whose key is
    not in the expected set. *)
Lemma reconcileDefluxGC_sound rp created w :
  ∀ obj, deletes (run_trace (reconcileDefluxGC rp created w)) obj →
    listed rp (run_trace (reconcileDefluxGC rp created w)) obj
    ∧ ownedBy rp obj
    ∧ ∃ key, hasKey obj key ∧ key ∉ created.
Proof.
  destruct (reconcileDefluxGC rp created w) as [[res w'] tr] eqn:Hrun.
  unfold run_trace. simpl. intros obj [r Hdel].
  unfold reconcileDefluxGC in Hrun.
  mbind Hrun as Htypes Hrest; [mleaf Htypes; by apply elem_of_nil in Hdel|].
  mleaf Htypes. simpl in Hdel.
  mbind Hrest as Hcollect Hrest'.
  { apply collectGarbage_run in Hcollect as [Hall _].
    eapply Forall_forall in Hall; [|done]. done. }
  apply collectGarbage_run in Hcollect as [Hall Hres].
  match type of Hall with Forall _ ?t => rename t into t_collect end.
  match type of Hrest' with _ ?w0 = (_, _, ?t) =>
    rename t into t_rest; rename w0 into w_collect end.
  match type of Hres with ∀ _, Ok ?l = _ → _ => rename l into toDelete end.
  assert (∀ t, Forall (λ ev, ∃ o r0, ev = EvDelete o r0 ∧ o ∈ toDelete) t →
               EvDelete obj r ∈ t_collect ++ t →
               listed rp (t_collect ++ t) obj ∧ ownedBy rp obj
               ∧ ∃ key, hasKey obj key ∧ key ∉ created) as Hmain.
  { intros t Ht [Hin|Hin]%elem_of_app.
    { eapply Forall_forall in Hall; [|done]. done. }
    rewrite Forall_forall in Ht. destruct (Ht _ Hin) as (o & r0 & Heq & Ho).
    injection Heq as <- <-.
    destruct (Hres _ eq_refl obj Ho) as [Hnil|((typ & l & ? & ?) & ?)];
      [by apply elem_of_nil in Hnil|].
    split; [|done]. exists typ, l. split; [|done]. apply elem_of_app. by left. }
  mbind Hrest' as Hdelete Hend.
  { apply deleteAll_run in Hdelete. by apply Hmain. }
  apply deleteAll_run in Hdelete.
  match type of Hend with _ = (_, _, ?t) => assert (t = []) as -> end.
  { match type of Hend with context [match ?e with [] => _ | _ => _ end] =>
      destruct e end; by mleaf Hend. }
  rewrite app_nil_r in *. by apply Hmain.
Qed.

Lemma deleteAll_kind toDelete errs w res w' tr :
  deleteAll toDelete errs w = (res, w', tr) → Forall isDeleteEvent tr.
Proof.
  intros Hrun. apply deleteAll_run in Hrun.
  eapply Forall_impl; [exact Hrun|]. by intros ? (? & ? & -> & _).
Qed.

Lemma reconcileDefluxGC_events rp created w res w' tr :
  reconcileDefluxGC rp created w = (res, w', tr) →
  Forall (λ ev, ¬ isApplyEvent ev) tr.
Proof.
  unfold reconcileDefluxGC. intros Hrun.
  mbind Hrun as Htypes Hrest; [mleaf Htypes; constructor|].
  mleaf Htypes. simpl.
  mbind Hrest as Hcollect Hrest'.
  { apply collectGarbage_run in Hcollect as [Hall _].
    eapply Forall_impl; [exact Hall|]. kinds. }
  apply collectGarbage_run in Hcollect as [Hall _].
  apply Forall_app. split; [eapply Forall_impl; [exact Hall|]; kinds|].
  mbind Hrest' as Hdelete Hend.
  { apply deleteAll_kind in Hdelete.
    eapply Forall_impl; [exact Hdelete|]. kinds. }
  apply deleteAll_kind in Hdelete. apply Forall_app. split.
  { eapply Forall_impl; [exact Hdelete|]. kinds. }
  match type of Hend with context [match ?e with [] => _ | _ => _ end] =>
    destruct e end; mleaf Hend; constructor.
Qed.

Lemma apply_run obj w res w' tr :
  apply obj w = (res, w', tr) →
  Forall isApplyEvent tr
  ∧ ∀ answer, res = Ok answer → ∃ sent, tr = [EvApply sent (Ok answer)].
Proof.
  unfold apply. intros Hrun.
  mbind Hrun as Hgvk Hrest; [mleaf Hgvk; split; [constructor|done]|].
  mleaf Hgvk. simpl.
  mbind Hrest as Hcall Htry; [mleaf Hcall|].
  mleaf Hcall. mleaf Htry. split; [by repeat constructor|].
  intros answer ->. by eexists.
Qed.

(** The expected set holds the key of the answer to every apply of the
    loop. *)
Lemma applyAll_run rp objs : ∀ created w res w' tr,
  applyAll rp objs created w = (res, w', tr) →
  Forall isApplyEvent tr
  ∧ ∀ created', res = Ok created' →
      created ⊆ created'
      ∧ ∀ sent answer, applied tr sent answer → recordedKey answer ∈ created'.
Proof.
  induction objs as [|obj objs IH]; intros created w res w' tr Hrun;
    simpl in Hrun.
  - mleaf Hrun. split; [constructor|]. intros ? [= <-]. split; [done|].
    intros sent answer Hin. by apply elem_of_nil in Hin.
  - destruct (_ !! "helm.sh/hook"); [by apply IH in Hrun|].
    mbind Hrun as Happly Hrest.
    { apply apply_run in Happly as [Hall _]. done. }
    apply apply_run in Happly as [Hall Htr].
    destruct (Htr _ eq_refl) as [sent0 ->].
    apply IH in Hrest as [Hall' Hres]. split; [by apply Forall_app|].
    intros created' ->. destruct (Hres _ eq_refl) as [Hsub Happlied].
    split; [intros k Hk; apply Hsub, elem_of_union; by right|].
    intros sent answer [Hin|Hin]%elem_of_app; [|by eapply Happlied].
    apply list_elem_of_singleton in Hin as [= -> ->].
    apply Hsub, elem_of_union. left. by apply elem_of_singleton.
Qed.

(** The record of the de-fluxed sync: what the apply loop did (or the
    warning about the chart version), then what the garbage collection did,
    if it ran. *)
Lemma reconcileDefluxed_shape rp w res w' tr :
  reconcileDefluxed rp w = (res, w', tr) →
  ∃ t_apply t_gc,
    tr = t_apply ++ t_gc
    ∧ Forall (λ ev, ¬ isDeleteEvent ev) t_apply
    ∧ (t_gc = []
       ∨ ∃ created w1 res1 w2,
           reconcileDefluxGC rp created w1 = (res1, w2, t_gc)
           ∧ (∀ sent answer, applied t_apply sent answer →
                             recordedKey answer ∈ created)
           ∧ (rp_UseFlux rp = Some false)
           ∧ ((rp_Generation rp =? st_ObservedGeneration (rp_Status rp))%Z
              && negb (rp_Generation rp =? 0)%Z = false)).
Proof.
  unfold reconcileDefluxed. intros Hrun.
  destruct (rp_UseFlux rp) as [[|]|] eqn:Hflux; simpl in Hrun;
    try (mleaf Hrun; exists [], []; split; [done|]; split; [constructor|by left]).
  destruct (negb _).
  { mbind Hrun as Htell Hret; [mleaf Htell|].
    mleaf Htell. mleaf Hret. eexists [_], []. split; [done|].
    split; [one_event|by left]. }
  mbind Hrun as Hrender Hrest.
  { mleaf Hrender. exists [], []. split; [done|]. split; [constructor|by left]. }
  mleaf Hrender. simpl. mbind Hrest as Happly Hrest'.
  { apply applyAll_run in Happly as [Hall _]. eexists _, [].
    rewrite app_nil_r. split; [done|]. split; [|by left].
    eapply Forall_impl; [exact Hall|]. kinds. }
  apply applyAll_run in Happly as [Hall Hres].
  destruct (Hres _ eq_refl) as [_ Happlied].
  match type of Hall with Forall _ ?t =>
    assert (Forall (λ ev, ¬ isDeleteEvent ev) t) as Hnodel end.
  { eapply Forall_impl; [exact Hall|]. kinds. }
  destruct (_ && _) eqn:Hskip.
  { mleaf Hrest'. eexists _, []. split; [done|]. split; [done|by left]. }
  mbind Hrest' as Hgc Hret.
  - eexists _, _. split; [done|]. split; [done|]. right. eauto 10.
  - mleaf Hret. rewrite app_nil_r. eexists _, _. split; [done|].
    split; [done|]. right. eauto 10.
Qed.

End garbage_collection.

Section sync_pass.

Import redpanda.
Local Open Scope string_scope.
Local Open Scope list_scope.

(** C3: in every sync pass, whatever the store answers, an object is deleted
    only if the pass listed it under the release-identity labels in the
    namespace of the cluster, it carries an owner reference with the UID of
    the cluster, and its (kind, namespaced name) key differs from the key
    that the pass recorded for every object it applied, which is the key of
    the object as the store answered the apply: no object recorded into the
    expected set of the pass is deleted in it. *)
Theorem gc_deletes_only_owned_unexpected
    (env : Env) (W : Type) (client : Client W) (rp : Redpanda) (w : W)
    (obj : Object) :
  deletes (run_trace (reconcileDefluxed rp w)) obj →
  listed rp (run_trace (reconcileDefluxed rp w)) obj
  ∧ ownedBy rp obj
  ∧ ∃ key, hasKey obj key
           ∧ ∀ sent answer,
               applied (run_trace (reconcileDefluxed rp w)) sent answer →
               recordedKey answer ≠ key.
Proof.
  destruct (reconcileDefluxed rp w) as [[res w'] tr] eqn:Hrun.
  unfold run_trace. simpl.
  apply reconcileDefluxed_shape in Hrun
    as (t_apply & t_gc & -> & Hnodel & Hgc).
  intros [r Hdel]. apply elem_of_app in Hdel as [Hdel|Hdel].
  { eapply Forall_forall in Hnodel; [|done]. done. }
  destruct Hgc as [->|(created & w1 & res1 & w2 & Hgc & Hrecorded & _)];
    [by apply elem_of_nil in Hdel|].
  pose proof (reconcileDefluxGC_sound rp created w1 obj) as Hsound.
  pose proof (reconcileDefluxGC_events _ _ _ _ _ _ Hgc) as Hevents.
  rewrite Hgc in Hsound. unfold run_trace in Hsound. simpl in Hsound.
  destruct Hsound as ((typ & l & Hl & Hin) & Howned & key & Hkey & Hfresh);
    [by exists r|].
  split; [|split; [done|]].
  - exists typ, l. split; [|done]. apply elem_of_app. by right.
  - exists key. split; [done|]. intros sent answer Happlied Heq.
    apply Hfresh. rewrite <- Heq. apply (Hrecorded sent).
    apply elem_of_app in Happlied as [?|Hin']; [done|].
    eapply Forall_forall in Hevents; [|done]. done.
Qed.

Lemma gc_witness :
  let rp := ex_rp 2 1 "" in
  let tr := run_trace (reconcileDefluxed (env := ex_env)
                         (client := worldClient (env := ex_env))
                         rp (ex_world rp 3 [1; 2; 3])) in
  listed (env := ex_env) rp tr ex_orphan
  ∧ ownedBy rp ex_orphan
  ∧ ∃ key, hasKey (env := ex_env) ex_orphan key
           ∧ ∀ sent answer, applied tr sent answer → recordedKey answer ≠ key.
Proof.
  refine (gc_deletes_only_owned_unexpected ex_env World
            (worldClient (env := ex_env)) (ex_rp 2 1 "") (ex_world (ex_rp 2 1 "") 3 [1; 2; 3]) ex_orphan _).
  exists (Ok tt). apply (list_elem_of_lookup_2 _ 2%nat). vm_compute. reflexivity.
Defined.

(** C8, as the code has it: when the observed generation equals the
    generation and the generation is not zero, the sync pass deletes
    nothing, whatever the store answers. *)
Theorem unchanged_generation_skips_gc
    (env : Env) (W : Type) (client : Client W) (rp : Redpanda) (w : W) :
  rp_Generation rp = st_ObservedGeneration (rp_Status rp) →
  rp_Generation rp ≠ 0%Z →
  ∀ obj, ¬ deletes (run_trace (reconcileDefluxed rp w)) obj.
Proof.
  intros Hgen Hnz obj.
  destruct (reconcileDefluxed rp w) as [[res w'] tr] eqn:Hrun.
  unfold run_trace. simpl.
  apply reconcileDefluxed_shape in Hrun
    as (t_apply & t_gc & -> & Hnodel & Hgc).
  intros [r Hdel]. apply elem_of_app in Hdel as [Hdel|Hdel].
  { eapply Forall_forall in Hnodel; [|done]. done. }
  destruct Hgc as [->|(created & w1 & res1 & w2 & _ & _ & _ & Hskip)];
    [by apply elem_of_nil in Hdel|].
  rewrite Hgen, Z.eqb_refl in Hskip. simpl in Hskip.
  apply negb_false_iff, Z.eqb_eq in Hskip. congruence.
Qed.

Lemma unchanged_generation_witness :
  let rp := ex_rp 2 2 "" in
  ¬ deletes (run_trace (reconcileDefluxed (env := ex_env)
                          (client := worldClient (env := ex_env))
                          rp (ex_world rp 3 [1; 2; 3]))) ex_orphan.
Proof.
  refine (unchanged_generation_skips_gc ex_env World
            (worldClient (env := ex_env)) (ex_rp 2 2 "")
            (ex_world (ex_rp 2 2 "") 3 [1; 2; 3]) _ _ ex_orphan).
  - reflexivity.
  - simpl. lia.
Defined.

(** C8, as stated, fails for a cluster whose generation and observed
    generation are both zero: the garbage collection runs and deletes. *)
Lemma gc_runs_at_generation_zero_counterexample :
  let rp := ex_rp 0 0 "" in
  ¬ skipsCollection rp
      (run_trace (reconcileDefluxed (env := ex_env)
                    (client := worldClient (env := ex_env))
                    rp (ex_world rp 3 [1; 2; 3]))).
Proof.
  intros rp Hclaim. apply (Hclaim eq_refl ex_orphan).
  exists (Ok tt). apply (list_elem_of_lookup_2 _ 2%nat). vm_compute. reflexivity.
Qed.

End sync_pass.

(** ** The cluster reconciler: readiness *)

Section readiness.

Import redpanda.
Local Open Scope string_scope.
Local Open Scope list_scope.

Context {env : Env} {W : Type} {client : Client W}.

Implicit Types (rp : Redpanda) (tr : list Event) (w : W).

Lemma FindStatusCondition_Set cs new :
  FindStatusCondition (SetStatusCondition cs new) (c_Type new) = Some new.
Proof.
  unfold FindStatusCondition. induction cs as [|c cs IH]; simpl.
  - by rewrite String.eqb_refl.
  - destruct (String.eqb (c_Type c) (c_Type new)) eqn:Hc; simpl.
    + by rewrite String.eqb_refl.
    + by rewrite Hc.
Qed.

Lemma reportsReady_NotReady rp reason message :
  reportsReady (RedpandaNotReady rp reason message) = false.
Proof.
  unfold reportsReady, IsStatusConditionTrue, RedpandaNotReady. simpl.
  by rewrite (FindStatusCondition_Set _
                (mkCondition ReadyCondition ConditionFalse reason message)).
Qed.

Lemma reportsReady_Ready rp : reportsReady (RedpandaReady rp) = true.
Proof.
  unfold reportsReady, IsStatusConditionTrue, RedpandaReady. simpl.
  by rewrite (FindStatusCondition_Set _
                (mkCondition ReadyCondition ConditionTrue _ _)).
Qed.

Lemma applyHelm_run goType h w res w' tr :
  applyHelm goType h w = (res, w', tr) →
  (tr = [] ∧ is_ok res = false)
  ∨ tr = [EvApplyHelm goType h res].
Proof.
  unfold applyHelm. intros Hrun.
  mbind Hrun as Hgvk Hrest; [mleaf Hgvk; by left|].
  mleaf Hgvk. mbind Hrest as Hcall Htry; [mleaf Hcall|].
  mleaf Hcall. mleaf Htry. by right.
Qed.

Lemma reconcileHelmRepository_run rp w rp1 w' tr :
  reconcileHelmRepository rp w = (Ok rp1, w', tr) →
  ∃ repo ready,
    tr = [EvApplyHelm helmRepositoryType (helmRepositoryFromTemplate rp) (Ok repo)]
    ∧ rp1 = set_HelmRepository (helm_Name repo) (Some ready) rp
    ∧ (ready = true → repositoryReady repo).
Proof.
  unfold reconcileHelmRepository. intros Hrun.
  mbindok Hrun as Happly Hret.
  apply applyHelm_run in Happly as [[_ ?]| ->]; [done|].
  mleaf Hret. rewrite app_nil_r. eexists _, _. split; [done|]. split; [done|].
  unfold repositoryReady. destruct (helm_Suspend _); [by left|].
  intros [? ?%Z.eqb_eq]%andb_true_iff. by right.
Qed.

Lemma reconcileHelmRelease_run rp w rp1 w' tr :
  reconcileHelmRelease rp w = (Ok rp1, w', tr) →
  ∃ sent hr ready,
    tr = [EvApplyHelm helmReleaseType sent (Ok hr)]
    ∧ rp1 = set_HelmRelease (helm_Name hr) (Some ready) rp
    ∧ (ready = true → releaseReady hr).
Proof.
  unfold reconcileHelmRelease. intros Hrun.
  mbindok Hrun as Htemplate Hrest. mleaf Htemplate.
  mbindok Hrest as Happly Hret.
  apply applyHelm_run in Happly as [[_ ?]| ->]; [done|].
  mleaf Hret. rewrite app_nil_r. eexists _, _, _. split; [done|]. split; [done|].
  unfold releaseReady. destruct (helm_Suspend _); [by left|].
  intros [?%Z.eqb_eq ?%orb_true_iff]%andb_true_iff. by right.
Qed.

Lemma checkReplicasForList_true list resource :
  (checkReplicasForList list resource).2 = true → Forall converged list.
Proof.
  unfold checkReplicasForList. rewrite length_fmap.
  destruct (List.filter notConverged list) as [|item items] eqn:Hfilter; [|done].
  intros _. apply Forall_forall. intros item Hin.
  destruct (notConverged item) eqn:Hnot.
  - assert (In item (List.filter notConverged list)) as Hbad.
    { apply filter_In. split; [by apply list_elem_of_In|done]. }
    by rewrite Hfilter in Hbad.
  - unfold notConverged in Hnot.
    apply orb_false_iff in Hnot as [[Hu Ha]%orb_false_iff Hr].
    apply negb_false_iff, Z.eqb_eq in Hu, Ha, Hr. done.
Qed.

Lemma needsDecommission_run rp stses w decommission w' tr :
  needsDecommission rp stses w = (Ok decommission, w', tr) →
  ∃ health,
    tr = [EvAdminClient (Ok tt); EvHealth (Ok health)]
    ∧ (decommission = false → gateClear stses health).
Proof.
  unfold needsDecommission. intros Hrun.
  mbindok Hrun as Hadmin Hrest. mleaf Hadmin.
  mbindok Hrest as Htry Hrest'. mleaf Htry.
  mbindok Hrest' as Hhealth Hrest. mleaf Hhealth.
  mbindok Hrest as Htry' Hret. mleaf Htry'.
  match goal with u : unit |- _ => destruct u end.
  eexists. split.
  { destruct (_ || _); mleaf Hret; reflexivity. }
  unfold gateClear.
  destruct (length _ =? 0)%nat eqn:Hlen; [apply Nat.eqb_eq in Hlen; auto|].
  destruct (desiredReplicas stses =? 0)%Z eqn:Hzero; [apply Z.eqb_eq in Hzero; auto|].
  simpl in Hret. mleaf Hret. intros Hlt%Z.ltb_ge. auto.
Qed.

(** What a pass of [reconcile] that reports ready has seen. *)
Lemma reconcile_ready rp w rp' w' tr :
  reconcile rp w = (Ok rp', w', tr) →
  reportsReady rp' = true →
  readinessHolds tr.
Proof.
  unfold reconcile. intros Hrun Hready.
  mbindok Hrun as Hsts Hrest. mleaf Hsts.
  mbindok Hrest as Htry Hrest'. mleaf Htry.
  mbindok Hrest' as Hdep Hrest. mleaf Hdep.
  mbindok Hrest as Htry' Hrest'. mleaf Htry'.
  mbindok Hrest' as Hrepo Hrest.
  apply reconcileHelmRepository_run in Hrepo as (repo & b1 & -> & -> & Hb1).
  simpl in Hrest. destruct b1; simpl in Hrest;
    [|mleaf Hrest; by rewrite reportsReady_NotReady in Hready].
  mbindok Hrest as Hrel Hrest'.
  apply reconcileHelmRelease_run in Hrel as (sent & hr & b2 & -> & -> & Hb2).
  simpl in Hrest'. destruct b2; simpl in Hrest';
    [|mleaf Hrest'; by rewrite reportsReady_NotReady in Hready].
  match type of Hrest' with context [(length ?l =? 0)%nat] =>
    rename l into stses; destruct (length stses =? 0)%nat eqn:Hlen end;
    [mleaf Hrest'; by rewrite reportsReady_NotReady in Hready|].
  destruct (checkStatefulSetStatus stses).2 eqn:Hss; simpl in Hrest';
    [|mleaf Hrest'; by rewrite reportsReady_NotReady in Hready].
  match type of Hrest' with context [checkDeploymentsStatus ?l] =>
    rename l into deps; destruct (checkDeploymentsStatus deps).2 eqn:Hds end;
    simpl in Hrest';
    [|mleaf Hrest'; by rewrite reportsReady_NotReady in Hready].
  mbindok Hrest' as Hdec Hret.
  apply needsDecommission_run in Hdec as (health & -> & Hgate).
  match type of Hret with context [if ?b then _ else _] => destruct b end;
    [mleaf Hret; by rewrite reportsReady_NotReady in Hready|].
  mleaf Hret. exists (helmRepositoryFromTemplate rp), repo, sent, hr, stses, deps, health.
  split; [reflexivity|]. split; [by apply Hb1|]. split; [by apply Hb2|].
  split; [by destruct stses|].
  split; [by eapply checkReplicasForList_true|].
  split; [by eapply checkReplicasForList_true|]. by apply Hgate.
Qed.

End readiness.

Section readiness_claim.

Import redpanda.
Local Open Scope string_scope.
Local Open Scope list_scope.

(** C4 (amended).  A pass of [reconcile] reports the cluster ready only when
    the repository and the release are ready, at least one StatefulSet
    exists, every StatefulSet and Deployment has its updated, available and
    ready counts equal to its desired replicas, and the decommission gate is
    clear; and the gate withholds readiness whenever the live members
    outnumber the summed desired replicas and that sum is not zero. *)
Theorem ready_only_when_converged {env : Env} {W : Type} {client : Client W}
    (rp : Redpanda) (w : W) rp' w' tr :
  reconcile rp w = (Ok rp', w', tr) →
  (reportsReady rp' = true → readinessHolds tr)
  ∧ (∀ stses health,
       EvStatefulSets (Ok stses) ∈ tr →
       EvHealth (Ok health) ∈ tr →
       (0 < desiredReplicas stses < Z.of_nat (length (AllNodes health)))%Z →
       reportsReady rp' = false).
Proof.
  intros Hrun. split; [by eapply reconcile_ready|].
  intros stses health Hsts Hhealth [Hpos Hlt].
  destruct (reportsReady rp') eqn:Hready; [|done]. exfalso.
  destruct (reconcile_ready _ _ _ _ _ Hrun Hready)
    as (? & ? & ? & ? & stses' & ? & health' & -> & _ & _ & _ & _ & _ & Hgate).
  assert (stses' = stses) as ->.
  { apply elem_of_cons in Hsts as [Heq|Hsts]; [by injection Heq|].
    repeat (apply elem_of_cons in Hsts as [Heq|Hsts]; [discriminate|]).
    by apply elem_of_nil in Hsts. }
  assert (health' = health) as ->.
  { do 5 (apply elem_of_cons in Hhealth as [Heq|Hhealth]; [discriminate|]).
    apply elem_of_cons in Hhealth as [Heq|Hhealth]; [by injection Heq|].
    by apply elem_of_nil in Hhealth. }
  destruct Hgate as [Hnone|[Hzero|Hle]]; lia.
Qed.

Lemma ready_only_when_converged_witness :
  readinessHolds
    (run_trace (reconcile (env := ex_env) (client := worldClient (env := ex_env))
                  (ex_rp 2 2 "") (ex_world (ex_rp 2 2 "") 3 [1; 2; 3]))).
Proof.
  destruct (reconcile (env := ex_env) (client := worldClient (env := ex_env))
              (ex_rp 2 2 "") (ex_world (ex_rp 2 2 "") 3 [1; 2; 3]))
    as [[[rp'|e] w'] tr] eqn:Hrun; [|by vm_compute in Hrun].
  apply (proj1 (ready_only_when_converged (env := ex_env)
                  (client := worldClient (env := ex_env)) _ _ _ _ _ Hrun)).
  vm_compute in Hrun. by injection Hrun as <- _ _.
Defined.

(** C4 as stated fails for the gate: with no desired replicas and one live
    member the cluster reports ready. *)
Lemma gate_ignores_zero_replicas_counterexample :
  let pass := reconcile (env := ex_env) (client := worldClient (env := ex_env))
                (ex_rp 1 1 "") (ex_world (ex_rp 1 1 "") 0 [1]) in
  ∃ rp', run_result pass = Ok rp' ∧ ¬ gateWithholds rp' (run_trace pass).
Proof.
  eexists. split; [vm_compute; reflexivity|].
  intros Hgate.
  specialize (Hgate [ex_sts 0] (mkHealth [1])).
  assert (true = false) as Habs; [|done].
  apply Hgate.
  - vm_compute. apply list_elem_of_here.
  - vm_compute. do 5 apply list_elem_of_further. apply list_elem_of_here.
  - vm_compute. done.
Qed.

End readiness_claim.

(** ** Events of a kind *)

Section emits_facts.

Context {W E : Type}.

Implicit Types (P : E → Prop).

Lemma emits_ret {A} P (a : A) : emits (W := W) P (Mret a).
Proof. intros w. constructor. Qed.

Lemma emits_fail {A} P e : emits (W := W) (A := A) P (Mfail e).
Proof. intros w. constructor. Qed.

Lemma emits_try {A} P (r : result A) : emits (W := W) P (Mtry r).
Proof. intros w. destruct r; constructor. Qed.

Lemma emits_tell P ev : P ev → emits (W := W) P (Mtell ev).
Proof. intros Hev w. by repeat constructor. Qed.

Lemma emits_call {A} P (op : W → result A * W) (ev : result A → E) :
  (∀ r, P (ev r)) → emits P (Mcall op ev).
Proof.
  intros Hev w. unfold Mcall, run_trace. destruct (op w) as [r w1]. simpl.
  by repeat constructor.
Qed.

Lemma emits_bind {A B} P (m : M W E A) (k : A → M W E B) :
  emits P m → (∀ a, emits P (k a)) → emits P (Mbind m k).
Proof.
  intros Hm Hk w. specialize (Hm w). unfold Mbind, run_trace in *.
  destruct (m w) as [[[a|e] w1] t1]; simpl in *; [|done].
  specialize (Hk a w1). unfold run_trace in Hk.
  destruct (k a w1) as [[r w2] t2]. simpl in *. by apply Forall_app.
Qed.

Lemma emits_run {A} P (m : M W E A) w res w' tr :
  emits P m → m w = (res, w', tr) → Forall P tr.
Proof. intros Hm Hrun. specialize (Hm w). by rewrite Hrun in Hm. Qed.

Lemma emits_of_runs {A} (Q P : E → Prop) (m : M W E A) :
  (∀ w res w' tr, m w = (res, w', tr) → Forall Q tr) →
  (∀ ev, Q ev → P ev) →
  emits P m.
Proof.
  intros Hruns Himpl w. destruct (m w) as [[res w'] tr] eqn:Hrun.
  eapply Forall_impl; [by eapply Hruns|done].
Qed.

End emits_facts.

(** Walk through a definition, one step at a time. *)
Ltac emits_step :=
  first
    [ apply emits_ret
    | apply emits_fail
    | apply emits_try
    | apply emits_tell
    | apply emits_call; intros ?
    | apply emits_bind; [|intros ?]
    | match goal with
      | |- emits _ (if ?b then _ else _) => destruct b
      | |- emits _ (match ?x with _ => _ end) => destruct x
      end ].

Ltac leaves := split; [reflexivity|simpl; tauto].

Ltac all_leave :=
  simpl; repeat first [ apply Forall_nil_2 | apply Forall_cons_2 | leaves ].

(** ** The cluster reconciler: the whole pass *)

Section full_pass.

Import redpanda.
Local Open Scope string_scope.
Local Open Scope list_scope.

Context {env : Env} {W : Type} {client : Client W}.

Implicit Types (rp : Redpanda) (tr : list Event) (w : W).

Lemma sameSpec_refl rp : sameSpec rp rp.
Proof. by destruct rp. Qed.

Lemma sameSpec_trans a b c : sameSpec a b → sameSpec b c → sameSpec a c.
Proof.
  unfold sameSpec, set_Status. destruct a, b, c. simpl.
  intros [=] [=]. by subst.
Qed.

Lemma sameSpec_set_Status st rp : sameSpec (set_Status st rp) rp.
Proof. done. Qed.

Lemma sameSpec_NotReady rp reason message :
  sameSpec (RedpandaNotReady rp reason message) rp.
Proof. reflexivity. Qed.

Lemma sameSpec_fields a b :
  sameSpec a b →
  rp_Name a = rp_Name b ∧ rp_Namespace a = rp_Namespace b
  ∧ rp_Generation a = rp_Generation b ∧ rp_UseFlux a = rp_UseFlux b
  ∧ rp_ChartVersion a = rp_ChartVersion b.
Proof. unfold sameSpec, set_Status. destruct a, b. simpl. by intros [=]. Qed.

Lemma reconcile_sameSpec rp w rp' w' tr :
  reconcile rp w = (Ok rp', w', tr) → sameSpec rp' rp.
Proof.
  unfold reconcile. intros Hrun.
  mbindok Hrun as Hsts Hrest. mleaf Hsts.
  mbindok Hrest as Htry Hrest'. mleaf Htry.
  mbindok Hrest' as Hdep Hrest. mleaf Hdep.
  mbindok Hrest as Htry' Hrest'. mleaf Htry'.
  mbindok Hrest' as Hrepo Hrest.
  apply reconcileHelmRepository_run in Hrepo as (repo & b1 & _ & -> & _).
  destruct (negb _); [by mleaf Hrest|].
  mbindok Hrest as Hrel Hrest'.
  apply reconcileHelmRelease_run in Hrel as (sent & hr & b2 & _ & -> & _).
  repeat match type of Hrest' with
         | (if ?b then _ else _) _ = _ => destruct b; [by mleaf Hrest'|]
         end.
  mbindok Hrest' as Hdec Hret.
  match type of Hret with
  | (if ?b then _ else _) _ = _ => destruct b; by mleaf Hret
  end.
Qed.

Lemma reconcileDefluxed_sameSpec rp w rp' w' tr :
  reconcileDefluxed rp w = (Ok rp', w', tr) → sameSpec rp' rp.
Proof.
  unfold reconcileDefluxed. intros Hrun.
  destruct (Deref _ _); [mleaf Hrun; apply sameSpec_refl|].
  simpl in Hrun. destruct (negb _).
  { mbindok Hrun as Htell Hret. mleaf Hret. apply sameSpec_NotReady. }
  mbindok Hrun as Hrender Hrest. mbindok Hrest as Happly Hrest'.
  destruct (_ && _); [mleaf Hrest'; apply sameSpec_refl|].
  mbindok Hrest' as Hgc Hret. mleaf Hret. apply sameSpec_refl.
Qed.

Lemma applyHelm_leaves goType h : emits leavesCluster (applyHelm goType h).
Proof. unfold applyHelm. repeat emits_step. leaves. Qed.

Lemma reconcile_leaves rp : emits leavesCluster (reconcile rp).
Proof.
  unfold reconcile, reconcileHelmRepository, reconcileHelmRelease,
    needsDecommission.
  repeat first [ apply applyHelm_leaves | emits_step | leaves ].
Qed.

Lemma reconcileDefluxed_leaves rp : emits leavesCluster (reconcileDefluxed rp).
Proof.
  unfold reconcileDefluxed, reconcileDefluxGC.
  repeat first
    [ eapply emits_of_runs; [apply applyAll_run|intros []; simpl; try tauto; leaves]
    | eapply emits_of_runs; [apply collectGarbage_run|intros []; simpl; try tauto; leaves]
    | eapply emits_of_runs; [apply deleteAll_kind|intros []; simpl; try tauto; leaves]
    | emits_step | leaves ].
Qed.

Lemma leavesCluster_keepsObserved rp0 ev :
  leavesCluster ev → keepsObserved rp0 ev.
Proof.
  intros [Hwrite Hpatch]. split; [done|]. intros rp'. by rewrite Hwrite.
Qed.

Lemma deleteHelmRelease_leaves rp : emits leavesCluster (deleteHelmRelease rp).
Proof. unfold deleteHelmRelease. repeat first [ emits_step | leaves ]. Qed.

Lemma deleteHelmRelease_observed rp w rp' w' tr :
  deleteHelmRelease rp w = (Ok rp', w', tr) →
  st_ObservedGeneration (rp_Status rp') = st_ObservedGeneration (rp_Status rp)
  ∧ rp_Finalizers rp' = rp_Finalizers rp.
Proof.
  unfold deleteHelmRelease. intros Hrun.
  destruct (String.eqb _ _); [by mleaf Hrun|].
  mbindok Hrun as Hget Hrest. mleaf Hget. destruct r as [hr|e].
  - mbindok Hrest as Hdel Hrest'. mbindok Hrest' as Htry Hfail. by mleaf Hfail.
  - destruct (IsNotFound e); by mleaf Hrest.
Qed.

Lemma reconcileDelete_run rp w res w' tr :
  reconcileDelete rp w = (res, w', tr) → Forall (keepsObserved rp) tr.
Proof.
  unfold reconcileDelete. intros Hrun.
  mbind Hrun as Hdelete Hrest.
  { eapply Forall_impl; [by eapply emits_run, Hdelete; apply deleteHelmRelease_leaves|].
    apply leavesCluster_keepsObserved. }
  apply Forall_app. split.
  { eapply Forall_impl; [by eapply emits_run, Hdelete; apply deleteHelmRelease_leaves|].
    apply leavesCluster_keepsObserved. }
  apply deleteHelmRelease_observed in Hdelete as [Hobs _].
  destruct (ContainsFinalizer _ _); [|mleaf Hrest; constructor].
  mbind Hrest as Hcall Hrest'; [mleaf Hcall|].
  mleaf Hcall.
  assert (Forall (keepsObserved rp)
            [EvUpdate (RemoveFinalizer x FinalizerKey) r]) as Hupdate.
  { repeat constructor; [simpl; tauto|]. by intros ? [= <-]. }
  mbind Hrest' as Htry Hret; mleaf Htry; [done|].
  mleaf Hret. by rewrite app_nil_r.
Qed.

Lemma patchRedpandaStatus_run rp w res w' tr :
  patchRedpandaStatus rp w = (res, w', tr) →
  (Forall leavesCluster tr ∧ ∃ e, res = Err e)
  ∨ ∃ latest r,
      tr = statusPatchOf rp latest r
      ∧ res = match r with Ok _ => Ok tt | Err e => Err e end.
Proof.
  unfold patchRedpandaStatus. intros Hrun.
  mbind Hrun as Hget Hrest; [mleaf Hget|].
  mleaf Hget. mbind Hrest as Htry Hrest'.
  { mleaf Htry. left. split; [all_leave|eauto]. }
  mleaf Htry. mbind Hrest' as Hpatch Hrest; [mleaf Hpatch|].
  mleaf Hpatch. right. eexists _, _.
  mbind Hrest as Htry Hret; mleaf Htry; [done|].
  mleaf Hret. done.
Qed.

(** The end of a pass over a managed cluster: either it fails before the
    status patch, and writes nothing of the cluster, or both phases return
    without error and the status patch follows. *)
Lemma reconcileManaged_run rp w res w' tr :
  reconcileManaged rp w = (res, w', tr) →
  (Forall leavesCluster tr ∧ ∃ e, res = Err e)
  ∨ ∃ rp1 w1 t1 rp2 w2 t2 latest r,
      reconcile rp w = (Ok rp1, w1, t1)
      ∧ reconcileDefluxed rp1 w1 = (Ok rp2, w2, t2)
      ∧ tr = t1 ++ t2
             ++ statusPatchOf (set_ObservedGeneration (rp_Generation rp) rp2)
                              latest r
      ∧ res = match r with Ok _ => Ok emptyResult | Err e => Err e end.
Proof.
  unfold reconcileManaged. intros Hrun.
  mbind Hrun as Hfirst Hrest.
  { left. split; [|eauto]. eapply emits_run, Hfirst. apply reconcile_leaves. }
  pose proof (emits_run _ _ _ _ _ _ (reconcile_leaves rp) Hfirst) as Hleaves1.
  mbind Hrest as Hsecond Hrest'.
  { left. split; [|eauto]. apply Forall_app. split; [done|].
    eapply emits_run, Hsecond. apply reconcileDefluxed_leaves. }
  pose proof (emits_run _ _ _ _ _ _ (reconcileDefluxed_leaves _) Hsecond)
    as Hleaves2.
  pose proof (reconcile_sameSpec _ _ _ _ _ Hfirst) as Hspec1.
  pose proof (reconcileDefluxed_sameSpec _ _ _ _ _ Hsecond) as Hspec2.
  apply sameSpec_fields in Hspec1 as (_ & _ & Hgen1 & _).
  apply sameSpec_fields in Hspec2 as (_ & _ & Hgen2 & _).
  rewrite Hgen2, Hgen1 in Hrest'.
  mbind Hrest' as Hpatch Hret.
  - apply patchRedpandaStatus_run in Hpatch
      as [[Hleaves3 _]|(latest & r & -> & Hres)].
    + left. split; [|eauto]. by repeat (apply Forall_app; split).
    + right. destruct r; [done|]. eexists _, _, _, _, _, _, _, _.
      split; [done|]. split; [done|]. split; [done|]. by injection Hres as ->.
  - apply patchRedpandaStatus_run in Hpatch
      as [[_ [? ?]]|(latest & r & -> & Hres)]; [done|].
    mleaf Hret. right. destruct r; [|done]. rewrite app_nil_r.
    eexists _, _, _, _, _, _, _, _.
    split; [done|]. split; [done|]. split; [done|]. done.
Qed.

(** The record of a pass: the fetch of the cluster; then events that are no
    status patch and write the cluster, if at all, with the observed
    generation that was fetched; then, if both phases returned without
    error, the status patch. *)
Lemma Reconcile_cases req w res w' tr :
  Reconcile req w = (res, w', tr) →
  ∃ got t0 tend,
    tr = EvGet req got :: t0 ++ tend
    ∧ match got with
      | Ok rp0 => Forall (keepsObserved rp0) t0
      | Err _ => t0 = []
      end
    ∧ (tend = []
       ∨ ∃ tp rpm wm rp1 w1 t1 rp2 w2 t2 latest r,
           t0 = tp ++ t1 ++ t2
           ∧ reconcile rpm wm = (Ok rp1, w1, t1)
           ∧ reconcileDefluxed rp1 w1 = (Ok rp2, w2, t2)
           ∧ tend = statusPatchOf
                      (set_ObservedGeneration (rp_Generation rpm) rp2) latest r
           ∧ res = match r with Ok _ => Ok emptyResult | Err e => Err e end).
Proof.
  unfold Reconcile. intros Hrun.
  mbind Hrun as Hget Hrest; [mleaf Hget|].
  mleaf Hget. exists r. destruct r as [rp0|e].
  2:{ exists [], []. destruct (IsNotFound e); mleaf Hrest; auto. }
  destruct (negb (isNil _)).
  { apply reconcileDelete_run in Hrest. eexists _, []. rewrite app_nil_r.
    split; [reflexivity|]. split; [done|by left]. }
  destruct (negb (isRedpandaManaged rp0)).
  { destruct (ContainsFinalizer _ _); [|mleaf Hrest; exists [], []; auto].
    mbind Hrest as Hcall Hrest'; [mleaf Hcall|].
    mleaf Hcall.
    assert (Forall (keepsObserved rp0)
              [EvUpdate (RemoveFinalizer rp0 FinalizerKey) r]) as Hupdate.
    { repeat constructor; [simpl; tauto|]. by intros ? [= <-]. }
    mbind Hrest' as Htry Hret; mleaf Htry.
    - eexists _, []. rewrite !app_nil_r.
      split; [reflexivity|]. split; [done|by left].
    - mleaf Hret. eexists _, []. rewrite !app_nil_r.
      split; [reflexivity|]. split; [done|by left]. }
  destruct (_ !! _); [mleaf Hrest; exists [], []; auto|].
  assert (∀ tp rpm wm tm,
            Forall (keepsObserved rp0) tp →
            reconcileManaged rpm wm = (res, w', tm) →
            ∃ t0 tend,
              [EvGet req (Ok rp0)] ++ tp ++ tm = EvGet req (Ok rp0) :: t0 ++ tend
              ∧ Forall (keepsObserved rp0) t0
              ∧ (tend = []
                 ∨ ∃ tp rpm wm rp1 w1 t1 rp2 w2 t2 latest r,
                     t0 = tp ++ t1 ++ t2
                     ∧ reconcile rpm wm = (Ok rp1, w1, t1)
                     ∧ reconcileDefluxed rp1 w1 = (Ok rp2, w2, t2)
                     ∧ tend = statusPatchOf
                                (set_ObservedGeneration (rp_Generation rpm) rp2)
                                latest r
                     ∧ res = match r with
                             | Ok _ => Ok emptyResult
                             | Err e => Err e
                             end)) as Hmanaged.
  { intros tp rpm wm tm Htp Hm.
    apply reconcileManaged_run in Hm
      as [[Hleaves _]|(rp1 & w1 & t1 & rp2 & w2 & t2 & latest & r & H1 & H2 & -> & ->)].
    - exists (tp ++ tm), []. rewrite app_nil_r. split; [done|]. split; [|by left].
      apply Forall_app. split; [done|].
      eapply Forall_impl; [done|]. apply leavesCluster_keepsObserved.
    - exists (tp ++ t1 ++ t2), (statusPatchOf
                (set_ObservedGeneration (rp_Generation rpm) rp2) latest r).
      split; [by rewrite <- !app_assoc|]. split.
      + repeat (apply Forall_app; split); [done|..].
        * eapply Forall_impl; [|apply leavesCluster_keepsObserved].
          eapply emits_run, H1. apply reconcile_leaves.
        * eapply Forall_impl; [|apply leavesCluster_keepsObserved].
          eapply emits_run, H2. apply reconcileDefluxed_leaves.
      + right. eexists tp, _, _, _, _, _, _, _, _, _, _. eauto 10. }
  mbind Hrest as Hfin Hrest'.
  { destruct (negb _); [|by mleaf Hfin].
    mbinderr Hfin as Hcall Htry; [mleaf Hcall|].
    mleaf Hcall. mleaf Htry. eexists _, []. rewrite !app_nil_r.
    split; [reflexivity|]. split; [|by left].
    repeat constructor; [simpl; tauto|]. intros ? [= <-].
    unfold AddFinalizer. by destruct (ContainsFinalizer rp0 FinalizerKey). }
  destruct (negb _).
  - mbindok Hfin as Hcall Htry.
    mleaf Hcall. mleaf Htry. rewrite app_nil_r.
    eapply (Hmanaged [_]); [|done].
    repeat constructor; [simpl; tauto|]. intros ? [= <-].
    unfold AddFinalizer. by destruct (ContainsFinalizer rp0 FinalizerKey).
  - mleaf Hfin. by eapply (Hmanaged []).
Qed.

End full_pass.

Section pass_claims.

Import redpanda.
Local Open Scope string_scope.
Local Open Scope list_scope.

(** C9: in every pass of [Reconcile], whatever the store answers, a status
    patch is issued only after both [reconcile] and [reconcileDefluxed] have
    returned without error; it is the last event of the pass and carries the
    generation of the cluster as its observed generation; a pass that returns
    an error has written no status; and every other write of the cluster
    carries the observed generation that the pass fetched. *)
Theorem observed_generation_after_full_pass
    (env : Env) (W : Type) (client : Client W) (req : ObjectKey) (w : W) :
  let pass := Reconcile req w in
  (∀ i rp' latest r,
     run_trace pass !! i = Some (EvStatusPatch rp' latest r) →
     ∃ t0 rp0 w0 rp1 w1 t1 rp2 w2 t2,
       reconcile rp0 w0 = (Ok rp1, w1, t1)
       ∧ reconcileDefluxed rp1 w1 = (Ok rp2, w2, t2)
       ∧ rp' = set_ObservedGeneration (rp_Generation rp0) rp2
       ∧ run_trace pass = t0 ++ t1 ++ t2 ++ statusPatchOf rp' latest r
       ∧ S i = length (run_trace pass)
       ∧ ∀ e, run_result pass = Err e → r = Err e)
  ∧ (∀ e, run_result pass = Err e →
       ∀ rp' latest stored,
         EvStatusPatch rp' latest (Ok stored) ∉ run_trace pass)
  ∧ (∀ ev rp',
       ev ∈ run_trace pass → clusterWrite ev = Some rp' →
       ∃ rp0, head (run_trace pass) = Some (EvGet req (Ok rp0))
              ∧ st_ObservedGeneration (rp_Status rp')
                = st_ObservedGeneration (rp_Status rp0)).
Proof.
  destruct (Reconcile req w) as [[res w'] tr] eqn:Hrun.
  unfold run_trace, run_result. simpl.
  apply Reconcile_cases in Hrun as (got & t0 & tend & -> & Hpre & Hend).
  assert (Forall (λ ev, ¬ isStatusPatch ev) (EvGet req got :: t0)) as Hquiet.
  { constructor; [simpl; tauto|]. destruct got as [rp0|e].
    - eapply Forall_impl; [done|]. by intros ev [? _].
    - subst t0. constructor. }
  assert (∀ i rp' latest r,
            (EvGet req got :: t0 ++ tend) !! i = Some (EvStatusPatch rp' latest r) →
            ∃ tp rp0 w0 rp1 w1 t1 rp2 w2 t2,
              reconcile rp0 w0 = (Ok rp1, w1, t1)
              ∧ reconcileDefluxed rp1 w1 = (Ok rp2, w2, t2)
              ∧ rp' = set_ObservedGeneration (rp_Generation rp0) rp2
              ∧ EvGet req got :: t0 ++ tend
                = tp ++ t1 ++ t2 ++ statusPatchOf rp' latest r
              ∧ S i = length (EvGet req got :: t0 ++ tend)
              ∧ ∀ e, res = Err e → r = Err e) as Hfirst.
  { intros i rp' latest r Hi.
    change (((EvGet req got :: t0) ++ tend) !! i
            = Some (EvStatusPatch rp' latest r)) in Hi.
    apply lookup_app_Some in Hi as [Hi|[Hlen Hi]].
    { eapply Forall_lookup_1 in Hquiet; [|done]. by destruct Hquiet. }
    destruct Hend as [->|(tp & rpm & wm & rp1 & w1 & t1 & rp2 & w2 & t2
                          & latest' & r' & -> & H1 & H2 & -> & ->)]; [done|].
    unfold statusPatchOf in Hi.
    destruct (i - length (EvGet req got :: tp ++ t1 ++ t2))%nat
      as [|[|n]] eqn:Hidx; simpl in Hi; [done| |done].
    injection Hi as <- <- <-.
    exists (EvGet req got :: tp), rpm, wm, rp1, w1, t1, rp2, w2, t2.
    split; [done|]. split; [done|]. split; [done|].
    split; [simpl; by rewrite <- !app_assoc|].
    split; [|by destruct r'; [|intros ? [= ->]]].
    simpl in *. rewrite !length_app in *. simpl. lia. }
  split; [exact Hfirst|]. split.
  - intros e -> rp' latest stored Hin.
    apply list_elem_of_lookup in Hin as [i Hi].
    apply Hfirst in Hi as (? & ? & ? & ? & ? & ? & ? & ? & ? & _ & _ & _ & _ & _ & Hfail).
    by specialize (Hfail e eq_refl).
  - intros ev rp' Hin Hwrite.
    apply elem_of_cons in Hin as [->|Hin]; [done|].
    apply elem_of_app in Hin as [Hin|Hin].
    + destruct got as [rp0|e]; [|subst t0; by apply elem_of_nil in Hin].
      exists rp0. split; [done|].
      eapply Forall_forall in Hpre as [_ Hobs]; [|done]. by apply Hobs.
    + destruct Hend as [->|(tp & rpm & wm & rp1 & w1 & t1 & rp2 & w2 & t2
                            & latest' & r' & _ & _ & _ & -> & _)];
        [by apply elem_of_nil in Hin|].
      unfold statusPatchOf in Hin.
      repeat (apply elem_of_cons in Hin as [->|Hin]; [done|]).
      by apply elem_of_nil in Hin.
Qed.

Lemma observed_generation_witness :
  let rp := ex_rp 2 1 "" in
  let pass := Reconcile (env := ex_env) (client := worldClient (env := ex_env))
                ex_req (ex_world rp 3 [1; 2; 3]) in
  ∃ rp' latest r,
    run_trace pass !! 11%nat = Some (EvStatusPatch rp' latest r)
    ∧ 12%nat = length (run_trace pass).
Proof.
  intros rp pass.
  destruct (run_trace pass !! 11%nat) as [ev|] eqn:Hev;
    [|by vm_compute in Hev].
  destruct ev as [| | |rp' latest r| | | | | | | | | | |];
    try (by vm_compute in Hev).
  exists rp', latest, r. split; [done|].
  destruct (proj1 (observed_generation_after_full_pass ex_env World
                     (worldClient (env := ex_env)) ex_req
                     (ex_world rp 3 [1; 2; 3])) 11%nat rp' latest r Hev)
    as (t0 & rp0 & w0 & rp1 & w1 & t1 & rp2 & w2 & t2
        & _ & _ & _ & _ & Hlen & _).
  exact Hlen.
Defined.

(** C10: when the cluster does not use flux and its chart version is
    neither empty nor the pinned one, [reconcileDefluxed] records a warning,
    marks the cluster not ready with reason ChartRefUnsupported, applies,
    lists and deletes nothing, and returns without error; so a pass whose
    readiness phase and status patch succeed returns the empty result, with
    no error and no requeue, and its status patch carries the generation of
    the cluster as the observed generation. *)
Theorem unsupported_chart_version_is_not_an_error
    (env : Env) (W : Type) (client : Client W) (rp : Redpanda) (w : W) :
  chartRefUnsupported rp →
  let msg := chartVersionMessage rp in
  let rp' := RedpandaNotReady rp "ChartRefUnsupported" msg in
  reconcileDefluxed rp w = (Ok rp', w, [EvWarning rp msg])
  ∧ FindStatusCondition (st_Conditions (rp_Status rp')) ReadyCondition
    = Some (mkCondition ReadyCondition ConditionFalse "ChartRefUnsupported" msg)
  ∧ ∀ rp0 w0 t1 latest w2 stored w3,
      let final := set_ObservedGeneration (rp_Generation rp0) rp' in
      reconcile rp0 w0 = (Ok rp, w, t1) →
      GetRedpanda (rp_key final) w = (Ok latest, w2) →
      PatchStatus final latest w2 = (Ok stored, w3) →
      reconcileManaged rp0 w0
      = (Ok emptyResult, w3,
         t1 ++ [EvWarning rp msg] ++ statusPatchOf final latest (Ok stored))
      ∧ st_ObservedGeneration (rp_Status final) = rp_Generation rp0.
Proof.
  intros (Hflux & Hempty & Hpinned) msg rp'.
  assert (reconcileDefluxed rp w = (Ok rp', w, [EvWarning rp msg])) as Hsync.
  { unfold reconcileDefluxed. rewrite Hflux. simpl.
    apply String.eqb_neq in Hempty, Hpinned. rewrite Hempty, Hpinned. done. }
  split; [done|]. split.
  { apply (FindStatusCondition_Set _
             (mkCondition ReadyCondition ConditionFalse "ChartRefUnsupported" msg)). }
  intros rp0 w0 t1 latest w2 stored w3 final Hready Hget Hpatch.
  split; [|done].
  pose proof (reconcile_sameSpec _ _ _ _ _ Hready) as Hspec.
  apply sameSpec_fields in Hspec as (_ & _ & Hgen & _).
  unfold reconcileManaged, Mbind. rewrite Hready, Hsync.
  change (rp_Generation rp') with (rp_Generation rp). rewrite Hgen.
  fold final. unfold patchRedpandaStatus, Mbind, Mcall, Mtry.
  change (mkKey (rp_Namespace final) (rp_Name final)) with (rp_key final).
  rewrite Hget. simpl. rewrite Hpatch. done.
Qed.

Lemma unsupported_chart_version_witness :
  let rp0 := ex_rp 2 1 "9.9.9" in
  let w0 := ex_world rp0 3 [1; 2; 3] in
  run_result (reconcileManaged (env := ex_env)
                (client := worldClient (env := ex_env)) rp0 w0)
  = Ok emptyResult.
Proof.
  intros rp0 w0.
  destruct (reconcile (env := ex_env) (client := worldClient (env := ex_env))
              rp0 w0) as [[[rp|e] w] t1] eqn:Hready;
    [|by vm_compute in Hready].
  pose proof Hready as Hvalue. vm_compute in Hvalue.
  injection Hvalue as Hrp Hw _.
  assert (chartRefUnsupported (env := ex_env) rp) as Hbad.
  { rewrite <- Hrp. repeat split; vm_compute; congruence. }
  destruct (unsupported_chart_version_is_not_an_error ex_env World
              (worldClient (env := ex_env)) rp w Hbad) as (_ & _ & Hpass).
  specialize (Hpass rp0 w0 t1). simpl in Hpass.
  match type of Hpass with
  | ∀ latest w2 stored w3, _ → ?get = _ → _ =>
      destruct get as [[latest|e] w2] eqn:Hget
  end.
  2:{ rewrite <- Hrp, <- Hw in Hget. by vm_compute in Hget. }
  specialize (Hpass latest w2).
  match type of Hpass with
  | ∀ stored w3, _ → _ → ?patch = _ → _ =>
      destruct patch as [[stored|e] w3] eqn:Hpatch
  end.
  2:{ rewrite <- Hrp, <- Hw in Hget. vm_compute in Hget.
      injection Hget as <- <-. rewrite <- Hrp in Hpatch.
      by vm_compute in Hpatch. }
  destruct (Hpass stored w3 Hready eq_refl eq_refl) as [Hrun _].
  by rewrite Hrun.
Defined.

End pass_claims.

(** * More of package pvcunbinder *)

Section eligibility_more.

Import pvcunbinder.
Local Open Scope string_scope.
Local Open Scope list_scope.

Lemma ContainsFunc_spec {A} (f : A → bool) (l : list A) :
  ContainsFunc f l = true ↔ ∃ x, x ∈ l ∧ f x = true.
Proof.
  unfold ContainsFunc.
  destruct (IndexFunc_find f l) as [[-> Hnone]|(Hge & _ & [x Hsome])].
  - split; [done|]. intros (x & Hin & Hx).
    apply list_elem_of_In in Hin.
    by pose proof (find_none f l Hnone x Hin) as Hno; rewrite Hx in Hno.
  - destruct (Z.eqb_spec (IndexFunc f l) (-1)); [lia|]. split; [|done].
    intros _. apply find_some in Hsome as [Hin Hx].
    exists x. split; [by apply list_elem_of_In|done].
Qed.

Lemma pvcUnbinderPredicate_spec pod :
  pvcUnbinderPredicate pod = true ↔ stsManaged pod ∧ pod_Phase pod = PodPending.
Proof.
  unfold pvcUnbinderPredicate, stsManaged.
  rewrite andb_true_iff, ContainsFunc_spec, String.eqb_eq. split.
  - intros [(ref & Hin & Href) Hphase]. split; [|done]. exists ref.
    apply andb_true_iff in Href as [[Hv Hk]%andb_true_iff Hc].
    apply String.eqb_eq in Hv, Hk. destruct (or_Controller ref) as [[|]|]; done.
  - intros [(ref & Hin & Hv & Hk & Hc) Hphase]. split; [|done]. exists ref.
    split; [done|]. rewrite Hv, Hk, Hc. done.
Qed.

(** X1: the trigger predicate holds exactly for the Pending Pods that have
    a controller reference to an apps/v1 StatefulSet, and a Pod for which
    it fails is not eligible, whatever the selector, the filter, the
    conditions of the Pod and the clock. *)
Theorem trigger_predicate_gates_eligibility (pod : Pod) :
  (pvcUnbinderPredicate pod = true
   ↔ stsManaged pod ∧ pod_Phase pod = PodPending)
  ∧ (pvcUnbinderPredicate pod = false →
     ∀ r now, ShouldRemediate r now pod = (false, 0%Z)).
Proof.
  split; [apply pvcUnbinderPredicate_spec|].
  intros Hpred r now. unfold ShouldRemediate.
  destruct (match Selector r with Some sel => _ | None => _ end); [done|].
  destruct (match Filter r with Some filter => _ | None => _ end) as [[|]|];
    try done.
  rewrite Hpred. simpl. by rewrite orb_true_r.
Qed.

(** X2: for a Pod that passes the gates, with a Timeout that is not
    negative and a transition that lies in the past by no more than the
    largest Duration, the delay is what is left of the Timeout, or zero; so
    it is zero from the threshold on, and before the threshold it strictly
    decreases as the clock advances. *)
Theorem delay_is_what_is_left_of_the_timeout
    (r : Controller) (pod : Pod) (cond : PodCondition) (now : Z) :
  passesFilters r pod →
  pvcUnbinderPredicate pod = true →
  unschedulableCondition pod = Some cond →
  MatchString schedulingFailureRE (cond_Message cond) = true →
  (0 ≤ Timeout r ≤ maxDuration)%Z →
  let since := cond_LastTransitionTime cond in
  (since ≤ now ≤ since + maxDuration)%Z →
  ShouldRemediate r now pod = (true, Z.max 0 (Timeout r - (now - since)))
  ∧ (since + Timeout r ≤ now → (ShouldRemediate r now pod).2 = 0)%Z
  ∧ ∀ later, (now < later ≤ since + Timeout r)%Z →
             ((ShouldRemediate r later pod).2 < (ShouldRemediate r now pod).2)%Z.
Proof.
  intros [Hsel Hfil] Hpred Hcond Hre Htimeout since Hnow.
  assert (∀ t, (since ≤ t ≤ since + maxDuration)%Z →
               ShouldRemediate r t pod
               = (true, Z.max 0 (Timeout r - (t - since)))) as Hdelay.
  { intros t Ht.
    rewrite (ShouldRemediate_delay r t pod cond Hsel Hfil Hpred Hcond Hre);
      unfold since, minDuration, maxDuration in *; [|lia..].
    destruct (Z.ltb_spec (t - cond_LastTransitionTime cond) (Timeout r));
      f_equal; lia. }
  rewrite (Hdelay now Hnow). simpl. split; [done|]. split; [lia|].
  intros later Hlater. rewrite Hdelay; [simpl; lia|].
  unfold maxDuration in *. lia.
Qed.

Lemma delay_witness :
  ShouldRemediate ex_controller (10 * Minute) (ex_pod 0) = (true, 5 * Minute)%Z.
Proof.
  refine (proj1 (delay_is_what_is_left_of_the_timeout ex_controller (ex_pod 0)
                   (ex_cond 0) (10 * Minute) _ _ _ _ _ _)).
  - by split.
  - reflexivity.
  - reflexivity.
  - vm_compute. reflexivity.
  - vm_compute. split; discriminate.
  - vm_compute. split; discriminate.
Defined.

(** X3: a Pending Pod of a StatefulSet that the selector and the filter
    accept, and whose first Unschedulable condition has a message that
    begins with [0/N nodes are available] or mentions [volume node
    affinity], is eligible, whatever the clock. *)
Theorem scheduling_failure_message_is_eligible
    (r : Controller) (now : Z) (pod : Pod) (cond : PodCondition) :
  passesFilters r pod →
  stsManaged pod →
  pod_Phase pod = PodPending →
  unschedulableCondition pod = Some cond →
  nodesUnavailable (bytes (cond_Message cond))
  ∨ mentionsAffinity (bytes (cond_Message cond)) →
  (ShouldRemediate r now pod).1 = true.
Proof.
  intros [Hsel Hfil] Hsts Hphase Hcond Hmsg.
  assert (pvcUnbinderPredicate pod = true) as Hpred
    by by apply pvcUnbinderPredicate_spec.
  apply schedulingFailureRE_spec in Hmsg. unfold ShouldRemediate.
  destruct (Selector r); [rewrite Hsel|]; simpl.
  all: destruct (Filter r); [rewrite Hfil|]; simpl.
  all: unfold unschedulableCondition in Hcond.
  all: destruct (IndexFunc_find isUnschedulable (pod_Conditions pod))
         as [[_ Hnone]|(Hge & Hlook & _)]; [congruence|].
  all: destruct (Z.eqb_spec (IndexFunc isUnschedulable (pod_Conditions pod)) (-1));
         [lia|].
  all: rewrite Hpred, Hlook, Hcond, Hmsg; simpl.
  all: by destruct (_ <? _)%Z.
Qed.

Lemma scheduling_failure_witness :
  (ShouldRemediate ex_controller (20 * Minute) (ex_pod 0)).1 = true.
Proof.
  apply (scheduling_failure_message_is_eligible ex_controller (20 * Minute)
           (ex_pod 0) (ex_cond 0)).
  - by split.
  - exists ex_owner. split; [apply list_elem_of_here|done].
  - reflexivity.
  - reflexivity.
  - right. exists (bytes "0/3 nodes are available: 3 node(s) had "),
                  (bytes " conflict"). reflexivity.
Defined.

Lemma HasSuffix_spec (s suffix : string) :
  HasSuffix s suffix = true ↔ ∃ prefix, bytes s = prefix ++ bytes suffix.
Proof.
  unfold HasSuffix. rewrite bool_decide_eq_true. split.
  - set (n := (length (bytes s) - length (bytes suffix))%nat). intros Hdrop.
    exists (take n (bytes s)). rewrite <- Hdrop. by rewrite take_drop.
  - intros [prefix ->]. rewrite length_app.
    replace (length prefix + length (bytes suffix) - length (bytes suffix))%nat
      with (length prefix) by lia.
    by rewrite drop_app_length.
Qed.

Lemma StsPVCs_from_spec pod vols key :
  key ∈ StsPVCs_from pod vols ↔
  Namespace key = pod_Namespace pod
  ∧ (∃ vol, vol ∈ vols ∧ vol_PersistentVolumeClaim vol = Some (Name key))
  ∧ HasSuffix (Name key) (pod_Name pod) = true.
Proof.
  induction vols as [|vol vols IH]; simpl.
  - split; [by intros ?%elem_of_nil|]. by intros (_ & (? & ?%elem_of_nil & _) & _).
  - destruct (vol_PersistentVolumeClaim vol) as [claimName|] eqn:Hclaim.
    + destruct (HasSuffix claimName (pod_Name pod)) eqn:Hsuffix; simpl.
      * rewrite elem_of_cons, IH. split.
        -- intros [->|(Hns & (v & Hin & Hv) & Hs)]; simpl.
           ++ split; [done|]. split; [|done]. exists vol.
              split; [apply list_elem_of_here|done].
           ++ split; [done|]. split; [|done]. exists v.
              split; [by apply list_elem_of_further|done].
        -- intros (Hns & (v & Hin & Hv) & Hs).
           apply elem_of_cons in Hin as [->|Hin].
           ++ left. destruct key as [ns name]. simpl in *. congruence.
           ++ right. eauto.
      * rewrite IH. split.
        -- intros (Hns & (v & Hin & Hv) & Hs). split; [done|]. split; [|done].
           exists v. split; [by apply list_elem_of_further|done].
        -- intros (Hns & (v & Hin & Hv) & Hs).
           apply elem_of_cons in Hin as [->|Hin]; [|by eauto].
           congruence.
    + rewrite IH. split.
      * intros (Hns & (v & Hin & Hv) & Hs). split; [done|]. split; [|done].
        exists v. split; [by apply list_elem_of_further|done].
      * intros (Hns & (v & Hin & Hv) & Hs).
        apply elem_of_cons in Hin as [->|Hin]; [congruence|by eauto].
Qed.

(** X4: the candidate claims of a Pod are the claims of its volumes whose
    name ends with the name of the Pod, in the namespace of the Pod. *)
Theorem StsPVCs_are_the_claims_named_after_the_pod (pod : Pod) (key : ObjectKey) :
  key ∈ StsPVCs pod ↔
  Namespace key = pod_Namespace pod
  ∧ (∃ vol, vol ∈ pod_Volumes pod
            ∧ vol_PersistentVolumeClaim vol = Some (Name key))
  ∧ ∃ prefix, bytes (Name key) = prefix ++ bytes (pod_Name pod).
Proof.
  unfold StsPVCs. rewrite StsPVCs_from_spec, HasSuffix_spec. done.
Qed.

(** X5: when the first Unschedulable condition of an eligible Pod is
    younger than the Timeout, a pass only reads the Pod, leaves the store as
    that read left it, and asks to be run again after what is left of the
    Timeout. *)
Theorem young_condition_requeues_without_writes
    (W : Type) (client : Client W) (order : MapOrder)
    (r : Controller) (now : Z) (req : ObjectKey) (w w1 : W)
    (pod : Pod) (cond : PodCondition) :
  GetPod req w = (Ok pod, w1) →
  passesFilters r pod →
  pvcUnbinderPredicate pod = true →
  unschedulableCondition pod = Some cond →
  MatchString schedulingFailureRE (cond_Message cond) = true →
  (0 ≤ Timeout r ≤ maxDuration)%Z →
  let elapsed := (now - cond_LastTransitionTime cond)%Z in
  (0 ≤ elapsed < Timeout r)%Z →
  Reconcile r now req w
  = (Ok (mkResult true (Timeout r - elapsed)), w1, [EvGetPod req (Ok pod)]).
Proof.
  intros Hget [Hsel Hfil] Hpred Hcond Hre Htimeout elapsed Helapsed.
  unfold Reconcile, Mbind, Mcall. rewrite Hget.
  rewrite (ShouldRemediate_delay r now pod cond Hsel Hfil Hpred Hcond Hre);
    fold elapsed; unfold minDuration, maxDuration in *; [|lia..].
  destruct (Z.ltb_spec elapsed (Timeout r)); [|lia]. simpl.
  destruct (Z.ltb_spec 0 (Timeout r - elapsed)); [done|lia].
Qed.

Lemma young_condition_witness :
  Reconcile (order := listOrder) ex_controller (10 * Minute) ex_key ex_store
  = (Ok (mkResult true (5 * Minute)), ex_store, [EvGetPod ex_key (Ok (ex_pod 0))]).
Proof.
  refine (young_condition_requeues_without_writes Store storeClient listOrder
            ex_controller (10 * Minute) ex_key ex_store ex_store
            (ex_pod 0) (ex_cond 0) _ _ _ _ _ _ _).
  - reflexivity.
  - by split.
  - reflexivity.
  - reflexivity.
  - vm_compute. reflexivity.
  - vm_compute. split; discriminate.
  - vm_compute. split; [discriminate|reflexivity].
Defined.

End eligibility_more.

(** ** Failures *)

Section failures.

Import pvcunbinder.
Local Open Scope string_scope.
Local Open Scope list_scope.

Context {W : Type} {client : Client W} {order : MapOrder}.

(** Every run of [m] ends at its first failure. *)
Local Abbreviation failfast m :=
  (∀ w res w' tr, m w = (res, w', tr) → endsAtFailure res tr).

Lemma failfast_ret {A} (a : A) : failfast (Mret (W := W) (E := Event) a).
Proof. intros w res w' tr [= <- _ <-]. constructor. Qed.

Lemma failfast_recycle {A} :
  failfast (Mfail (W := W) (E := Event) (A := A) errRecycle).
Proof. intros w res w' tr [= <- _ <-]. left. by split; [constructor|]. Qed.

Lemma failfast_bind {A B} (m : M W Event A) (k : A → M W Event B) :
  failfast m → (∀ a, failfast (k a)) → failfast (Mbind m k).
Proof.
  intros Hm Hk w res w' tr Hrun.
  mbind Hrun as Hfirst Hrest; [exact (Hm _ _ _ _ Hfirst)|].
  apply Hm in Hfirst. apply Hk in Hrest. simpl in Hfirst.
  destruct res as [b|e]; simpl in *.
  - by apply Forall_app.
  - destruct Hrest as [[Hall ->]|(t & ev & -> & Hall & Hev)].
    + left. split; [by apply Forall_app|done].
    + right. exists (x1 ++ t), ev. rewrite app_assoc. split; [done|].
      split; [by apply Forall_app|done].
Qed.

(** A call to the store whose failure the code returns as it is. *)
Lemma failfast_call {A B} (op : W → result A * W) (ev : result A → Event)
    (k : result A → M W Event B) :
  (∀ r, match failure (ev r) with
        | Some e => ∀ w, k r w = (Err e, w, [])
        | None => failfast (k r)
        end) →
  failfast (Mbind (Mcall op ev) k).
Proof.
  intros Hk w res w' tr Hrun.
  mbind Hrun as Hcall Hrest; [mleaf Hcall|].
  mleaf Hcall. specialize (Hk r). destruct (failure (ev r)) as [e|] eqn:Hfail.
  - rewrite Hk in Hrest. injection Hrest as <- <- <-.
    right. exists [], (ev r). by repeat split.
  - apply Hk in Hrest. destruct res as [b|e]; simpl in *.
    + by constructor.
    + destruct Hrest as [[Hall ->]|(t & ev' & -> & Hall & Hev)].
      * left. split; [by constructor|done].
      * right. exists (ev r :: t), ev'. split; [done|].
        split; [by constructor|done].
Qed.

Lemma failfast_forEach {A} (f : A → M W Event A) (l : list A) :
  (∀ x, failfast (f x)) → failfast (forEach f l).
Proof.
  intros Hf. induction l as [|x l IH]; simpl; [apply failfast_ret|].
  apply failfast_bind; [apply Hf|]. intros y.
  apply failfast_bind; [apply IH|]. intros ys. apply failfast_ret.
Qed.

Lemma failfast_ensureRetainPolicy pv : failfast (ensureRetainPolicy pv).
Proof.
  unfold ensureRetainPolicy. destruct (String.eqb _ _).
  - intros w res w' tr Hrun. mbind Hrun as Htell Hret; [mleaf Htell|].
    mleaf Htell. mleaf Hret. by repeat constructor.
  - apply failfast_call. intros [stored|e]; simpl; [apply failfast_ret|done].
Qed.

Lemma failfast_maybeRecycle r pv : failfast (maybeRecyclePersistentVolume r pv).
Proof.
  unfold maybeRecyclePersistentVolume.
  destruct (_ && _); [apply failfast_recycle|].
  destruct (negb _); [apply failfast_ret|].
  destruct (isNil _); [apply failfast_ret|].
  apply failfast_call. intros [stored|e]; simpl; [apply failfast_ret|done].
Qed.

Lemma failfast_fetchPVCs keys : ∀ m, failfast (fetchPVCs keys m).
Proof.
  induction keys as [|key keys IH]; intros m; simpl; [apply failfast_ret|].
  apply failfast_call. intros [pvc|e]; simpl; [apply IH|].
  destruct (IsNotFound e); simpl; [apply IH|done].
Qed.

Lemma failfast_deleteBoundPVCs entries : ∀ m, failfast (deleteBoundPVCs entries m).
Proof.
  induction entries as [|[key [pvc|]] entries IH]; intros m; simpl;
    [apply failfast_ret| |apply IH].
  destruct (String.eqb _ _); [apply IH|].
  apply failfast_call. intros [[]|e]; simpl; [|done].
  apply failfast_bind; [apply failfast_ret|]. intros _. apply IH.
Qed.

Lemma failfast_remediate r pod : failfast (remediate r pod).
Proof.
  unfold remediate. apply failfast_bind; [apply failfast_fetchPVCs|].
  intros m0. destruct (size m0 =? 0)%nat; [apply failfast_ret|].
  apply failfast_call. intros [pvList|e]; simpl; [|done].
  apply failfast_bind; [apply failfast_ret|]. intros pvList'.
  destruct (filterPVs pvList' m0) as [pvs m1].
  apply failfast_bind; [apply failfast_forEach, failfast_ensureRetainPolicy|].
  intros pvs'. apply failfast_bind; [apply failfast_deleteBoundPVCs|].
  intros m2.
  apply failfast_bind; [apply failfast_forEach, failfast_maybeRecycle|].
  intros pvs''. destruct (negb _); [apply failfast_ret|].
  apply failfast_call. intros [[]|e]; simpl; [|done].
  apply failfast_bind; [apply failfast_ret|]. intros _. apply failfast_ret.
Qed.

Lemma failfast_Reconcile r now req : failfast (Reconcile r now req).
Proof.
  unfold Reconcile. apply failfast_call. intros [pod|e]; simpl.
  - destruct (ShouldRemediate r now pod) as [ok after].
    destruct (_ || _); [apply failfast_ret|apply failfast_remediate].
  - destruct (IsNotFound e); [apply failfast_ret|done].
Qed.

End failures.

Section pass_more.

Import pvcunbinder.
Local Open Scope string_scope.
Local Open Scope list_scope.

(** X6: in every pass, whatever the store answers, a call that fails (a Get
    that finds nothing apart) is the last event of the pass, and the pass
    returns its error; and an error that a pass returns is the error of its
    last call, or the error of [maybeRecyclePersistentVolume] about a
    Volume that is neither HostPath nor Local. *)
Theorem first_failure_ends_the_pass
    (W : Type) (client : Client W) (order : MapOrder)
    (r : Controller) (now : Z) (req : ObjectKey) (w : W) :
  let pass := Reconcile r now req w in
  (∀ i ev e,
     run_trace pass !! i = Some ev → failure ev = Some e →
     S i = length (run_trace pass) ∧ run_result pass = Err e)
  ∧ (∀ e, run_result pass = Err e →
          e = errRecycle
          ∨ ∃ ev, last (run_trace pass) = Some ev ∧ failure ev = Some e).
Proof.
  destruct (Reconcile r now req w) as [[res w'] tr] eqn:Hrun.
  unfold run_trace, run_result. simpl.
  apply failfast_Reconcile in Hrun. split.
  - intros i ev e Hi Hev.
    assert (∀ t, Forall (λ ev, failure ev = None) t → t !! i = Some ev → False)
      as Hquiet.
    { intros t Hall Ht. eapply Forall_lookup_1 in Hall; [|done]. congruence. }
    destruct res as [a|e']; simpl in Hrun; [by destruct (Hquiet tr)|].
    destruct Hrun as [[Hall _]|(t & ev' & -> & Hall & Hev')];
      [by destruct (Hquiet tr)|].
    apply lookup_app_Some in Hi as [Hi|[Hlen Hi]]; [by destruct (Hquiet t)|].
    destruct (i - length t)%nat as [|n] eqn:Hidx; [|done].
    injection Hi as ->. rewrite length_app. simpl.
    split; [lia|congruence].
  - intros e ->. simpl in Hrun.
    destruct Hrun as [[_ ->]|(t & ev & -> & _ & Hev)]; [by left|right].
    exists ev. by rewrite last_snoc.
Qed.

Lemma first_failure_witness :
  run_result (Reconcile (client := blindClient) (order := listOrder)
                ex_controller (20 * Minute) ex_key tt)
  = Err (ErrOther "the server is unavailable").
Proof.
  refine (proj2 (proj1 (first_failure_ends_the_pass unit blindClient listOrder
                          ex_controller (20 * Minute) ex_key tt)
                   2%nat (EvListPV (Err (ErrOther "the server is unavailable")))
                   (ErrOther "the server is unavailable") _ _)).
  - vm_compute. reflexivity.
  - reflexivity.
Defined.

Lemma emits_forEach {W : Type} {A} (P : Event → Prop)
    (f : A → M W Event A) (l : list A) :
  (∀ x, x ∈ l → emits P (f x)) → emits P (forEach f l).
Proof.
  induction l as [|x l IH]; intros Hf; simpl; [apply emits_ret|].
  apply emits_bind; [apply Hf, list_elem_of_here|]. intros y.
  apply emits_bind; [|intros ys; apply emits_ret].
  apply IH. intros z Hz. by apply Hf, list_elem_of_further.
Qed.

Lemma filterPVs_nodeBound items : ∀ m pvs m1,
  filterPVs items m = (pvs, m1) →
  Forall (λ pv, nodeBound pv ∧ pv_ClaimRef pv ≠ None) pvs.
Proof.
  induction items as [|pv items IH]; intros m pvs m1 Hf; simpl in Hf.
  - simplify_eq. constructor.
  - destruct (pv_ClaimRef pv) as [key|] eqn:Href; [|by eapply IH].
    destruct (m !! key); [|by eapply IH].
    destruct (isNil (pv_NodeAffinity pv)
              || isNil (pv_HostPath pv) && isNil (pv_Local pv)) eqn:Hnil;
      [by eapply IH|].
    destruct (filterPVs items m) as [pvs' m'] eqn:Hrec. simplify_eq.
    constructor; [|by eapply IH].
    apply orb_false_iff in Hnil as [Haff Hsrc]. unfold nodeBound.
    destruct (pv_NodeAffinity pv), (pv_HostPath pv), (pv_Local pv);
      simpl in *; try done; rewrite Href; naive_solver.
Qed.

Section patches.

Context {W : Type} {client : Client W} {order : MapOrder}.

Lemma ensureRetainPolicy_patch r pv :
  nodeBound pv → pv_ClaimRef pv ≠ None →
  emits (patchAllowed r) (ensureRetainPolicy pv).
Proof.
  intros Hbound Href. unfold ensureRetainPolicy.
  destruct (String.eqb _ _).
  - apply emits_bind; [by apply emits_tell|]. intros _. apply emits_ret.
  - apply emits_bind; [|intros ?; apply emits_try].
    apply emits_call. intros res. simpl. left. done.
Qed.

Lemma maybeRecycle_patch r pv :
  emits (patchAllowed r) (maybeRecyclePersistentVolume r pv).
Proof.
  unfold maybeRecyclePersistentVolume.
  destruct (isNil (pv_HostPath pv) && isNil (pv_Local pv)) eqn:Hsrc;
    [apply emits_fail|].
  destruct (AllowRebinding r) eqn:Hallow; simpl; [|apply emits_ret].
  destruct (isNil (pv_ClaimRef pv)); [apply emits_ret|].
  apply emits_bind; [|intros ?; apply emits_try].
  apply emits_call. intros res. simpl. right.
  split; [done|]. split; [done|]. split; [done|].
  destruct (pv_HostPath pv), (pv_Local pv); simpl in *; naive_solver.
Qed.

Lemma fetchPVCs_patch r keys : ∀ m, emits (patchAllowed r) (fetchPVCs keys m).
Proof.
  induction keys as [|key keys IH]; intros m; simpl; [apply emits_ret|].
  apply emits_bind; [by apply emits_call|].
  intros [pvc|e]; [apply IH|]. destruct (negb _); [apply emits_fail|apply IH].
Qed.

Lemma deleteBoundPVCs_patch r entries :
  ∀ m, emits (patchAllowed r) (deleteBoundPVCs entries m).
Proof.
  induction entries as [|[key [pvc|]] entries IH]; intros m; simpl;
    [apply emits_ret| |apply IH].
  destruct (String.eqb _ _); [apply IH|].
  apply emits_bind; [by apply emits_call|]. intros d.
  apply emits_bind; [apply emits_try|]. intros _. apply IH.
Qed.

Lemma Reconcile_patch r now req : emits (patchAllowed r) (Reconcile r now req).
Proof.
  unfold Reconcile. apply emits_bind; [by apply emits_call|].
  intros [pod|e]; [|destruct (IsNotFound e); [apply emits_ret|apply emits_fail]].
  destruct (ShouldRemediate r now pod) as [ok after].
  destruct (_ || _); [apply emits_ret|]. unfold remediate.
  apply emits_bind; [apply fetchPVCs_patch|]. intros m0.
  destruct (size m0 =? 0)%nat; [apply emits_ret|].
  apply emits_bind; [by apply emits_call|]. intros listed.
  apply emits_bind; [apply emits_try|]. intros pvList.
  destruct (filterPVs pvList m0) as [pvs m1] eqn:Hfilter.
  apply filterPVs_nodeBound in Hfilter.
  apply emits_bind.
  { apply emits_forEach. intros pv Hin.
    eapply Forall_forall in Hfilter as [? ?]; [|done].
    by apply ensureRetainPolicy_patch. }
  intros pvs'. apply emits_bind; [apply deleteBoundPVCs_patch|]. intros m2.
  apply emits_bind; [apply emits_forEach; intros; apply maybeRecycle_patch|].
  intros pvs''. destruct (negb _); [apply emits_ret|].
  apply emits_bind; [by apply emits_call|]. intros d.
  apply emits_bind; [apply emits_try|]. intros _. apply emits_ret.
Qed.

End patches.

(** X7: in every pass, whatever the store answers, a patch of a Volume
    either sets the reclaim policy to Retain, under the resource version of
    the Volume, on a Volume that has a node affinity and a HostPath or Local
    source and is bound to a claim; or, only when the controller allows
    rebinding, clears the claim reference of a HostPath or Local Volume,
    without a resource version. *)
Theorem patches_only_retain_or_unbind
    (W : Type) (client : Client W) (order : MapOrder)
    (r : Controller) (now : Z) (req : ObjectKey) (w : W) :
  ∀ pv patch res,
    EvPatchPV pv patch res ∈ run_trace (Reconcile r now req w) →
    (patch = retainPatch pv
     ∧ pv_ReclaimPolicy pv = PersistentVolumeReclaimRetain
     ∧ nodeBound pv
     ∧ pv_ClaimRef pv ≠ None)
    ∨ (AllowRebinding r = true
       ∧ patch = unbindPatch
       ∧ pv_ClaimRef pv = None
       ∧ (pv_HostPath pv ≠ None ∨ pv_Local pv ≠ None)).
Proof.
  intros pv patch res Hin.
  pose proof (Reconcile_patch r now req w) as Hall.
  eapply Forall_forall in Hall; [|exact Hin]. exact Hall.
Qed.

Lemma patches_witness :
  let pv := set_ReclaimPolicy PersistentVolumeReclaimRetain ex_pv in
  (retainPatch pv = retainPatch pv
   ∧ pv_ReclaimPolicy pv = PersistentVolumeReclaimRetain
   ∧ nodeBound pv
   ∧ pv_ClaimRef pv ≠ None)
  ∨ (AllowRebinding ex_controller = true
     ∧ retainPatch pv = unbindPatch
     ∧ pv_ClaimRef pv = None
     ∧ (pv_HostPath pv ≠ None ∨ pv_Local pv ≠ None)).
Proof.
  eapply (patches_only_retain_or_unbind Store storeClient listOrder
            ex_controller (20 * Minute) ex_key ex_store).
  apply (list_elem_of_lookup_2 _ 3%nat). vm_compute. reflexivity.
Defined.

Section deletes.

Context {W : Type} {client : Client W} {order : MapOrder}.

Lemma fetchPVCs_got keys : ∀ m w res w' tr,
  fetchPVCs keys m w = (res, w', tr) →
  ∀ m', res = Ok m' →
    ∀ key pvc, m' !! key = Some (Some pvc) →
      m !! key = Some (Some pvc)
      ∨ (key ∈ keys ∧ EvGetPVC key (Ok pvc) ∈ tr).
Proof.
  induction keys as [|key keys IH]; intros m w res w' tr Hrun; simpl in Hrun.
  - mleaf Hrun. intros ? [= <-]. auto.
  - mbind Hrun as Hget Hrest; [mleaf Hget|].
    mleaf Hget. intros m' -> k pvc Hk.
    assert (∀ v t, fetchPVCs keys (<[key := v]> m) x0 = (Ok m', w', t) →
                   (v = Some pvc → EvGetPVC key (Ok pvc) = EvGetPVC key r) →
                   m !! k = Some (Some pvc)
                   ∨ (k ∈ key :: keys
                      ∧ EvGetPVC k (Ok pvc) ∈ EvGetPVC key r :: t)) as Hstep.
    { intros v t Hrec Hv.
      destruct (IH _ _ _ _ _ Hrec _ eq_refl _ _ Hk) as [Hin|[Hin Hev]].
      - rewrite lookup_insert in Hin. case_decide; [|by left].
        simplify_eq. right. split; [apply list_elem_of_here|].
        rewrite Hv by done. apply list_elem_of_here.
      - right. split; by apply list_elem_of_further. }
    destruct r as [got|e].
    + eapply (Hstep (Some got)); [exact Hrest|]. by intros [= ->].
    + destruct (negb (IsNotFound e)); [by mleaf Hrest|].
      eapply (Hstep None); [exact Hrest|done].
Qed.

Lemma deleteBoundPVCs_guarded entries : ∀ m w res w' tr,
  deleteBoundPVCs entries m w = (res, w', tr) →
  Forall (λ ev, ∃ key pvc r,
            ev = EvDeletePVC pvc (mkPre (pvc_UID pvc) (pvc_ResourceVersion pvc)) r
            ∧ (key, Some pvc) ∈ entries
            ∧ pvc_VolumeName pvc ≠ "") tr.
Proof.
  induction entries as [|[key [pvc|]] entries IH]; intros m w res w' tr Hrun;
    simpl in Hrun.
  - mleaf Hrun. constructor.
  - assert (∀ t, Forall (λ ev, ∃ key pvc r,
                   ev = EvDeletePVC pvc
                          (mkPre (pvc_UID pvc) (pvc_ResourceVersion pvc)) r
                   ∧ (key, Some pvc) ∈ entries
                   ∧ pvc_VolumeName pvc ≠ "") t →
                 Forall (λ ev, ∃ key0 pvc0 r,
                   ev = EvDeletePVC pvc0
                          (mkPre (pvc_UID pvc0) (pvc_ResourceVersion pvc0)) r
                   ∧ (key0, Some pvc0) ∈ (key, Some pvc) :: entries
                   ∧ pvc_VolumeName pvc0 ≠ "") t) as Hweaken.
    { intros t Ht. eapply Forall_impl; [exact Ht|].
      intros ev (k & c & r & -> & Hin & Hbound). exists k, c, r.
      split; [done|]. split; [by apply list_elem_of_further|done]. }
    destruct (String.eqb (pvc_VolumeName pvc) "") eqn:Hname;
      [by eapply Hweaken, IH|].
    apply String.eqb_neq in Hname.
    mbind Hrun as Hcall Hrest; [mleaf Hcall|].
    mleaf Hcall.
    assert (∃ key0 pvc0 r0,
              EvDeletePVC pvc (mkPre (pvc_UID pvc) (pvc_ResourceVersion pvc)) r
              = EvDeletePVC pvc0
                  (mkPre (pvc_UID pvc0) (pvc_ResourceVersion pvc0)) r0
              ∧ (key0, Some pvc0) ∈ (key, Some pvc) :: entries
              ∧ pvc_VolumeName pvc0 ≠ "") as Hhead.
    { exists key, pvc, r. split; [done|]. split; [apply list_elem_of_here|done]. }
    mbind Hrest as Htry Hrec; [mleaf Htry; by repeat constructor|].
    mleaf Htry. constructor; [done|]. by eapply Hweaken, IH.
  - apply IH in Hrun. eapply Forall_impl; [exact Hrun|].
    intros ev (k & c & r & -> & Hin & Hbound). exists k, c, r.
    split; [done|]. split; [by apply list_elem_of_further|done].
Qed.

Lemma remediate_deletes r pod w res w' tr :
  remediate r pod w = (res, w', tr) →
  ∀ pvc pre r0,
    EvDeletePVC pvc pre r0 ∈ tr →
    pre = mkPre (pvc_UID pvc) (pvc_ResourceVersion pvc)
    ∧ pvc_VolumeName pvc ≠ ""
    ∧ ∃ key, key ∈ StsPVCs pod ∧ EvGetPVC key (Ok pvc) ∈ tr.
Proof.
  intros Hrun pvc pre r0 Hin.
  unfold remediate in Hrun.
  mbind Hrun as Hfetch Hrest.
  { apply fetchPVCs_run in Hfetch as [Hall _].
    eapply Forall_forall in Hall; [|done]. done. }
  pose proof (fetchPVCs_run _ _ _ _ _ _ Hfetch) as [Hgets _].
  pose proof (fetchPVCs_got _ _ _ _ _ _ Hfetch _ eq_refl) as Hgot.
  match type of Hfetch with _ = (Ok ?m, _, ?t) =>
    rename m into m0; rename t into t0 end.
  assert (∀ t, EvDeletePVC pvc pre r0 ∈ t0 ++ t →
               EvDeletePVC pvc pre r0 ∈ t) as Hskip.
  { intros t [Hbad|?]%elem_of_app; [|done].
    eapply Forall_forall in Hgets; [|done]. done. }
  apply Hskip in Hin.
  cut (pre = mkPre (pvc_UID pvc) (pvc_ResourceVersion pvc)
       ∧ pvc_VolumeName pvc ≠ ""
       ∧ ∃ key, key ∈ StsPVCs pod ∧ EvGetPVC key (Ok pvc) ∈ t0).
  { intros (? & ? & key & ? & ?). split; [done|]. split; [done|].
    exists key. split; [done|]. apply elem_of_app. by left. }
  clear Hskip.
  destruct (size m0 =? 0)%nat; [mleaf Hrest; by apply elem_of_nil in Hin|].
  mbind Hrest as Hlist Hrest'; [mleaf Hlist|].
  mleaf Hlist. apply elem_of_cons in Hin as [?|Hin]; [done|].
  mbind Hrest' as Htry Hrest; [mleaf Htry; by apply elem_of_nil in Hin|].
  mleaf Htry. simpl in Hin.
  match type of Hrest with context [filterPVs ?l m0] =>
    destruct (filterPVs l m0) as [pvs m1] eqn:Hfilter end.
  assert (∀ t, Forall (λ ev, ∃ key c r1,
                 ev = EvDeletePVC c (mkPre (pvc_UID c) (pvc_ResourceVersion c)) r1
                 ∧ (key, Some c) ∈ mapRange m1
                 ∧ pvc_VolumeName c ≠ "") t →
               EvDeletePVC pvc pre r0 ∈ t →
               pre = mkPre (pvc_UID pvc) (pvc_ResourceVersion pvc)
               ∧ pvc_VolumeName pvc ≠ ""
               ∧ ∃ key, key ∈ StsPVCs pod
                        ∧ EvGetPVC key (Ok pvc) ∈ t0) as Hmain.
  { intros t Hall Hev. eapply Forall_forall in Hall; [|exact Hev].
    destruct Hall as (key & c & r1 & [= <- <- <-] & Hentry & Hbound).
    split; [done|]. split; [done|]. exists key.
    apply mapRange_lookup in Hentry.
    eapply filterPVs_sub in Hentry; [|done].
    destruct (Hgot _ _ Hentry) as [Hempty|[Hkey Hev']];
      [by rewrite lookup_empty in Hempty|].
    done. }
  mbind Hrest as Hens Hrest'.
  { apply forEach_ensure_run in Hens as [Hall _].
    eapply Forall_forall in Hall; [|done]. done. }
  apply forEach_ensure_run in Hens as [Hens _].
  apply elem_of_app in Hin as [Hin|Hin].
  { eapply Forall_forall in Hens; [|done]. done. }
  mbind Hrest' as Hdel Hrest.
  { apply deleteBoundPVCs_guarded in Hdel. by eapply Hmain. }
  apply deleteBoundPVCs_guarded in Hdel.
  apply elem_of_app in Hin as [Hin|Hin]; [by eapply Hmain|].
  mbind Hrest as Hrec Hrest'.
  { apply forEach_recycle_run in Hrec.
    eapply Forall_forall in Hrec; [|done]. done. }
  apply forEach_recycle_run in Hrec.
  apply elem_of_app in Hin as [Hin|Hin].
  { eapply Forall_forall in Hrec; [|done]. done. }
  destruct (negb _); [mleaf Hrest'; by apply elem_of_nil in Hin|].
  mbind Hrest' as Hcall Hend; [mleaf Hcall|].
  mleaf Hcall. apply elem_of_cons in Hin as [?|Hin]; [done|].
  mbind Hend as Htry Hret; mleaf Htry; [by apply elem_of_nil in Hin|].
  mleaf Hret. by apply elem_of_nil in Hin.
Qed.

End deletes.

(** X8: in every pass, whatever the store answers, a claim is deleted only
    if it is bound to a Volume and the pass fetched it as a candidate claim
    of the Pod it read; and it is deleted under the UID and the resource
    version that the pass fetched. *)
Theorem claim_deletes_are_guarded
    (W : Type) (client : Client W) (order : MapOrder)
    (r : Controller) (now : Z) (req : ObjectKey) (w : W) :
  ∀ pvc pre res,
    EvDeletePVC pvc pre res ∈ run_trace (Reconcile r now req w) →
    pre = mkPre (pvc_UID pvc) (pvc_ResourceVersion pvc)
    ∧ pvc_VolumeName pvc ≠ ""
    ∧ ∃ pod key,
        EvGetPod req (Ok pod) ∈ run_trace (Reconcile r now req w)
        ∧ key ∈ StsPVCs pod
        ∧ EvGetPVC key (Ok pvc) ∈ run_trace (Reconcile r now req w).
Proof.
  destruct (Reconcile r now req w) as [[res0 w'] tr] eqn:Hrun.
  unfold run_trace. simpl. intros pvc pre res Hin.
  apply Reconcile_shape in Hrun as (got & rest & -> & Hrest).
  apply elem_of_cons in Hin as [?|Hin]; [done|].
  destruct Hrest as [->|(pod & w1 & res1 & w2 & -> & Hrem)];
    [by apply elem_of_nil in Hin|].
  destruct (remediate_deletes _ _ _ _ _ _ Hrem _ _ _ Hin)
    as (Hpre & Hbound & key & Hkey & Hev).
  split; [done|]. split; [done|]. exists pod, key.
  split; [apply list_elem_of_here|]. split; [done|].
  by apply list_elem_of_further.
Qed.

Lemma claim_deletes_witness :
  mkPre "uid-pvc" 3 = mkPre (pvc_UID ex_pvc) (pvc_ResourceVersion ex_pvc)
  ∧ pvc_VolumeName ex_pvc ≠ ""
  ∧ ∃ pod key,
      EvGetPod ex_key (Ok pod)
        ∈ run_trace (Reconcile (order := listOrder) ex_controller (20 * Minute)
                       ex_key ex_store)
      ∧ key ∈ StsPVCs pod
      ∧ EvGetPVC key (Ok ex_pvc)
          ∈ run_trace (Reconcile (order := listOrder) ex_controller
                         (20 * Minute) ex_key ex_store).
Proof.
  apply (claim_deletes_are_guarded Store storeClient listOrder ex_controller
           (20 * Minute) ex_key ex_store ex_pvc (mkPre "uid-pvc" 3) (Ok tt)).
  apply (list_elem_of_lookup_2 _ 4%nat). vm_compute. reflexivity.
Defined.

Lemma filterOwner_spec (ownerNamespace ownerName namespace : string)
    (labels : option (gmap string string)) :
  filterOwner ownerNamespace ownerName namespace labels = true
  ↔ namespace = ownerNamespace
    ∧ ∃ m, labels = Some m ∧ default "" (m !! k8sInstanceLabelKey) = ownerName.
Proof.
  unfold filterOwner.
  destruct (String.eqb_spec namespace ownerNamespace) as [->|Hns]; simpl.
  2:{ split; [done|]. by intros [? _]. }
  destruct labels as [m|]; simpl.
  2:{ split; [done|]. by intros [_ (m & ? & _)]. }
  destruct (String.eqb_spec (default "" (m !! k8sInstanceLabelKey)) ownerName)
    as [Heq|Hne].
  - split; [|done]. intros _. split; [done|]. by exists m.
  - split; [done|]. intros [_ (m' & [= <-] & Heq)]. done.
Qed.

(** X9: [filterOwner] accepts an object exactly when it is in the namespace
    of the owner, its map of labels is not nil, and its instance label, read
    as the empty string when the map does not hold it, is the name of the
    owner.  So for an owner with a name it accepts the objects of the
    namespace that carry the name as instance label, and for an empty name
    those with labels among which the instance label is absent or empty. *)
Theorem filterOwner_accepts_the_instance
    (ownerNamespace ownerName namespace : string)
    (labels : option (gmap string string)) :
  (ownerName ≠ "" →
   (filterOwner ownerNamespace ownerName namespace labels = true
    ↔ namespace = ownerNamespace
      ∧ ∃ m, labels = Some m ∧ m !! k8sInstanceLabelKey = Some ownerName))
  ∧ (filterOwner ownerNamespace "" namespace labels = true
     ↔ namespace = ownerNamespace
       ∧ ∃ m, labels = Some m
              ∧ (m !! k8sInstanceLabelKey = None
                 ∨ m !! k8sInstanceLabelKey = Some "")).
Proof.
  split.
  - intros Hname. rewrite filterOwner_spec.
    split; intros [Hns (m & -> & Hm)]; (split; [done|]); exists m;
      (split; [done|]).
    + destruct (m !! k8sInstanceLabelKey); simpl in Hm; congruence.
    + by rewrite Hm.
  - rewrite filterOwner_spec.
    split; intros [Hns (m & -> & Hm)]; (split; [done|]); exists m;
      (split; [done|]).
    + destruct (m !! k8sInstanceLabelKey) as [v|]; simpl in Hm;
        [right; by rewrite Hm|by left].
    + by destruct Hm as [-> | ->].
Qed.

End pass_more.

(** * More of package redpanda *)

Section sync_more.

Import redpanda.
Local Open Scope string_scope.
Local Open Scope list_scope.

Context {env : Env} {W : Type} {client : Client W}.

Implicit Types (rp : Redpanda) (obj : Object) (created : gset gvkKey)
               (tr : list Event) (w : W).

Lemma emits_try_bind {A B} (P : Event → Prop) (r : result A)
    (k : A → M W Event B) :
  (∀ a, r = Ok a → emits P (k a)) → emits P (Mbind (Mtry r) k).
Proof.
  intros Hk w. destruct r as [a|e]; unfold Mbind, Mtry, Mret, Mfail, run_trace;
    simpl; [|constructor].
  specialize (Hk a eq_refl w). unfold run_trace in Hk.
  destruct (k a w) as [[res w2] t2]. done.
Qed.

Lemma stamp_stamped rp obj gvk :
  obj_Annotations
    (stamp (rp_Namespace rp) (GetHelmReleaseName rp) (OwnerShipRefObj rp) obj)
    !! "helm.sh/hook" = None →
  stamped rp
    (set_GVK gvk
       (set_ManagedFields []
          (stamp (rp_Namespace rp) (GetHelmReleaseName rp) (OwnerShipRefObj rp)
                 obj))).
Proof.
  intros Hhook. unfold stamped. simpl in *.
  repeat split; try done; by simplify_map_eq.
Qed.

Lemma applyAll_stamped rp objs : ∀ created,
  emits (λ ev, match ev with
               | EvApply obj _ =>
                   stamped rp obj ∧ ∃ rendered, rendered ∈ objs ∧ renderedAs rendered obj
               | _ => True
               end)
        (applyAll rp objs created).
Proof.
  induction objs as [|obj objs IH]; intros created; simpl; [apply emits_ret|].
  assert (∀ c, emits (λ ev, match ev with
                            | EvApply o _ =>
                                stamped rp o
                                ∧ ∃ rendered, rendered ∈ obj :: objs
                                              ∧ renderedAs rendered o
                            | _ => True
                            end) (applyAll rp objs c)) as Hrest.
  { intros c w. eapply Forall_impl; [apply IH|].
    intros [] ; try done. intros [? (rendered & ? & ?)]. split; [done|].
    exists rendered. split; [by apply list_elem_of_further|done]. }
  destruct (_ !! "helm.sh/hook") eqn:Hhook; [apply Hrest|].
  apply emits_bind; [|intros ?; apply Hrest].
  unfold apply. apply emits_try_bind. intros gvk Hgvk.
  apply emits_bind; [|intros ?; apply emits_try].
  apply emits_call. intros res. split; [by apply stamp_stamped|].
  exists obj. split; [apply list_elem_of_here|done].
Qed.

Lemma reconcileDefluxGC_no_apply rp created :
  emits (λ ev, ¬ isApplyEvent ev) (reconcileDefluxGC rp created).
Proof.
  intros w. destruct (reconcileDefluxGC rp created w) as [[res w'] tr] eqn:Hrun.
  by eapply reconcileDefluxGC_events.
Qed.

Lemma reconcileDefluxed_stamped rp :
  emits (λ ev, match ev with
               | EvApply obj _ =>
                   stamped rp obj
                   ∧ ∃ objs rendered,
                       Render (rp_Namespace rp) (GetHelmReleaseName rp)
                              (rp_ClusterSpec rp) = Ok objs
                       ∧ rendered ∈ objs ∧ renderedAs rendered obj
               | _ => True
               end)
        (reconcileDefluxed rp).
Proof.
  unfold reconcileDefluxed. destruct (Deref _ _); [apply emits_ret|].
  simpl. destruct (negb _).
  { apply emits_bind; [by apply emits_tell|]. intros _. apply emits_ret. }
  apply emits_try_bind. intros objs Hobjs.
  apply emits_bind.
  { intros w. eapply Forall_impl; [apply applyAll_stamped|].
    intros []; try done. intros [? (rendered & ? & ?)]. split; [done|].
    by exists objs, rendered. }
  intros created. destruct (_ && _); [apply emits_ret|].
  apply emits_bind; [|intros ?; apply emits_ret].
  intros w. eapply Forall_impl; [apply reconcileDefluxGC_no_apply|].
  by intros [].
Qed.

(** Every run of [m] ends at the first apply or list that fails. *)
Local Abbreviation failfast m :=
  (∀ w res w' tr, m w = (res, w', tr) → endsAtSyncFailure res tr).

Lemma sf_ret {A} (a : A) : failfast (Mret (W := W) (E := Event) a).
Proof. intros w res w' tr [= <- _ <-]. constructor. Qed.

Lemma sf_fail {A} e : failfast (Mfail (W := W) (E := Event) (A := A) e).
Proof. intros w res w' tr [= <- _ <-]. left. constructor. Qed.

Lemma sf_try {A} (r : result A) : failfast (Mtry (W := W) (E := Event) r).
Proof. destruct r; [apply sf_ret|apply sf_fail]. Qed.

Lemma sf_bind {A B} (m : M W Event A) (k : A → M W Event B) :
  failfast m → (∀ a, failfast (k a)) → failfast (Mbind m k).
Proof.
  intros Hm Hk w res w' tr Hrun.
  mbind Hrun as Hfirst Hrest; [exact (Hm _ _ _ _ Hfirst)|].
  apply Hm in Hfirst. apply Hk in Hrest. simpl in Hfirst.
  destruct res as [b|e]; simpl in *.
  - by apply Forall_app.
  - destruct Hrest as [Hall|(t & ev & -> & Hall & Hev)].
    + left. by apply Forall_app.
    + right. exists (x1 ++ t), ev. rewrite app_assoc. split; [done|].
      split; [by apply Forall_app|done].
Qed.

Lemma sf_call {A B} (op : W → result A * W) (ev : result A → Event)
    (k : result A → M W Event B) :
  (∀ r, match syncFailure (ev r) with
        | Some e => ∀ w, k r w = (Err e, w, [])
        | None => failfast (k r)
        end) →
  failfast (Mbind (Mcall op ev) k).
Proof.
  intros Hk w res w' tr Hrun.
  mbind Hrun as Hcall Hrest; [mleaf Hcall|].
  mleaf Hcall. specialize (Hk r).
  destruct (syncFailure (ev r)) as [e|] eqn:Hfail.
  - rewrite Hk in Hrest. injection Hrest as <- <- <-.
    right. exists [], (ev r). by repeat split.
  - apply Hk in Hrest. destruct res as [b|e]; simpl in *.
    + by constructor.
    + destruct Hrest as [Hall|(t & ev' & -> & Hall & Hev)].
      * left. by constructor.
      * right. exists (ev r :: t), ev'. split; [done|].
        split; [by constructor|done].
Qed.

Lemma sf_applyAll rp objs : ∀ created, failfast (applyAll rp objs created).
Proof.
  induction objs as [|obj objs IH]; intros created; simpl; [apply sf_ret|].
  destruct (_ !! "helm.sh/hook"); [apply IH|].
  apply sf_bind; [|intros ?; apply IH].
  unfold apply. apply sf_bind; [apply sf_try|]. intros gvk.
  apply sf_call. intros [answer|e]; simpl; [apply sf_ret|done].
Qed.

Lemma sf_collectGarbage rp created types :
  ∀ toDelete, failfast (collectGarbage rp created types toDelete).
Proof.
  induction types as [|typ types IH]; intros toDelete; simpl; [apply sf_ret|].
  apply sf_call. intros [items|e]; simpl.
  - apply sf_bind; [apply sf_try|]. intros ?. apply IH.
  - destruct (IsNoMatchError e); [apply IH|done].
Qed.

Lemma sf_deleteAll toDelete : ∀ errs, failfast (deleteAll toDelete errs).
Proof.
  induction toDelete as [|obj toDelete IH]; intros errs; simpl; [apply sf_ret|].
  apply sf_call. intros [[]|e]; simpl; apply IH.
Qed.

Lemma sf_reconcileDefluxed rp : failfast (reconcileDefluxed rp).
Proof.
  unfold reconcileDefluxed. destruct (Deref _ _); [apply sf_ret|].
  simpl. destruct (negb _).
  { intros w res w' tr Hrun. mbind Hrun as Htell Hret; [mleaf Htell|].
    mleaf Htell. mleaf Hret. by repeat constructor. }
  apply sf_bind; [apply sf_try|]. intros objs.
  apply sf_bind; [apply sf_applyAll|]. intros created.
  destruct (_ && _); [apply sf_ret|].
  apply sf_bind; [|intros ?; apply sf_ret].
  unfold reconcileDefluxGC. apply sf_bind; [apply sf_try|]. intros types.
  apply sf_bind; [apply sf_collectGarbage|]. intros toDelete.
  apply sf_bind; [apply sf_deleteAll|]. intros [|e errs];
    [apply sf_ret|apply sf_fail].
Qed.

(** The phases of a sync pass, in order. *)
Lemma reconcileDefluxed_phases rp w res w' tr :
  reconcileDefluxed rp w = (res, w', tr) →
  ∃ t_apply t_list t_delete,
    tr = t_apply ++ t_list ++ t_delete
    ∧ Forall (λ ev, isApplyEvent ev ∨ isWarning ev) t_apply
    ∧ Forall isListEvent t_list
    ∧ Forall isDeleteEvent t_delete.
Proof.
  unfold reconcileDefluxed. intros Hrun.
  assert (∀ t, Forall isApplyEvent t →
               Forall (λ ev, isApplyEvent ev ∨ isWarning ev) t) as Hweak.
  { intros t Ht. eapply Forall_impl; [exact Ht|]. auto. }
  destruct (Deref _ _); [mleaf Hrun; by exists [], [], []|].
  simpl in Hrun. destruct (negb _).
  { mbind Hrun as Htell Hret; [mleaf Htell|].
    mleaf Htell. mleaf Hret. eexists [_], [], []. split; [done|].
    split; [|done]. apply Forall_cons_2; [by right|constructor]. }
  mbind Hrun as Hrender Hrest; [mleaf Hrender; by exists [], [], []|].
  mleaf Hrender. simpl. mbind Hrest as Happly Hrest'.
  { apply applyAll_run in Happly as [Hall _]. eexists _, [], [].
    rewrite !app_nil_r. split; [done|]. split; [by apply Hweak|done]. }
  apply applyAll_run in Happly as [Hall _]. apply Hweak in Hall.
  destruct (_ && _).
  { mleaf Hrest'. eexists _, [], []. split; [done|]. done. }
  assert (∀ c wc r0 w0 t_gc,
            reconcileDefluxGC rp c wc = (r0, w0, t_gc) →
            ∃ t_list t_delete,
              t_gc = t_list ++ t_delete
              ∧ Forall isListEvent t_list ∧ Forall isDeleteEvent t_delete)
    as Hgc.
  { intros c wc r0 w0 t_gc Hgc. unfold reconcileDefluxGC in Hgc.
    mbind Hgc as Htypes Hgc'; [mleaf Htypes; by exists [], []|].
    mleaf Htypes. simpl. mbind Hgc' as Hcollect Hgc.
    { apply collectGarbage_run in Hcollect as [Hlists _]. eexists _, [].
      by rewrite app_nil_r. }
    apply collectGarbage_run in Hcollect as [Hlists _].
    mbind Hgc as Hdelete Hend.
    { apply deleteAll_kind in Hdelete. by eexists _, _. }
    apply deleteAll_kind in Hdelete.
    match type of Hend with context [match ?e with [] => _ | _ => _ end] =>
      destruct e end; mleaf Hend; rewrite app_nil_r; by eexists _, _. }
  mbind Hrest' as Hrun_gc Hret.
  - apply Hgc in Hrun_gc as (t_list & t_delete & -> & ? & ?).
    by eexists _, _, _.
  - apply Hgc in Hrun_gc as (t_list & t_delete & -> & ? & ?).
    mleaf Hret. rewrite app_nil_r. by eexists _, _, _.
Qed.

Lemma isOwnedBy_complete rp obj : ownedBy rp obj → isOwnedBy rp obj = true.
Proof.
  intros (owner & Hin & Huid). unfold isOwnedBy.
  destruct (IndexFunc_find (λ owner, String.eqb (or_UID owner) (rp_UID rp))
              (obj_OwnerReferences obj)) as [[_ Hnone]|(Hge & _)].
  - apply list_elem_of_In in Hin.
    pose proof (find_none _ _ Hnone owner Hin) as Hno. simpl in Hno.
    apply String.eqb_neq in Hno. done.
  - destruct (Z.eqb_spec (IndexFunc (λ owner, String.eqb (or_UID owner) (rp_UID rp))
                            (obj_OwnerReferences obj)) (-1)); [lia|done].
Qed.

Lemma eachListItem_complete rp created items : ∀ toDelete result,
  eachListItem rp created items toDelete = Ok result →
  (∀ obj, obj ∈ toDelete → obj ∈ result)
  ∧ ∀ obj key, obj ∈ items → ownedBy rp obj → hasKey obj key →
               key ∉ created → obj ∈ result.
Proof.
  induction items as [|item items IH]; intros toDelete result Hrun; simpl in Hrun.
  - simplify_eq. split; [done|]. by intros ? ? ?%elem_of_nil.
  - destruct (GroupVersionKindFor (obj_GoType item)) as [gvk|] eqn:Hgvk; [|done].
    assert (∀ obj key, obj = item → ownedBy rp obj → hasKey obj key →
                       key ∉ created →
                       bool_decide (mkGvkKey gvk (ObjectKeyFromObject item) ∈ created)
                       = false ∧ isOwnedBy rp item = true) as Hhead.
    { intros obj [g k] -> Howned [Hg Hk] Hfresh. simpl in *.
      rewrite Hgvk in Hg. injection Hg as <-. rewrite Hk.
      split; [by apply bool_decide_eq_false|by apply isOwnedBy_complete]. }
    destruct (bool_decide _) eqn:Hcreated.
    { apply IH in Hrun as [Hold Hnew]. split; [done|].
      intros obj key [->|Hin]%elem_of_cons Howned Hkey Hfresh; [|by eauto].
      destruct (Hhead _ _ eq_refl Howned Hkey Hfresh). congruence. }
    destruct (isOwnedBy rp item) eqn:Hisowned; simpl in Hrun.
    + apply IH in Hrun as [Hold Hnew]. split.
      * intros obj Hin. apply Hold, elem_of_app. by left.
      * intros obj key [->|Hin]%elem_of_cons Howned Hkey Hfresh; [|by eauto].
        apply Hold, elem_of_app. right. apply list_elem_of_here.
    + apply IH in Hrun as [Hold Hnew]. split; [done|].
      intros obj key [->|Hin]%elem_of_cons Howned Hkey Hfresh; [|by eauto].
      destruct (Hhead _ _ eq_refl Howned Hkey Hfresh). congruence.
Qed.

Lemma collectGarbage_complete rp created types : ∀ toDelete w result w' tr,
  collectGarbage rp created types toDelete w = (Ok result, w', tr) →
  (∀ obj, obj ∈ toDelete → obj ∈ result)
  ∧ ∀ obj key, listed rp tr obj → ownedBy rp obj → hasKey obj key →
               key ∉ created → obj ∈ result.
Proof.
  induction types as [|typ types IH]; intros toDelete w result w' tr Hrun;
    simpl in Hrun.
  - mleaf Hrun. split; [done|].
    by intros obj key (? & ? & ?%elem_of_nil & _).
  - mbindok Hrun as Hlist Hrest. mleaf Hlist. destruct r as [items|e].
    + mbindok Hrest as Htry Hrec. mleaf Htry.
      match goal with H : Ok _ = eachListItem _ _ _ _ |- _ =>
        symmetry in H; apply eachListItem_complete in H as [Hold Hnew] end.
      apply IH in Hrec as [Hold' Hnew']. split; [by auto|].
      intros obj key (typ' & l & Hev & Hin) Howned Hkey Hfresh.
      apply elem_of_cons in Hev as [[= <- <-]|Hev].
      * by eapply Hold', Hnew.
      * eapply Hnew'; [|done..]. by exists typ', l.
    + destruct (IsNoMatchError e); [|by mleaf Hrest].
      apply IH in Hrest as [Hold' Hnew']. split; [done|].
      intros obj key (typ' & l & Hev & Hin) Howned Hkey Hfresh.
      apply elem_of_cons in Hev as [?|Hev]; [done|].
      eapply Hnew'; [|done..]. by exists typ', l.
Qed.

Lemma deleteAll_complete toDelete : ∀ errs w res w' tr,
  deleteAll toDelete errs w = (res, w', tr) →
  res = Ok (errs ++ deleteFailures tr)
  ∧ ∀ obj, obj ∈ toDelete → ∃ r, EvDelete obj r ∈ tr.
Proof.
  induction toDelete as [|obj toDelete IH]; intros errs w res w' tr Hrun;
    simpl in Hrun.
  - mleaf Hrun. rewrite app_nil_r. split; [done|]. by intros ? ?%elem_of_nil.
  - mbind Hrun as Hcall Hrest; [mleaf Hcall|].
    mleaf Hcall.
    assert (∀ errs' t,
              deleteAll toDelete errs' x0 = (res, w', t) →
              errs' ++ deleteFailures t
              = errs ++ deleteFailures (EvDelete obj r :: t) →
              res = Ok (errs ++ deleteFailures (EvDelete obj r :: t))
              ∧ ∀ o, o ∈ obj :: toDelete →
                     ∃ r0, EvDelete o r0 ∈ EvDelete obj r :: t) as Hstep.
    { intros errs' t Hrec Heq. apply IH in Hrec as [-> Hall].
      split; [by rewrite Heq|].
      intros o [->|Hin]%elem_of_cons; [exists r; apply list_elem_of_here|].
      destruct (Hall o Hin) as [r0 ?]. exists r0. by apply list_elem_of_further. }
    destruct r as [[]|e]; eapply Hstep; try exact Hrest; [done|].
    unfold deleteFailures. simpl. by rewrite <- app_assoc.
Qed.

Lemma deleteFailures_app t1 t2 :
  deleteFailures (t1 ++ t2) = deleteFailures t1 ++ deleteFailures t2.
Proof. apply omap_app. Qed.

Lemma deleteFailures_lists t : Forall isListEvent t → deleteFailures t = [].
Proof.
  induction 1 as [|ev t Hev _ IH]; [done|].
  by destruct ev.
Qed.

Lemma listed_app_deletes rp t1 t2 obj :
  Forall isDeleteEvent t2 → listed rp (t1 ++ t2) obj → listed rp t1 obj.
Proof.
  intros Hdel (typ & l & Hev & Hin). exists typ, l. split; [|done].
  apply elem_of_app in Hev as [?|Hev]; [done|].
  eapply Forall_forall in Hdel; [|done]. done.
Qed.

(** The garbage collection, once it has listed every kind: it tries to
    delete every listed object that is owned and not expected, and returns
    the errors of its deletes, joined. *)
Lemma reconcileDefluxGC_complete rp created w res w' tr :
  reconcileDefluxGC rp created w = (res, w', tr) →
  is_ok res = true ∨ (∃ obj r, EvDelete obj r ∈ tr) →
  (∀ obj key, listed rp tr obj → ownedBy rp obj → hasKey obj key →
              key ∉ created → deletes tr obj)
  ∧ res = match deleteFailures tr with
          | [] => Ok tt
          | _ :: _ => Err (ErrJoin (deleteFailures tr))
          end.
Proof.
  unfold reconcileDefluxGC. intros Hrun Hdone.
  assert (∀ t, Forall isListEvent t → ¬ ∃ obj r, EvDelete obj r ∈ t) as Hnodel.
  { intros t Hall (obj & r & Hin). eapply Forall_forall in Hall; [|done]. done. }
  mbind Hrun as Htypes Hrest.
  { mleaf Htypes. destruct Hdone as [?|Hdel]; [done|].
    by destruct (Hnodel [] (Forall_nil_2 _)). }
  mleaf Htypes. simpl in *. mbind Hrest as Hcollect Hrest'.
  { destruct Hdone as [?|Hdel]; [done|].
    apply collectGarbage_run in Hcollect as [Hlists _].
    by destruct (Hnodel _ Hlists). }
  match type of Hcollect with _ = (Ok ?a, ?b, ?c) =>
    rename a into toDelete; rename b into w1; rename c into x2 end.
  pose proof (collectGarbage_run _ _ _ _ _ _ _ _ Hcollect) as [Hlists _].
  apply collectGarbage_complete in Hcollect as [_ Hall].
  assert (∀ errs w0 r0 t,
            deleteAll toDelete [] w1 = (Ok errs, w0, t) →
            (r0 = match errs with [] => Ok tt | _ :: _ => Err (ErrJoin errs) end) →
            (∀ obj key, listed rp (x2 ++ t) obj → ownedBy rp obj →
                        hasKey obj key → key ∉ created → deletes (x2 ++ t) obj)
            ∧ r0 = match deleteFailures (x2 ++ t) with
                   | [] => Ok tt
                   | _ :: _ => Err (ErrJoin (deleteFailures (x2 ++ t)))
                   end) as Hmain.
  { intros errs w0 r0 t Hdelete ->.
    pose proof (deleteAll_kind _ _ _ _ _ _ Hdelete) as Hkind.
    apply deleteAll_complete in Hdelete as [[= ->] Htried].
    rewrite deleteFailures_app, (deleteFailures_lists _ Hlists). simpl.
    split; [|done]. intros obj key Hl Howned Hkey Hfresh.
    apply listed_app_deletes in Hl; [|done].
    destruct (Htried obj) as [r Hr]; [by eapply Hall|].
    exists r. apply elem_of_app. by right. }
  mbind Hrest' as Hdelete Hend.
  { by apply deleteAll_complete in Hdelete as [? _]. }
  match type of Hend with context [match ?e with [] => _ | _ => _ end] =>
    destruct e end;
    mleaf Hend; rewrite app_nil_r; eapply Hmain; done.
Qed.

(** The expected set holds nothing but the keys of the answers to the
    applies of the loop. *)
Lemma applyAll_created rp objs : ∀ created w created' w' tr,
  applyAll rp objs created w = (Ok created', w', tr) →
  ∀ key, key ∈ created' →
    key ∈ created
    ∨ ∃ sent answer, applied tr sent answer ∧ recordedKey answer = key.
Proof.
  induction objs as [|obj objs IH]; intros created w created' w' tr Hrun;
    simpl in Hrun.
  - mleaf Hrun. auto.
  - destruct (_ !! "helm.sh/hook"); [by eapply IH|].
    mbindok Hrun as Happly Hrest.
    apply apply_run in Happly as [_ Htr].
    destruct (Htr _ eq_refl) as [sent0 ->].
    intros key Hkey.
    destruct (IH _ _ _ _ _ Hrest key Hkey) as [Hin|(s & a & Ha & Hk)].
    + apply elem_of_union in Hin as [->%elem_of_singleton|Hin]; [|by left].
      right. eexists _, _. split; [apply list_elem_of_here|done].
    + right. exists s, a. split; [by apply list_elem_of_further|done].
Qed.

Lemma deleteFailures_elem t obj e :
  EvDelete obj (Err e) ∈ t → e ∈ deleteFailures t.
Proof.
  intros Hin. apply list_elem_of_omap. by exists (EvDelete obj (Err e)).
Qed.

(** A sync pass that returns no error has deleted every object that it
    listed, that is owned, and whose key it did not record. *)
Lemma reconcileDefluxed_complete rp w rp' w' tr :
  reconcileDefluxed rp w = (Ok rp', w', tr) →
  ∀ obj key,
    listed rp tr obj → ownedBy rp obj → hasKey obj key →
    (∀ sent answer, applied tr sent answer → recordedKey answer ≠ key) →
    EvDelete obj (Ok tt) ∈ tr.
Proof.
  unfold reconcileDefluxed. intros Hrun obj key Hlisted Howned Hkey Hfresh.
  assert (∀ t, Forall (λ ev, ¬ isListEvent ev) t → ¬ listed rp t obj) as Hnone.
  { intros t Hall (typ & l & Hev & _).
    eapply Forall_forall in Hall; [|done]. done. }
  destruct (Deref _ _); [mleaf Hrun; by destruct (Hnone [] (Forall_nil_2 _))|].
  simpl in Hrun. destruct (negb _).
  { mbindok Hrun as Htell Hret. mleaf Htell. mleaf Hret.
    destruct (Hnone [EvWarning rp (chartVersionMessage rp)]); [|done].
    apply Forall_cons_2; [simpl; tauto|constructor]. }
  mbindok Hrun as Hrender Hrest. mleaf Hrender. simpl in *.
  mbindok Hrest as Happly Hrest'.
  pose proof (applyAll_run _ _ _ _ _ _ _ Happly) as [Hkind _].
  pose proof (applyAll_created _ _ _ _ _ _ _ Happly) as Hcreated.
  match type of Hkind with Forall _ ?t => rename t into t_apply end.
  assert (Forall (λ ev, ¬ isListEvent ev) t_apply) as Hnolist.
  { eapply Forall_impl; [exact Hkind|]. kinds. }
  destruct (_ && _).
  { mleaf Hrest'. rewrite app_nil_r in Hlisted. by destruct (Hnone t_apply). }
  mbindok Hrest' as Hgc Hret. mleaf Hret. rewrite app_nil_r in *.
  match type of Hgc with _ = (_, _, ?t) => rename t into t_gc end.
  destruct (reconcileDefluxGC_complete _ _ _ _ _ _ Hgc) as [Hall Hres];
    [by left|].
  destruct (Hall obj key) as [r Hr]; try done.
  - destruct Hlisted as (typ & l & Hev & Hin). exists typ, l. split; [|done].
    apply elem_of_app in Hev as [Hev|?]; [|done].
    eapply Forall_forall in Hnolist; [|done]. done.
  - intros Hin. destruct (Hcreated key Hin) as [Hempty|(s & a & Ha & Hk)];
      [by apply not_elem_of_empty in Hempty|].
    apply (Hfresh s a); [|done]. apply elem_of_app. by left.
  - apply elem_of_app. right. destruct r as [[]|e]; [done|].
    apply deleteFailures_elem in Hr.
    destruct (deleteFailures t_gc); [by apply elem_of_nil in Hr|done].
Qed.

End sync_more.

Section sync_claims.

Import redpanda.
Local Open Scope string_scope.
Local Open Scope list_scope.

(** X10: in every sync pass, whatever the store answers, an object that the
    pass applies is an object that the chart rendered, with its name and
    with the kind that the scheme gives its type, put in the namespace of
    the cluster, owned by the cluster alone, labelled and annotated with the
    name and the namespace of the release, without managed fields; and it is
    no helm hook. *)
Theorem applied_objects_are_stamped
    (env : Env) (W : Type) (client : Client W) (rp : Redpanda) (w : W) :
  ∀ obj res,
    EvApply obj res ∈ run_trace (reconcileDefluxed rp w) →
    stamped rp obj
    ∧ ∃ objs rendered,
        Render (rp_Namespace rp) (GetHelmReleaseName rp) (rp_ClusterSpec rp)
        = Ok objs
        ∧ rendered ∈ objs
        ∧ renderedAs rendered obj.
Proof.
  intros obj res Hin.
  pose proof (reconcileDefluxed_stamped rp w) as Hall.
  eapply Forall_forall in Hall; [|exact Hin]. exact Hall.
Qed.

Lemma applied_objects_witness :
  let rp := ex_rp 2 1 "" in
  let obj := set_GVK configMapGVK
               (stamp "default" "rp" (OwnerShipRefObj (Env := ex_env) rp)
                      ex_rendered) in
  stamped (env := ex_env) rp obj
  ∧ ∃ objs rendered,
      Render (Env := ex_env) (rp_Namespace rp)
             (GetHelmReleaseName (Env := ex_env) rp) (rp_ClusterSpec rp)
      = Ok objs
      ∧ rendered ∈ objs
      ∧ renderedAs (env := ex_env) rendered obj.
Proof.
  eapply (applied_objects_are_stamped ex_env World
            (worldClient (env := ex_env)) (ex_rp 2 1 "")
            (ex_world (ex_rp 2 1 "") 3 [1; 2; 3])).
  apply (list_elem_of_lookup_2 _ 0%nat). vm_compute. reflexivity.
Defined.

(** X11: in every sync pass, whatever the store answers, an apply that
    fails, or a list that fails for another reason than an unknown kind, is
    the last event of the pass, and the pass returns its error: nothing is
    applied, listed or deleted after it. *)
Theorem failed_apply_or_list_ends_the_sync
    (env : Env) (W : Type) (client : Client W) (rp : Redpanda) (w : W) :
  ∀ i ev e,
    run_trace (reconcileDefluxed rp w) !! i = Some ev →
    syncFailure ev = Some e →
    S i = length (run_trace (reconcileDefluxed rp w))
    ∧ run_result (reconcileDefluxed rp w) = Err e.
Proof.
  destruct (reconcileDefluxed rp w) as [[res w'] tr] eqn:Hrun.
  unfold run_trace, run_result. simpl.
  apply sf_reconcileDefluxed in Hrun. intros i ev e Hi Hev.
  assert (∀ t, Forall (λ ev, syncFailure ev = None) t → t !! i = Some ev → False)
    as Hquiet.
  { intros t Hall Ht. eapply Forall_lookup_1 in Hall; [|done]. congruence. }
  destruct res as [a|e']; simpl in Hrun; [by destruct (Hquiet tr)|].
  destruct Hrun as [Hall|(t & ev' & -> & Hall & Hev')];
    [by destruct (Hquiet tr)|].
  apply lookup_app_Some in Hi as [Hi|[Hlen Hi]]; [by destruct (Hquiet t)|].
  destruct (i - length t)%nat as [|n] eqn:Hidx; [|done].
  injection Hi as ->. rewrite length_app. simpl.
  split; [lia|congruence].
Qed.

Lemma failed_apply_witness :
  run_result (reconcileDefluxed (env := ex_env)
                (client := readOnlyClient (env := ex_env))
                (ex_rp 2 1 "") (ex_world (ex_rp 2 1 "") 3 [1; 2; 3]))
  = Err ErrConflict.
Proof.
  refine (proj2 (failed_apply_or_list_ends_the_sync ex_env World
                   (readOnlyClient (env := ex_env)) (ex_rp 2 1 "")
                   (ex_world (ex_rp 2 1 "") 3 [1; 2; 3]) 0%nat
                   (EvApply
                      (set_GVK configMapGVK
                         (stamp "default" "rp"
                            (OwnerShipRefObj (Env := ex_env) (ex_rp 2 1 ""))
                            ex_rendered))
                      (Err ErrConflict))
                   ErrConflict _ _)).
  - vm_compute. reflexivity.
  - reflexivity.
Defined.

(** X12: the record of every sync pass is made of applies (or the warning
    about the chart version), then lists, then deletes: the pass lists
    nothing before it has applied every object, and deletes nothing before
    it has listed every kind. *)
Theorem sync_applies_then_lists_then_deletes
    (env : Env) (W : Type) (client : Client W) (rp : Redpanda) (w : W) :
  ∃ t_apply t_list t_delete,
    run_trace (reconcileDefluxed rp w) = t_apply ++ t_list ++ t_delete
    ∧ Forall (λ ev, isApplyEvent ev ∨ isWarning ev) t_apply
    ∧ Forall isListEvent t_list
    ∧ Forall isDeleteEvent t_delete.
Proof.
  destruct (reconcileDefluxed rp w) as [[res w'] tr] eqn:Hrun.
  by eapply reconcileDefluxed_phases.
Qed.

(** X13: once the garbage collection has listed every kind (it returned no
    error, or it issued a delete), it has tried to delete every object that
    it listed, that is owned by the cluster and whose key is not in the
    expected set, also after a delete that failed; and it returns the errors
    of its deletes, joined, or no error when every delete went through. *)
Theorem gc_attempts_every_orphan
    (env : Env) (W : Type) (client : Client W)
    (rp : Redpanda) (created : gset gvkKey) (w : W) :
  is_ok (run_result (reconcileDefluxGC rp created w)) = true
  ∨ (∃ obj r, EvDelete obj r ∈ run_trace (reconcileDefluxGC rp created w)) →
  (∀ obj key,
     listed rp (run_trace (reconcileDefluxGC rp created w)) obj →
     ownedBy rp obj → hasKey obj key → key ∉ created →
     deletes (run_trace (reconcileDefluxGC rp created w)) obj)
  ∧ run_result (reconcileDefluxGC rp created w)
    = match deleteFailures (run_trace (reconcileDefluxGC rp created w)) with
      | [] => Ok tt
      | _ :: _ =>
          Err (ErrJoin (deleteFailures
                          (run_trace (reconcileDefluxGC rp created w))))
      end.
Proof.
  destruct (reconcileDefluxGC rp created w) as [[res w'] tr] eqn:Hrun.
  unfold run_trace, run_result. simpl.
  exact (reconcileDefluxGC_complete _ _ _ _ _ _ Hrun).
Qed.

Lemma gc_attempts_witness :
  run_result (reconcileDefluxGC (env := ex_env)
                (client := readOnlyClient (env := ex_env))
                (ex_rp 2 1 "") ∅ (ex_world (ex_rp 2 1 "") 3 [1; 2; 3]))
  = Err (ErrJoin [ErrConflict]).
Proof.
  refine (proj2 (gc_attempts_every_orphan ex_env World
                   (readOnlyClient (env := ex_env)) (ex_rp 2 1 "") ∅
                   (ex_world (ex_rp 2 1 "") 3 [1; 2; 3]) _)).
  right. exists ex_orphan, (Err ErrConflict).
  apply (list_elem_of_lookup_2 _ 1%nat). vm_compute. reflexivity.
Defined.

(** X14: a sync pass that returns no error has deleted every object that
    it listed under the labels of the release, that is owned by the cluster
    and whose key differs from the key that the pass recorded for every
    object it applied, which is the key of the object as the store answered
    the apply. *)
Theorem sync_deletes_every_listed_orphan
    (env : Env) (W : Type) (client : Client W)
    (rp : Redpanda) (w : W) rp' w' tr :
  reconcileDefluxed rp w = (Ok rp', w', tr) →
  ∀ obj key,
    listed rp tr obj → ownedBy rp obj → hasKey obj key →
    (∀ sent answer, applied tr sent answer → recordedKey answer ≠ key) →
    EvDelete obj (Ok tt) ∈ tr.
Proof. apply reconcileDefluxed_complete. Qed.

Lemma sync_deletes_witness :
  EvDelete ex_orphan (Ok tt)
    ∈ run_trace (reconcileDefluxed (env := ex_env)
                   (client := worldClient (env := ex_env))
                   (ex_rp 2 1 "") (ex_world (ex_rp 2 1 "") 3 [1; 2; 3])).
Proof.
  destruct (reconcileDefluxed (env := ex_env)
              (client := worldClient (env := ex_env))
              (ex_rp 2 1 "") (ex_world (ex_rp 2 1 "") 3 [1; 2; 3]))
    as [[[rp'|e] w'] tr] eqn:Hrun; [|by vm_compute in Hrun].
  assert (tr = run_trace (reconcileDefluxed (env := ex_env)
                            (client := worldClient (env := ex_env))
                            (ex_rp 2 1 "") (ex_world (ex_rp 2 1 "") 3 [1; 2; 3])))
    as Htr by (by rewrite Hrun).
  unfold run_trace. simpl.
  apply (sync_deletes_every_listed_orphan ex_env World
           (worldClient (env := ex_env)) _ _ _ _ _ Hrun ex_orphan
           (mkGvkKey configMapGVK (mkKey "default" "old-config"))).
  - eexists _, _. split.
    + rewrite Htr. apply (list_elem_of_lookup_2 _ 1%nat). vm_compute. reflexivity.
    + apply list_elem_of_further, list_elem_of_here.
  - eexists. split; [apply list_elem_of_here|reflexivity].
  - by split.
  - intros sent answer Happlied. rewrite Htr in Happlied.
    assert (Forall (λ ev, match ev with
                          | EvApply _ (Ok o) =>
                              recordedKey o
                              ≠ mkGvkKey configMapGVK (mkKey "default" "old-config")
                          | _ => True
                          end)
              (run_trace (reconcileDefluxed (env := ex_env)
                            (client := worldClient (env := ex_env))
                            (ex_rp 2 1 "")
                            (ex_world (ex_rp 2 1 "") 3 [1; 2; 3])))) as Hall.
    { vm_compute. repeat constructor. discriminate. }
    eapply Forall_forall in Hall; [|exact Happlied]. exact Hall.
Defined.

End sync_claims.

(** ** Readiness, teardown and the finalizer *)

Section pass_more_rp.

Import redpanda.
Local Open Scope string_scope.
Local Open Scope list_scope.

Context {env : Env} {W : Type} {client : Client W}.

Implicit Types (rp : Redpanda) (tr : list Event) (w : W).

Lemma notConverged_false item : notConverged item = false ↔ converged item.
Proof.
  unfold notConverged, converged. rewrite !orb_false_iff, !negb_false_iff.
  rewrite !Z.eqb_eq. tauto.
Qed.

Lemma checkReplicasForList_spec list resource :
  (checkReplicasForList list resource).2 = true ↔ Forall converged list.
Proof.
  split; [apply checkReplicasForList_true|].
  intros Hall. unfold checkReplicasForList. rewrite length_fmap.
  replace (List.filter notConverged list) with (@nil Workload); [done|].
  symmetry. induction Hall as [|item list Hitem _ IH]; [done|].
  simpl. apply notConverged_false in Hitem. by rewrite Hitem.
Qed.

Lemma needsDecommission_true rp stses w w' tr :
  needsDecommission rp stses w = (Ok true, w', tr) →
  ∃ health,
    tr = [EvAdminClient (Ok tt); EvHealth (Ok health)]
    ∧ ¬ gateClear stses health.
Proof.
  unfold needsDecommission. intros Hrun.
  mbindok Hrun as Hadmin Hrest. mleaf Hadmin.
  mbindok Hrest as Htry Hrest'. mleaf Htry.
  mbindok Hrest' as Hhealth Hrest. mleaf Hhealth.
  mbindok Hrest as Htry' Hret. mleaf Htry'.
  match goal with u : unit |- _ => destruct u end.
  match type of Hhealth with _ = (Ok ?h, _) => rename h into health end.
  exists health. split.
  { destruct (_ || _); mleaf Hret; reflexivity. }
  unfold gateClear.
  destruct (Nat.eqb_spec (length (AllNodes health)) 0) as [Hlen|Hlen];
    [simpl in Hret; by mleaf Hret|].
  destruct (Z.eqb_spec (desiredReplicas stses) 0) as [Hzero|Hzero];
    [simpl in Hret; by mleaf Hret|].
  simpl in Hret. mleaf Hret.
  match goal with H : true = (_ <? _)%Z |- _ =>
    symmetry in H; apply Z.ltb_lt in H end.
  intros [?|[?|?]]; [done|done|lia].
Qed.

Lemma reconcile_converged rp w rp' w' tr :
  reconcile rp w = (Ok rp', w', tr) →
  readinessHolds tr →
  reportsReady rp' = true.
Proof.
  unfold reconcile.
  intros Hrun (repoSent & repo & hrSent & hr & stses & deps & health
               & Htr & _ & _ & _ & _ & _ & Hgate).
  mbindok Hrun as Hsts Hrest. mleaf Hsts.
  mbindok Hrest as Htry Hrest'. mleaf Htry.
  mbindok Hrest' as Hdep Hrest. mleaf Hdep.
  mbindok Hrest as Htry' Hrest'. mleaf Htry'.
  mbindok Hrest' as Hrepo Hrest.
  apply reconcileHelmRepository_run in Hrepo as (repo' & b1 & -> & -> & _).
  destruct (negb _); [by mleaf Hrest|].
  mbindok Hrest as Hrel Hrest'.
  apply reconcileHelmRelease_run in Hrel as (sent & hr' & b2 & -> & -> & _).
  repeat match type of Hrest' with
         | (if ?b then _ else _) _ = _ => destruct b; [by mleaf Hrest'|]
         end.
  mbindok Hrest' as Hdec Hret.
  match type of Hdec with _ = (Ok ?b, _, _) => destruct b end.
  - apply needsDecommission_true in Hdec as (health' & -> & Hclosed).
    simpl in Htr. simplify_eq. done.
  - mleaf Hret. apply reportsReady_Ready.
Qed.

Lemma deleteHelmRelease_run rp w res w' tr :
  deleteHelmRelease rp w = (res, w', tr) →
  (tr = [] ∧ res = Ok rp ∧ st_HelmRelease (rp_Status rp) = "")
  ∨ (∃ key e, tr = [EvGetHelmRelease key (Err e)]
              ∧ res = (if IsNotFound e then Ok (clear_HelmNames rp) else Err e))
  ∨ (∃ key hr d, tr = [EvGetHelmRelease key (Ok hr); EvDeleteHelmRelease hr d]
                 ∧ res = Err (match d with
                              | Ok _ => errWaitForReleaseDeletion
                              | Err e => e
                              end)).
Proof.
  unfold deleteHelmRelease. intros Hrun.
  destruct (String.eqb_spec (st_HelmRelease (rp_Status rp)) "") as [Hname|Hname].
  { mleaf Hrun. by left. }
  right. mbind Hrun as Hget Hrest; [mleaf Hget|].
  mleaf Hget. destruct r as [hr|e].
  - right. mbind Hrest as Hdel Hrest'; [mleaf Hdel|].
    mleaf Hdel. mbind Hrest' as Htry Hfail.
    + mleaf Htry. eexists _, _, _. split; [done|]. done.
    + mleaf Htry. mleaf Hfail. eexists _, _, _. split; [done|]. done.
  - left. eexists _, e. destruct (IsNotFound e); mleaf Hrest; done.
Qed.

Lemma ContainsFinalizer_Remove rp f :
  ContainsFinalizer (RemoveFinalizer rp f) f = false.
Proof.
  unfold ContainsFinalizer, RemoveFinalizer. simpl.
  induction (rp_Finalizers rp) as [|x l IH]; [done|]. simpl.
  destruct (String.eqb_spec x f) as [->|Hne]; simpl; [done|].
  rewrite IH, orb_false_r. apply String.eqb_neq. congruence.
Qed.

Lemma ContainsFinalizer_Add rp f :
  ContainsFinalizer (AddFinalizer rp f) f = true.
Proof.
  unfold AddFinalizer. destruct (ContainsFinalizer rp f) eqn:Hhas; [done|].
  unfold ContainsFinalizer. simpl. rewrite existsb_app. simpl.
  by rewrite String.eqb_refl, orb_true_r.
Qed.

(** The record of the teardown. *)
Lemma reconcileDelete_cases rp w res w' tr :
  reconcileDelete rp w = (res, w', tr) →
  (∃ key hr d, tr = [EvGetHelmRelease key (Ok hr); EvDeleteHelmRelease hr d]
               ∧ res = Err (match d with
                            | Ok _ => errWaitForReleaseDeletion
                            | Err e => e
                            end))
  ∨ (∃ t_get,
       (t_get = [] ∧ st_HelmRelease (rp_Status rp) = ""
        ∨ ∃ key e, t_get = [EvGetHelmRelease key (Err e)])
       ∧ (tr = t_get
          ∨ ∃ rp' u, tr = t_get ++ [EvUpdate rp' u]
                     ∧ ContainsFinalizer rp' FinalizerKey = false
                     ∧ (t_get = [] ∨ ∃ key e, t_get = [EvGetHelmRelease key (Err e)]
                                              ∧ IsNotFound e = true)
                     ∧ res = match u with
                             | Ok _ => Ok emptyResult
                             | Err e => Err e
                             end)).
Proof.
  unfold reconcileDelete. intros Hrun.
  assert (∀ rp1 w1 t, (if ContainsFinalizer rp1 FinalizerKey
                       then
                         do u <- Mcall (UpdateRedpanda (RemoveFinalizer rp1 FinalizerKey))
                                   (EvUpdate (RemoveFinalizer rp1 FinalizerKey));
                         do _ <- Mtry u; Mret emptyResult
                       else Mret emptyResult) w1 = (res, w', t) →
            t = []
            ∨ ∃ rp' u, t = [EvUpdate rp' u]
                       ∧ ContainsFinalizer rp' FinalizerKey = false
                       ∧ res = match u with
                               | Ok _ => Ok emptyResult
                               | Err e => Err e
                               end) as Hupdate.
  { intros rp1 w1 t Ht. destruct (ContainsFinalizer rp1 FinalizerKey);
      [|mleaf Ht; by left].
    right. mbind Ht as Hcall Hrest; [mleaf Hcall|].
    mleaf Hcall. eexists _, r. split; [|split; [apply ContainsFinalizer_Remove|]].
    - mbind Hrest as Htry Hret; mleaf Htry; [done|]. by mleaf Hret.
    - mbind Hrest as Htry Hret; mleaf Htry; [done|]. by mleaf Hret. }
  mbind Hrun as Hdelete Hrest.
  { apply deleteHelmRelease_run in Hdelete
      as [(_ & ? & _)|[(key & e & -> & Hres)|(key & hr & d & -> & Hres)]];
      [done| |].
    - right. exists [EvGetHelmRelease key (Err e)].
      split; [right; eauto|by left].
    - left. exists key, hr, d. split; [done|]. by injection Hres as ->. }
  apply deleteHelmRelease_run in Hdelete
    as [(-> & _ & Hname)|[(key & e & -> & Hres)|(key & hr & d & -> & Hres)]];
    [| |done].
  - right. exists []. split; [by left|].
    apply Hupdate in Hrest as [->|(rp' & u & -> & ? & ?)]; [by left|].
    right. exists rp', u. auto.
  - right. exists [EvGetHelmRelease key (Err e)]. split; [right; eauto|].
    destruct (IsNotFound e) eqn:Hnf; [|done].
    apply Hupdate in Hrest as [->|(rp' & u & -> & ? & ?)];
      [left; by rewrite app_nil_r|].
    right. exists rp', u. split; [done|]. split; [done|]. split; [|done].
    right. eauto.
Qed.

Lemma allListTypes_from_spec types :
  match allListTypes_from types with
  | Ok lists => Forall2 listTypeFor types lists
  | Err e =>
      ∃ known t rest lists,
        types = known ++ t :: rest
        ∧ Forall2 listTypeFor known lists
        ∧ unlistable t e
  end.
Proof.
  induction types as [|t types IH]; simpl; [constructor|].
  destruct (GroupVersionKindFor t) as [gvk|e] eqn:Hgvk.
  2:{ exists [], t, types, []. split; [done|]. split; [constructor|by left]. }
  destruct (SchemeNew _) as [list|e] eqn:Hnew.
  2:{ exists [], t, types, []. split; [done|]. split; [constructor|].
      right. by exists gvk. }
  destruct (allListTypes_from types) as [lists|e].
  - constructor; [by exists gvk|done].
  - destruct IH as (known & t' & rest & lists & -> & Hknown & Hbad).
    exists (t :: known), t', rest, (list :: lists). split; [done|].
    split; [|done]. constructor; [by exists gvk|done].
Qed.

(** What a pass does before the phases. *)
Lemma Reconcile_phases_start req w res w' tr r :
  Reconcile req w = (res, w', tr) →
  EvStatefulSets r ∈ tr →
  ∃ rp0,
    head tr = Some (EvGet req (Ok rp0))
    ∧ rp_DeletionTimestamp rp0 = None
    ∧ isRedpandaManaged rp0 = true
    ∧ (ContainsFinalizer rp0 FinalizerKey = true
       ∨ ∃ stored, tr !! 1%nat
                   = Some (EvPatch (AddFinalizer rp0 FinalizerKey) (Ok stored))).
Proof.
  unfold Reconcile. intros Hrun Hin.
  mbind Hrun as Hget Hrest; [mleaf Hget|].
  mleaf Hget. apply elem_of_cons in Hin as [?|Hin]; [done|].
  destruct r0 as [rp0|e].
  2:{ destruct (IsNotFound e); mleaf Hrest; by apply elem_of_nil in Hin. }
  destruct (rp_DeletionTimestamp rp0) as [t|] eqn:Hdel; simpl in Hrest.
  { apply reconcileDelete_cases in Hrest
      as [(? & ? & ? & -> & _)
         |(t_get & [[-> _]|(? & ? & ->)] & [->|(? & ? & -> & _)])];
      repeat (apply elem_of_cons in Hin as [?|Hin]; [done|]);
      by apply elem_of_nil in Hin. }
  destruct (isRedpandaManaged rp0) eqn:Hmanaged; simpl in Hrest.
  2:{ destruct (ContainsFinalizer rp0 FinalizerKey);
        [|mleaf Hrest; by apply elem_of_nil in Hin].
      mbind Hrest as Hcall Hrest'; [mleaf Hcall|].
      mleaf Hcall. apply elem_of_cons in Hin as [?|Hin]; [done|].
      mbind Hrest' as Htry Hret; mleaf Htry; [by apply elem_of_nil in Hin|].
      mleaf Hret. by apply elem_of_nil in Hin. }
  destruct (_ !! _); [mleaf Hrest; by apply elem_of_nil in Hin|].
  exists rp0. split; [done|]. split; [done|]. split; [done|].
  destruct (ContainsFinalizer rp0 FinalizerKey); [by left|right].
  simpl in Hrest. mbind Hrest as Hfin Hrest'.
  { mbinderr Hfin as Hcall Htry; [mleaf Hcall|].
    mleaf Hcall. mleaf Htry. rewrite app_nil_r in Hin.
    apply elem_of_cons in Hin as [?|Hin]; [done|]. by apply elem_of_nil in Hin. }
  mbindok Hfin as Hcall Htry. mleaf Hcall. mleaf Htry. by eexists.
Qed.

End pass_more_rp.

Section pass_claims_more.

Import redpanda.
Local Open Scope string_scope.
Local Open Scope list_scope.

(** X15: a pass of [reconcile] that returns no error and has seen what
    readiness requires (the repository and the release ready, a StatefulSet,
    every StatefulSet and Deployment converged, the decommission gate clear)
    reports the cluster ready. *)
Theorem converged_cluster_reports_ready
    (env : Env) (W : Type) (client : Client W) (rp : Redpanda) (w : W)
    rp' w' tr :
  reconcile rp w = (Ok rp', w', tr) →
  readinessHolds tr →
  reportsReady rp' = true.
Proof. apply reconcile_converged. Qed.

Lemma converged_cluster_witness :
  match run_result (reconcile (env := ex_env)
                      (client := worldClient (env := ex_env))
                      (ex_rp 2 2 "") (ex_world (ex_rp 2 2 "") 3 [1; 2; 3])) with
  | Ok rp' => reportsReady rp' = true
  | Err _ => False
  end.
Proof.
  destruct (reconcile (env := ex_env) (client := worldClient (env := ex_env))
              (ex_rp 2 2 "") (ex_world (ex_rp 2 2 "") 3 [1; 2; 3]))
    as [[[rp'|e] w'] tr] eqn:Hrun; [|by vm_compute in Hrun].
  assert (tr = run_trace (reconcile (env := ex_env)
                            (client := worldClient (env := ex_env))
                            (ex_rp 2 2 "") (ex_world (ex_rp 2 2 "") 3 [1; 2; 3])))
    as Htr by (by rewrite Hrun).
  unfold run_result. simpl.
  apply (converged_cluster_reports_ready ex_env World
           (worldClient (env := ex_env)) _ _ _ _ _ Hrun).
  rewrite Htr. eexists _, _, _, _, _, _, _.
  split; [vm_compute; reflexivity|].
  split; [by left|]. split; [by left|]. split; [done|].
  split; [by repeat constructor|]. split; [constructor|].
  right. right. vm_compute. discriminate.
Defined.

(** X16: the teardown of a cluster removes the finalizer only when the
    release is gone.  When it deletes the release, it returns an error (the
    error of the delete, or that it waits for the deletion) and does not
    update the cluster; and it updates the cluster only to drop the
    finalizer, after the status named no release or the release was not
    found. *)
Theorem finalizer_goes_after_the_release
    (W : Type) (client : Client W) (rp : Redpanda) (w : W) :
  let pass := reconcileDelete rp w in
  (∀ hr d,
     EvDeleteHelmRelease hr d ∈ run_trace pass →
     run_result pass
     = Err (match d with Ok _ => errWaitForReleaseDeletion | Err e => e end)
     ∧ ∀ rp' u, EvUpdate rp' u ∉ run_trace pass)
  ∧ (∀ rp' u,
       EvUpdate rp' u ∈ run_trace pass →
       ContainsFinalizer rp' FinalizerKey = false
       ∧ (st_HelmRelease (rp_Status rp) = ""
          ∨ ∃ key e, EvGetHelmRelease key (Err e) ∈ run_trace pass
                     ∧ IsNotFound e = true)
       ∧ run_result pass
         = match u with Ok _ => Ok emptyResult | Err e => Err e end).
Proof.
  destruct (reconcileDelete rp w) as [[res w'] tr] eqn:Hrun.
  unfold run_trace, run_result. simpl.
  apply reconcileDelete_cases in Hrun
    as [(key & hr0 & d0 & -> & ->)
       |(t_get & Hget & [->|(rp0 & u0 & -> & Hfin & Hgone & ->)])].
  - split.
    + intros hr d Hin. apply elem_of_cons in Hin as [?|Hin]; [done|].
      apply list_elem_of_singleton in Hin as [= <- <-]. split; [done|].
      intros rp' u Hup. apply elem_of_cons in Hup as [?|Hup]; [done|].
      by apply list_elem_of_singleton in Hup.
    + intros rp' u Hup. apply elem_of_cons in Hup as [?|Hup]; [done|].
      by apply list_elem_of_singleton in Hup.
  - split; intros ? ? Hin;
      destruct Hget as [[-> _]|(? & ? & ->)];
      solve [ by apply elem_of_nil in Hin
            | by apply list_elem_of_singleton in Hin ].
  - split.
    + intros hr d Hin. apply elem_of_app in Hin as [Hin|Hin];
        [|by apply list_elem_of_singleton in Hin].
      destruct Hget as [[-> _]|(? & ? & ->)];
        [by apply elem_of_nil in Hin|by apply list_elem_of_singleton in Hin].
    + intros rp' u Hin. apply elem_of_app in Hin as [Hin|Hin].
      { destruct Hget as [[-> _]|(? & ? & ->)];
          [by apply elem_of_nil in Hin|by apply list_elem_of_singleton in Hin]. }
      apply list_elem_of_singleton in Hin as [= <- <-].
      split; [done|]. split; [|done].
      destruct Hgone as [->|(key & e & -> & Hnf)].
      * left. by destruct Hget as [[_ ?]|(? & ? & ?)].
      * right. exists key, e. split; [|done]. apply elem_of_app. left.
        apply list_elem_of_here.
Qed.

Lemma finalizer_goes_witness :
  run_result (reconcileDelete
                (client := releaseClient (env := ex_env))
                ex_rp_deleting (ex_world ex_rp_deleting 3 [1; 2; 3]))
  = Err errWaitForReleaseDeletion
  ∧ run_result (reconcileDelete
                  (client := worldClient (env := ex_env))
                  ex_rp_deleting (ex_world ex_rp_deleting 3 [1; 2; 3]))
    = Ok emptyResult.
Proof.
  split.
  - refine (proj1 (proj1 (finalizer_goes_after_the_release World
                            (releaseClient (env := ex_env)) ex_rp_deleting
                            (ex_world ex_rp_deleting 3 [1; 2; 3]))
                     (mkHelm "rp" "default" [] false "" "" 1 1 []) (Ok tt) _)).
    apply (list_elem_of_lookup_2 _ 1%nat). vm_compute. reflexivity.
  - assert (∃ rp' stored,
              EvUpdate rp' (Ok stored)
                ∈ run_trace (reconcileDelete
                               (client := worldClient (env := ex_env))
                               ex_rp_deleting
                               (ex_world ex_rp_deleting 3 [1; 2; 3])))
      as (rp' & stored & Hin).
    { eexists _, _. apply (list_elem_of_lookup_2 _ 1%nat).
      vm_compute. reflexivity. }
    exact (proj2 (proj2 (proj2 (finalizer_goes_after_the_release World
                                  (worldClient (env := ex_env)) ex_rp_deleting
                                  (ex_world ex_rp_deleting 3 [1; 2; 3]))
                           rp' (Ok stored) Hin))).
Defined.

(** X17: for a cluster that is not under deletion and whose managed
    annotation is false, a pass does nothing but drop the finalizer, when
    the cluster has it: it reads the cluster and, at most, updates it,
    without its finalizer; it returns the error of the update, if any. *)
Theorem unmanaged_cluster_only_loses_its_finalizer
    (env : Env) (W : Type) (client : Client W)
    (req : ObjectKey) (w w1 : W) (rp0 : Redpanda) :
  GetRedpanda req w = (Ok rp0, w1) →
  rp_DeletionTimestamp rp0 = None →
  rp_Annotations rp0 !! (GroupVersion_Group ++ managedPath)%string
  = Some NotManaged →
  (ContainsFinalizer rp0 FinalizerKey = false →
   Reconcile req w = (Ok emptyResult, w1, [EvGet req (Ok rp0)]))
  ∧ (ContainsFinalizer rp0 FinalizerKey = true →
     ∀ u w2,
       UpdateRedpanda (RemoveFinalizer rp0 FinalizerKey) w1 = (u, w2) →
       Reconcile req w
       = (match u with Ok _ => Ok emptyResult | Err e => Err e end, w2,
          [EvGet req (Ok rp0);
           EvUpdate (RemoveFinalizer rp0 FinalizerKey) u])).
Proof.
  intros Hget Hlive Hoff.
  assert (isRedpandaManaged rp0 = false) as Hmanaged.
  { unfold isRedpandaManaged. by rewrite Hoff. }
  split.
  - intros Hfin. unfold Reconcile, Mbind, Mcall.
    by rewrite Hget, Hlive, Hmanaged, Hfin.
  - intros Hfin u w2 Hupdate. unfold Reconcile, Mbind, Mcall.
    rewrite Hget, Hlive, Hmanaged, Hfin. simpl. rewrite Hupdate.
    by destruct u.
Qed.

Lemma unmanaged_cluster_witness :
  run_trace (Reconcile (env := ex_env) (client := worldClient (env := ex_env))
               ex_req (ex_world ex_rp_unmanaged 3 [1; 2; 3]))
  = [EvGet ex_req (Ok ex_rp_unmanaged);
     EvUpdate (RemoveFinalizer ex_rp_unmanaged FinalizerKey)
              (Ok (RemoveFinalizer ex_rp_unmanaged FinalizerKey))].
Proof.
  pose proof (proj2 (unmanaged_cluster_only_loses_its_finalizer ex_env World
                       (worldClient (env := ex_env)) ex_req
                       (ex_world ex_rp_unmanaged 3 [1; 2; 3])
                       (ex_world ex_rp_unmanaged 3 [1; 2; 3])
                       ex_rp_unmanaged eq_refl eq_refl eq_refl)
                eq_refl _ _ eq_refl) as Hrun.
  rewrite Hrun. reflexivity.
Defined.

(** X18: in every pass, whatever the store answers, the phases start (the
    StatefulSets of the cluster are read) only for a cluster that is not
    under deletion, that is managed, and that has the finalizer or has just
    been patched, without error, to have it. *)
Theorem phases_start_only_with_the_finalizer
    (env : Env) (W : Type) (client : Client W) (req : ObjectKey) (w : W) :
  ∀ r,
    EvStatefulSets r ∈ run_trace (Reconcile req w) →
    ∃ rp0,
      head (run_trace (Reconcile req w)) = Some (EvGet req (Ok rp0))
      ∧ rp_DeletionTimestamp rp0 = None
      ∧ isRedpandaManaged rp0 = true
      ∧ (ContainsFinalizer rp0 FinalizerKey = true
         ∨ ∃ stored,
             run_trace (Reconcile req w) !! 1%nat
             = Some (EvPatch (AddFinalizer rp0 FinalizerKey) (Ok stored))
             ∧ ContainsFinalizer (AddFinalizer rp0 FinalizerKey) FinalizerKey
               = true).
Proof.
  destruct (Reconcile req w) as [[res w'] tr] eqn:Hrun.
  unfold run_trace. simpl. intros r Hin.
  destruct (Reconcile_phases_start _ _ _ _ _ _ Hrun Hin)
    as (rp0 & Hhead & Hlive & Hmanaged & Hfin).
  exists rp0. split; [done|]. split; [done|]. split; [done|].
  destruct Hfin as [?|[stored ?]]; [by left|right].
  exists stored. split; [done|]. apply ContainsFinalizer_Add.
Qed.

Lemma phases_start_witness :
  let rp := set_Finalizers [] (ex_rp 2 1 "") in
  let tr := run_trace (Reconcile (env := ex_env)
                         (client := worldClient (env := ex_env))
                         ex_req (ex_world rp 3 [1; 2; 3])) in
  ∃ rp0,
    head tr = Some (EvGet ex_req (Ok rp0))
    ∧ rp_DeletionTimestamp rp0 = None
    ∧ isRedpandaManaged (env := ex_env) rp0 = true
    ∧ (ContainsFinalizer rp0 FinalizerKey = true
       ∨ ∃ stored,
           tr !! 1%nat = Some (EvPatch (AddFinalizer rp0 FinalizerKey) (Ok stored))
           ∧ ContainsFinalizer (AddFinalizer rp0 FinalizerKey) FinalizerKey
             = true).
Proof.
  eapply (phases_start_only_with_the_finalizer ex_env World
            (worldClient (env := ex_env)) ex_req).
  apply (list_elem_of_lookup_2 _ 2%nat). vm_compute. reflexivity.
Defined.

(** X19: [checkReplicasForList] answers ready exactly when the updated, the
    available and the ready count of every item equal its desired replicas,
    a nil number of desired replicas counting as zero; and then its message
    is empty. *)
Theorem checkReplicasForList_ready_iff_converged
    (env : Env) (list : list Workload) (resource : string) :
  ((checkReplicasForList list resource).2 = true ↔ Forall converged list)
  ∧ ((checkReplicasForList list resource).2 = true →
     (checkReplicasForList list resource).1 = "").
Proof.
  split; [apply checkReplicasForList_spec|].
  unfold checkReplicasForList. by destruct (0 <? _)%nat.
Qed.

(** X20: [allListTypes] answers, for the types of the chart in order, the
    list type that the scheme makes for the kind of the type with the
    suffix List; it fails at the first type whose kind the client does not
    know or whose list kind the scheme does not know, with that error. *)
Theorem allListTypes_lists_every_type (env : Env) :
  match allListTypes with
  | Ok lists => Forall2 listTypeFor Types lists
  | Err e =>
      ∃ known t rest lists,
        Types = known ++ t :: rest
        ∧ Forall2 listTypeFor known lists
        ∧ unlistable t e
  end.
Proof. apply allListTypes_from_spec. Qed.

End pass_claims_more.
